(** * Avvio: boot-unit lifecycle engine

    A shallow embedding of [boot.js], [lib/plugin.js], [lib/promise.js],
    [lib/queue.js] and [lib/thenable.js].  JavaScript closures are
    defunctionalised ([Cont], [Func]); the objects they mutate live in an
    explicit store ([St]); every source function is a state transformer in
    the monad [M].  User supplied functions are finite scripts ([Fn]) over
    the public API, so that whole boot sequences can be evaluated. *)

From Stdlib Require Import String List Arith ZArith Bool Lia.
From stdpp Require Import base list gmap strings.
Import ListNotations.
Local Open Scope string_scope.
Local Open Scope list_scope.

(** ** User functions *)

(** What a user function returns: [undefined], or a promise that is already
    resolved, already rejected, or never settles. *)
Inductive Ret : Type :=
| RetUndefined
| RetResolved
| RetRejected (e : string)
| RetPending.

(** A user function: its [name], its declared parameter count [length], the
    API calls its body performs in order, and what it returns. *)
#[warnings="-register-all"]
Inductive Fn : Type :=
| MkFn (name : string) (len : nat) (body : list Act) (ret : Ret)
with Act : Type :=
| ActUse (plugin : Fn)                 (* avvio.use(plugin) *)
| ActUseInvalid                        (* avvio.use(42) *)
| ActAfter (func : Fn)                 (* avvio.after(func) *)
| ActLoadedSoFar (k : list Act)        (* avvio.after().then(() => { k }) *)
| ActReady (func : Fn)                 (* avvio.ready(func) *)
| ActReadyPromise                      (* avvio.ready() *)
| ActOnClose (func : Fn)               (* avvio.onClose(func) *)
| ActClose (func : Fn)                 (* avvio.close(func) *)
| ActStart                             (* avvio.start() *)
| ActDone (e : option string)          (* done(e) *)
| ActTickDone (e : option string)      (* process.nextTick(done, e) *)
| ActTimerDone (ms : nat) (e : option string) (* setTimeout(done, ms, e) *)
| ActThrow (e : string).               (* throw new Error(e) *)

Definition fn_name (f : Fn) : string := let 'MkFn n _ _ _ := f in n.
Definition fn_length (f : Fn) : nat := let 'MkFn _ l _ _ := f in l.
Definition fn_body (f : Fn) : list Act := let 'MkFn _ _ b _ := f in b.
Definition fn_ret (f : Fn) : Ret := let 'MkFn _ _ _ r := f in r.

(** ** Heap addresses *)

Abbreviation PluginId := nat.
Abbreviation PromiseId := nat.
Abbreviation TimerId := nat.

(** Function values that reach the queues: user functions and the closures
    the engine builds itself. *)
Inductive Func : Type :=
| FUser (f : Fn)
| FRoot                                (* root.bind(this) *)
| FAfter (func : Func)                 (* _after.bind(this), closing over func *)
| FCloseReady (func : Func)            (* the arrow close() hands to ready() *)
| FClosePromise (pr : PromiseId)       (* close(): function (error) {...} *)
| FReadyPromise (pr : PromiseId) (cell : nat)   (* readyPromiseCB *)
| FLoadedSoFar (p : PluginId).         (* the arrow setup() hands to after() *)

(** [func.length] *)
Definition func_length (f : Func) : nat :=
  match f with
  | FUser f => fn_length f
  | FRoot => 3
  | FAfter _ => 3
  | FCloseReady _ => 0
  | FClosePromise _ => 1
  | FReadyPromise _ _ => 3
  | FLoadedSoFar _ => 2
  end.

(** [func.name] *)
Definition func_name (f : Func) : string :=
  match f with
  | FUser f => fn_name f
  | FRoot => "bound root"
  | FAfter _ => "bound _after"
  | FCloseReady _ => ""
  | FClosePromise _ => "func"
  | FReadyPromise _ _ => "readyPromiseCB"
  | FLoadedSoFar _ => ""
  end.

(** Error objects. *)
Inductive Error : Type :=
| UserError (msg : string)
| AVV_ERR_READY_TIMEOUT (name : string) (fn : Func)   (* err.fn = func *)
| AVV_ERR_ROOT_PLG_BOOTED
| AVV_ERR_PLUGIN_NOT_VALID
| AVV_ERR_CALLBACK_NOT_FN (what : string)
| PlainError (msg : string)            (* new Error(msg) *)
| TypeError (msg : string)
| ReferenceError (msg : string).

Definition is_Some_b {A} (o : option A) : bool :=
  match o with Some _ => true | None => false end.

Definition user_err (e : option string) : option Error :=
  match e with Some m => Some (UserError m) | None => None end.

(** The three kinds of fastq instance. *)
Inductive QId : Type :=
| QPlugin (p : PluginId)               (* plugin.q *)
| QReady                               (* avvio._readyQ *)
| QClose.                              (* avvio._closeQ *)

(** Callbacks: the closures the engine passes as completion continuations. *)
Inductive Cont : Type :=
| KNoop
| KWorked (q : QId) (callback : Cont)  (* fastq: task.worked *)
| KExecDone (p : PluginId) (callback : Cont)
    (* exec: const done = (err) => ... *)
| KLoadExec (p : PluginId) (callback : Cont)
    (* loadPlugin: (err) => plugin.finish(err, ...) *)
| KLoadFinish (callback : Cont)
    (* loadPlugin: (err) => { this._current.shift(); callback(err) } *)
| KRootLoaded                          (* constructor: loadPlugin callback *)
| KAddPlugin                           (* _addPlugin: enqueue callback *)
| KOnClose                             (* onClose: callback *)
| KTimeoutCallback (cell : nat) (callback : Cont).
    (* setupTimeout: timeoutCallback.bind(this) *)

(** Values held by a queue: a plugin, or a ready/close continuation with
    its onClose tag. *)
Inductive Item : Type :=
| IPlugin (p : PluginId)
| IFunc (func : Func) (isOnCloseHandler : bool).

(** The functions assigned to [q.drain]. *)
Inductive Drain : Type :=
| DNoop
| DReadyQ                              (* constructor, _readyQ *)
| DCloseQ                              (* constructor, _closeQ *)
| DFinish (p : PluginId) (callback : Cont).
    (* finish: this.q.drain = () => ... *)

(** Things scheduled with process.nextTick, queueMicrotask, a promise
    reaction or setTimeout. *)
Inductive Task : Type :=
| TCall (k : Cont) (err : option Error)
| TLoadPlugin (p : PluginId) (callback : Cont)
| TNextTick (t : Task)                 (* () => process.nextTick(t) *)
| TCheck (p : PluginId) (callback : Cont)   (* finish: check *)
| TWrap (p : PluginId) (callback : Cont)    (* finish: wrap *)
| TResume (q : QId)
| TResumeRoot                          (* () => this._root.q.resume() *)
| TStart                               (* this.start.bind(this) *)
| TUser (acts : list Act) (done : option Cont)
| TExecTimeout (p : PluginId) (callback : Cont)
    (* exec: the setTimeout arrow *)
| TReadyTimeout (cell : nat) (func : Func) (callback : Cont).
    (* setupTimeout: the setTimeout arrow *)

(** ** Objects *)

Record Queue : Type := MkQueue {
  paused : bool;
  running : Z;
  items : list (Item * Cont);
  drain : Drain
}.

Inductive PromiseState : Type :=
| Pending (reactions : list (Task * (Error -> Task)))
| Fulfilled
| Rejected (e : Error).

Record Plugin : Type := MkPlugin {
  pl_started : bool;
  pl_func : Func;
  pl_timeout : nat;
  pl_name : string;
  pl_isAfter : bool;
  pl_q : Queue;
  pl_error : option Error;
  pl_loaded : bool;
  pl_promise : option PromiseId;
  pl_server : option nat;
  pl_setup_listeners : nat;             (* this.on('start', setup) *)
  pl_completed : bool;                  (* exec: let completed *)
  pl_timer : option TimerId             (* exec: let timer *)
}.

Record Timer : Type := MkTimer {
  tm_id : TimerId;
  tm_at : nat;
  tm_task : Task
}.

(** Observable events: every [emit], every call into user code, the
    settling of a promise, and the [debug('finish', ...)] line that marks
    a unit's exec having settled (the other debug lines are left out). *)
Inductive Arg : Type :=
| AErr (e : option Error)
| ACtx (c : nat)
| AOptions
| ACallback.

Inductive Event : Type :=
| EvEmit (who : option PluginId) (event : string)
| EvInvoke (func : Func) (args : list Arg)
| EvSettle (pr : PromiseId) (e : option Error)
| EvDebug (line : string) (p : PluginId)
| EvUncaught (e : Error).

Record Avvio : Type := MkAvvio {
  av_timeout : nat;                     (* this._timeout *)
  av_instance : nat;                    (* this._instance *)
  av_current : list PluginId;           (* this._current *)
  av_doStart : option Cont;             (* this._doStart *)
  av_error : option Error;              (* this._error *)
  av_started : bool;
  av_booted : bool;
  av_readyQ : Queue;
  av_closeQ : Queue;
  av_root : option PluginId;            (* this._root *)
  av_autostart : bool;                  (* options.autostart *)
  av_override : nat -> Func -> Error + nat;   (* this.override *)
  av_preReady : option Error            (* a 'preReady' listener that throws *)
}.

(** The store: the orchestrator, the heap of plugins, promises and closure
    cells, and the event loop's queues. *)
Record St : Type := MkSt {
  avvio : Avvio;
  plugins : list Plugin;
  promises : list PromiseState;
  cells : list (option nat);            (* let timer; const relativeContext *)
  ticks : list Task;                    (* process.nextTick queue *)
  micros : list Task;                   (* microtask queue *)
  timers : list Timer;
  next_timer : TimerId;
  now : nat;
  trace : list Event
}.

Definition with_avvio (f : Avvio -> Avvio) (s : St) : St :=
  MkSt (f (avvio s)) (plugins s) (promises s) (cells s) (ticks s) (micros s)
       (timers s) (next_timer s) (now s) (trace s).
Definition with_plugins (f : list Plugin -> list Plugin) (s : St) : St :=
  MkSt (avvio s) (f (plugins s)) (promises s) (cells s) (ticks s) (micros s)
       (timers s) (next_timer s) (now s) (trace s).
Definition with_promises (f : list PromiseState -> list PromiseState) (s : St) : St :=
  MkSt (avvio s) (plugins s) (f (promises s)) (cells s) (ticks s) (micros s)
       (timers s) (next_timer s) (now s) (trace s).
Definition with_cells (f : list (option TimerId) -> list (option TimerId)) (s : St) : St :=
  MkSt (avvio s) (plugins s) (promises s) (f (cells s)) (ticks s) (micros s)
       (timers s) (next_timer s) (now s) (trace s).
Definition with_ticks (f : list Task -> list Task) (s : St) : St :=
  MkSt (avvio s) (plugins s) (promises s) (cells s) (f (ticks s)) (micros s)
       (timers s) (next_timer s) (now s) (trace s).
Definition with_micros (f : list Task -> list Task) (s : St) : St :=
  MkSt (avvio s) (plugins s) (promises s) (cells s) (ticks s) (f (micros s))
       (timers s) (next_timer s) (now s) (trace s).
Definition with_timers (f : list Timer -> list Timer) (s : St) : St :=
  MkSt (avvio s) (plugins s) (promises s) (cells s) (ticks s) (micros s)
       (f (timers s)) (next_timer s) (now s) (trace s).
Definition with_trace (f : list Event -> list Event) (s : St) : St :=
  MkSt (avvio s) (plugins s) (promises s) (cells s) (ticks s) (micros s)
       (timers s) (next_timer s) (now s) (f (trace s)).

Definition set_current (c : list PluginId) (a : Avvio) : Avvio :=
  MkAvvio (av_timeout a) (av_instance a) c (av_doStart a) (av_error a)
    (av_started a) (av_booted a) (av_readyQ a) (av_closeQ a) (av_root a)
    (av_autostart a) (av_override a) (av_preReady a).
Definition set_doStart (k : option Cont) (a : Avvio) : Avvio :=
  MkAvvio (av_timeout a) (av_instance a) (av_current a) k (av_error a)
    (av_started a) (av_booted a) (av_readyQ a) (av_closeQ a) (av_root a)
    (av_autostart a) (av_override a) (av_preReady a).
Definition set_error (e : option Error) (a : Avvio) : Avvio :=
  MkAvvio (av_timeout a) (av_instance a) (av_current a) (av_doStart a) e
    (av_started a) (av_booted a) (av_readyQ a) (av_closeQ a) (av_root a)
    (av_autostart a) (av_override a) (av_preReady a).
Definition set_started (b : bool) (a : Avvio) : Avvio :=
  MkAvvio (av_timeout a) (av_instance a) (av_current a) (av_doStart a)
    (av_error a) b (av_booted a) (av_readyQ a) (av_closeQ a) (av_root a)
    (av_autostart a) (av_override a) (av_preReady a).
Definition set_booted (b : bool) (a : Avvio) : Avvio :=
  MkAvvio (av_timeout a) (av_instance a) (av_current a) (av_doStart a)
    (av_error a) (av_started a) b (av_readyQ a) (av_closeQ a) (av_root a)
    (av_autostart a) (av_override a) (av_preReady a).
Definition set_readyQ (q : Queue) (a : Avvio) : Avvio :=
  MkAvvio (av_timeout a) (av_instance a) (av_current a) (av_doStart a)
    (av_error a) (av_started a) (av_booted a) q (av_closeQ a) (av_root a)
    (av_autostart a) (av_override a) (av_preReady a).
Definition set_closeQ (q : Queue) (a : Avvio) : Avvio :=
  MkAvvio (av_timeout a) (av_instance a) (av_current a) (av_doStart a)
    (av_error a) (av_started a) (av_booted a) (av_readyQ a) q (av_root a)
    (av_autostart a) (av_override a) (av_preReady a).
Definition set_root (r : option PluginId) (a : Avvio) : Avvio :=
  MkAvvio (av_timeout a) (av_instance a) (av_current a) (av_doStart a)
    (av_error a) (av_started a) (av_booted a) (av_readyQ a) (av_closeQ a) r
    (av_autostart a) (av_override a) (av_preReady a).

Definition set_pl_started (b : bool) (p : Plugin) : Plugin :=
  MkPlugin b (pl_func p) (pl_timeout p) (pl_name p) (pl_isAfter p) (pl_q p)
    (pl_error p) (pl_loaded p) (pl_promise p) (pl_server p)
    (pl_setup_listeners p) (pl_completed p) (pl_timer p).
Definition set_pl_q (q : Queue) (p : Plugin) : Plugin :=
  MkPlugin (pl_started p) (pl_func p) (pl_timeout p) (pl_name p) (pl_isAfter p)
    q (pl_error p) (pl_loaded p) (pl_promise p) (pl_server p)
    (pl_setup_listeners p) (pl_completed p) (pl_timer p).
Definition set_pl_error (e : option Error) (p : Plugin) : Plugin :=
  MkPlugin (pl_started p) (pl_func p) (pl_timeout p) (pl_name p) (pl_isAfter p)
    (pl_q p) e (pl_loaded p) (pl_promise p) (pl_server p)
    (pl_setup_listeners p) (pl_completed p) (pl_timer p).
Definition set_pl_loaded (b : bool) (p : Plugin) : Plugin :=
  MkPlugin (pl_started p) (pl_func p) (pl_timeout p) (pl_name p) (pl_isAfter p)
    (pl_q p) (pl_error p) b (pl_promise p) (pl_server p)
    (pl_setup_listeners p) (pl_completed p) (pl_timer p).
Definition set_pl_promise (pr : option PromiseId) (p : Plugin) : Plugin :=
  MkPlugin (pl_started p) (pl_func p) (pl_timeout p) (pl_name p) (pl_isAfter p)
    (pl_q p) (pl_error p) (pl_loaded p) pr (pl_server p)
    (pl_setup_listeners p) (pl_completed p) (pl_timer p).
Definition set_pl_server (c : option nat) (p : Plugin) : Plugin :=
  MkPlugin (pl_started p) (pl_func p) (pl_timeout p) (pl_name p) (pl_isAfter p)
    (pl_q p) (pl_error p) (pl_loaded p) (pl_promise p) c
    (pl_setup_listeners p) (pl_completed p) (pl_timer p).
Definition set_pl_setup_listeners (n : nat) (p : Plugin) : Plugin :=
  MkPlugin (pl_started p) (pl_func p) (pl_timeout p) (pl_name p) (pl_isAfter p)
    (pl_q p) (pl_error p) (pl_loaded p) (pl_promise p) (pl_server p)
    n (pl_completed p) (pl_timer p).
Definition set_pl_completed (b : bool) (p : Plugin) : Plugin :=
  MkPlugin (pl_started p) (pl_func p) (pl_timeout p) (pl_name p) (pl_isAfter p)
    (pl_q p) (pl_error p) (pl_loaded p) (pl_promise p) (pl_server p)
    (pl_setup_listeners p) b (pl_timer p).
Definition set_pl_timer (t : option TimerId) (p : Plugin) : Plugin :=
  MkPlugin (pl_started p) (pl_func p) (pl_timeout p) (pl_name p) (pl_isAfter p)
    (pl_q p) (pl_error p) (pl_loaded p) (pl_promise p) (pl_server p)
    (pl_setup_listeners p) (pl_completed p) t.

Definition set_paused (b : bool) (q : Queue) : Queue :=
  MkQueue b (running q) (items q) (drain q).
Definition set_running (n : Z) (q : Queue) : Queue :=
  MkQueue (paused q) n (items q) (drain q).
Definition set_items (l : list (Item * Cont)) (q : Queue) : Queue :=
  MkQueue (paused q) (running q) l (drain q).
Definition set_drain (d : Drain) (q : Queue) : Queue :=
  MkQueue (paused q) (running q) (items q) d.

(** ** The monad of engine code: state, thrown exceptions, and running out
    of fuel on a synchronous call chain *)

Inductive Res (A : Type) : Type :=
| Val (a : A) (s : St)
| Throw (e : Error) (s : St)
| OutOfFuel.
Arguments Val {A} a s.
Arguments Throw {A} e s.
Arguments OutOfFuel {A}.

Definition M (A : Type) : Type := St -> Res A.

Definition ret {A} (a : A) : M A := fun s => Val a s.
Definition bind {A B} (m : M A) (k : A -> M B) : M B :=
  fun s => match m s with
           | Val a s' => k a s'
           | Throw e s' => Throw e s'
           | OutOfFuel => OutOfFuel
           end.
Definition throw {A} (e : Error) : M A := fun s => Throw e s.
Definition get : M St := fun s => Val s s.
Definition modify (f : St -> St) : M unit := fun s => Val tt (f s).
Definition try_catch {A} (m : M A) (h : Error -> M A) : M A :=
  fun s => match m s with
           | Throw e s' => h e s'
           | r => r
           end.

Declare Scope eng_scope.
Delimit Scope eng_scope with eng.
Notation "x <- m ;; k" := (bind m (fun x => k))
  (at level 100, m at next level, right associativity) : eng_scope.
Notation "m ;; k" := (bind m (fun _ => k))
  (at level 100, right associativity) : eng_scope.
Local Open Scope eng_scope.

Fixpoint repeatM (n : nat) (m : M unit) : M unit :=
  match n with
  | O => ret tt
  | S n' => m ;; repeatM n' m
  end.

(** *** Host primitives *)

Definition nextTick (t : Task) : M unit :=
  modify (with_ticks (fun l => l ++ [t])).
Definition queueMicrotask (t : Task) : M unit :=
  modify (with_micros (fun l => l ++ [t])).
Definition emit (who : option PluginId) (event : string) : M unit :=
  modify (with_trace (fun l => l ++ [EvEmit who event])).
Definition log (ev : Event) : M unit :=
  modify (with_trace (fun l => l ++ [ev])).

Definition setTimeout (t : Task) (ms : nat) : M TimerId :=
  fun s =>
    let id := next_timer s in
    Val id (MkSt (avvio s) (plugins s) (promises s) (cells s) (ticks s)
                 (micros s) (timers s ++ [MkTimer id (now s + ms) t])
                 (S id) (now s) (trace s)).
Definition clearTimeout (id : TimerId) : M unit :=
  modify (with_timers (List.filter (fun t => negb (tm_id t =? id)%nat))).

(** *** The heap *)

Definition the_avvio : M Avvio := fun s => Val (avvio s) s.
Definition update_avvio (f : Avvio -> Avvio) : M unit := modify (with_avvio f).

Definition get_plugin (p : PluginId) : M Plugin :=
  fun s => match plugins s !! p with
           | Some pl => Val pl s
           | None => Throw (TypeError "not a plugin") s
           end.
Definition update_plugin (p : PluginId) (f : Plugin -> Plugin) : M unit :=
  modify (with_plugins (fun l => match l !! p with
                                 | Some pl => <[p := f pl]> l
                                 | None => l
                                 end)).
Definition alloc_plugin (pl : Plugin) : M PluginId :=
  fun s => Val (List.length (plugins s)) (with_plugins (fun l => l ++ [pl]) s).

Definition get_q (q : QId) : M Queue :=
  match q with
  | QPlugin p => pl <- get_plugin p ;; ret (pl_q pl)
  | QReady => a <- the_avvio ;; ret (av_readyQ a)
  | QClose => a <- the_avvio ;; ret (av_closeQ a)
  end.
Definition update_q (q : QId) (f : Queue -> Queue) : M unit :=
  match q with
  | QPlugin p => update_plugin p (fun pl => set_pl_q (f (pl_q pl)) pl)
  | QReady => update_avvio (fun a => set_readyQ (f (av_readyQ a)) a)
  | QClose => update_avvio (fun a => set_closeQ (f (av_closeQ a)) a)
  end.

(** *** Promises ([lib/promise.js] and the host's [Promise]) *)

(** createPromise(): a pending promise with its resolve/reject handles. *)
Definition createPromise : M PromiseId :=
  fun s => Val (List.length (promises s))
               (with_promises (fun l => l ++ [Pending []]) s).

(** Promise.resolve() *)
Definition Promise_resolve : M PromiseId :=
  fun s => Val (List.length (promises s))
               (with_promises (fun l => l ++ [Fulfilled]) s).

Definition promise_state (pr : PromiseId) : M PromiseState :=
  fun s => match promises s !! pr with
           | Some st => Val st s
           | None => Throw (TypeError "not a promise") s
           end.

(** The reactions of a promise that settles are queued as microtasks. *)
Definition queueReactions (l : list Task) : M unit :=
  modify (with_micros (fun m => m ++ l)).

(** promise.resolve(): a settled promise ignores it. *)
Definition resolve (pr : PromiseId) : M unit :=
  st <- promise_state pr ;;
  match st with
  | Pending rs =>
      modify (with_promises (<[pr := Fulfilled]>)) ;;
      log (EvSettle pr None) ;;
      queueReactions (map fst rs)
  | _ => ret tt
  end.

(** promise.reject(e) *)
Definition reject (pr : PromiseId) (e : Error) : M unit :=
  st <- promise_state pr ;;
  match st with
  | Pending rs =>
      modify (with_promises (<[pr := Rejected e]>)) ;;
      log (EvSettle pr (Some e)) ;;
      queueReactions (map (fun r => snd r e) rs)
  | _ => ret tt
  end.

(** promise.then(onFulfilled, onRejected) *)
Definition then_ (pr : PromiseId) (ok : Task) (ko : Error -> Task) : M unit :=
  st <- promise_state pr ;;
  match st with
  | Pending rs => modify (with_promises (<[pr := Pending (rs ++ [(ok, ko)])]>))
  | Fulfilled => queueMicrotask ok
  | Rejected e => queueMicrotask (ko e)
  end.

(** What a call returned to engine code that tests it for a [then]. *)
Definition then_ret (r : Ret) (ok : Task) (ko : Error -> Task) : M unit :=
  match r with
  | RetUndefined => ret tt
  | RetResolved => queueMicrotask ok
  | RetRejected e => queueMicrotask (ko (UserError e))
  | RetPending => ret tt
  end.
Definition is_thenable (r : Ret) : bool :=
  match r with RetUndefined => false | _ => true end.

(** ** The engine

    Calls through a closure value (a callback or a function held in a
    queue) go through [call_cont] and [call_func]; [engine] below ties the
    knot by recursion on the fuel. *)

Record Calls : Type := MkCalls {
  calls_cont : Cont -> option Error -> M unit;      (* callback(err) *)
  calls_func : Func -> list Arg -> option Cont -> M Ret;   (* func(...args) *)
  calls_fuel : nat
}.

Section Engine.

Variable E : Calls.
Abbreviation call_cont := (calls_cont E).
Abbreviation call_func := (calls_func E).
Abbreviation fuel := (calls_fuel E).

(** *** [lib/thenable.js] *)

Definition executeWithThenable (func : Func) (args : list Arg) (callback : Cont)
  : M unit :=
  result <- call_func func args None ;;
  if is_thenable result then
    then_ret result (TNextTick (TCall callback None))
                    (fun error => TNextTick (TCall callback (Some error)))
  else
    nextTick (TCall callback None).

(** *** [boot.js]: the workers of the ready and close queues *)

Definition alloc_cell : M nat :=
  fun s => Val (List.length (cells s)) (with_cells (fun l => l ++ [None]) s).

Definition setupTimeout (func : Func) (rootError : option Error) (context : nat)
    (callback : Cont) : M unit :=
  a <- the_avvio ;;
  cell <- alloc_cell ;;
  timer <- setTimeout (TReadyTimeout cell func callback) (av_timeout a) ;;
  modify (with_cells (<[cell := Some timer]>)) ;;
  (if (func_length func =? 2)%nat then
     call_func func [AErr rootError; ACallback]
               (Some (KTimeoutCallback cell callback))
   else
     call_func func [AErr rootError; ACtx context; ACallback]
               (Some (KTimeoutCallback cell callback))) ;;
  ret tt.

(** The arrow handed to setTimeout by [setupTimeout]. *)
Definition readyTimeout (cell : nat) (func : Func) (callback : Cont) : M unit :=
  modify (with_cells (<[cell := None]>)) ;;
  let toutError := AVV_ERR_READY_TIMEOUT (func_name func) func in
  update_avvio (set_error (Some toutError)) ;;
  call_cont callback (Some toutError).

Definition timeoutCallback (cell : nat) (callback : Cont) (error : option Error)
  : M unit :=
  s <- get ;;
  match cells s !! cell with
  | Some (Some timer) =>
      clearTimeout timer ;;
      update_avvio (set_error error) ;;
      call_cont callback error
  | _ => ret tt
  end.

Definition callWithCallbackOrNextTick (func : Func) (callback : Cont) : M unit :=
  a <- the_avvio ;;
  let context := av_instance a in
  let error := av_error a in
  update_avvio (set_error None) ;;
  if (func_length func =? 0)%nat then
    update_avvio (set_error error) ;;
    executeWithThenable func [] callback
  else if (func_length func =? 1)%nat then
    executeWithThenable func [AErr error] callback
  else if (av_timeout a =? 0)%nat then
    (if (func_length func =? 2)%nat then
       call_func func [AErr error; ACallback] (Some callback)
     else
       call_func func [AErr error; ACtx context; ACallback] (Some callback)) ;;
    ret tt
  else
    setupTimeout func error context callback.

Definition closeWithCallbackOrNextTick (func : Func) (isOnCloseHandler : bool)
    (callback : Cont) : M unit :=
  a <- the_avvio ;;
  let context := av_instance a in
  if ((func_length func =? 0) || (func_length func =? 1))%nat then
    promise <- (if isOnCloseHandler then call_func func [ACtx context] None
                else call_func func [AErr (av_error a)] None) ;;
    if is_thenable promise then
      then_ret promise (TNextTick (TCall callback None))
                       (fun e => TNextTick (TCall callback (Some e)))
    else
      nextTick (TCall callback None)
  else if (func_length func =? 2)%nat then
    (if isOnCloseHandler then call_func func [ACtx context; ACallback] (Some callback)
     else call_func func [AErr (av_error a); ACallback] (Some callback)) ;;
    ret tt
  else
    (if isOnCloseHandler then call_func func [ACtx context; ACallback] (Some callback)
     else call_func func [AErr (av_error a); ACtx context; ACallback]
                    (Some callback)) ;;
    ret tt.

(** *** [lib/plugin.js]: the worker of a plugin's queue *)

Definition loadPluginNextTick (plugin : PluginId) (callback : Cont) : M unit :=
  nextTick (TLoadPlugin plugin callback).

(** The worker each queue was created with. *)
Definition worker (q : QId) (value : Item) (callback : Cont) : M unit :=
  match q, value with
  | QPlugin _, IPlugin plugin => loadPluginNextTick plugin callback
  | QReady, IFunc func _ => callWithCallbackOrNextTick func callback
  | QClose, IFunc func tag => closeWithCallbackOrNextTick func tag callback
  | _, _ => throw (TypeError "queue value")
  end.

(** The function currently assigned to [q.drain]. *)
Definition call_drain (q : QId) : M unit :=
  Q <- get_q q ;;
  match drain Q with
  | DNoop => ret tt
  | DReadyQ =>
      emit None "start" ;;
      update_q QReady (set_drain DNoop)
  | DCloseQ =>
      emit None "close" ;;
      update_q QReady (set_drain DNoop)
  | DFinish p callback =>
      update_q (QPlugin p) (set_drain DNoop) ;;
      queueMicrotask (TCheck p callback)
  end.

(** *** The fastq dependency

    Modelled from the spec: the queue library [fastq] (an external
    dependency, not part of this repository) at concurrency one: a FIFO
    of values with their callbacks, a paused flag, the count of in-flight
    workers and a drain hook raised when that count returns to zero with
    nothing queued. *)

Definition fastq_length (q : QId) : M nat :=
  Q <- get_q q ;; ret (List.length (items Q)).
Definition fastq_running (q : QId) : M Z :=
  Q <- get_q q ;; ret (running Q).
Definition fastq_pause (q : QId) : M unit :=
  update_q q (set_paused true).

Definition fastq_release (q : QId) : M unit :=
  Q <- get_q q ;;
  let finished :=
    update_q q (set_running (running Q - 1)) ;;
    if (running Q - 1 =? 0)%Z then call_drain q else ret tt in
  match items Q with
  | (value, callback) :: rest =>
      if (running Q <=? 1)%Z then
        if negb (paused Q) then
          update_q q (set_items rest) ;;
          worker q value (KWorked q callback)
        else
          update_q q (set_running (running Q - 1))
      else finished
  | [] => finished
  end.

Fixpoint fastq_resume_loop (n : nat) (q : QId) : M unit :=
  Q <- get_q q ;;
  match items Q with
  | [] => ret tt
  | _ :: _ =>
      if (running Q <? 1)%Z then
        match n with
        | O => fun _ => OutOfFuel
        | S n' =>
            update_q q (set_running (running Q + 1)) ;;
            fastq_release q ;;
            fastq_resume_loop n' q
        end
      else ret tt
  end.

Definition fastq_resume (q : QId) : M unit :=
  Q <- get_q q ;;
  if negb (paused Q) then ret tt
  else
    update_q q (set_paused false) ;;
    match items Q with
    | [] =>
        update_q q (set_running (running Q + 1)) ;;
        fastq_release q
    | _ :: _ => fastq_resume_loop fuel q
    end.

Definition fastq_push (q : QId) (value : Item) (done : Cont) : M unit :=
  Q <- get_q q ;;
  if (1 <=? running Q)%Z || paused Q then
    update_q q (set_items (items Q ++ [(value, done)]))
  else
    update_q q (set_running (running Q + 1)) ;;
    worker q value (KWorked q done).

Definition fastq_unshift (q : QId) (value : Item) (done : Cont) : M unit :=
  Q <- get_q q ;;
  if (1 <=? running Q)%Z || paused Q then
    update_q q (set_items ((value, done) :: items Q))
  else
    update_q q (set_running (running Q + 1)) ;;
    worker q value (KWorked q done).

(** task.worked *)
Definition fastq_worked (q : QId) (callback : Cont) (err : option Error) : M unit :=
  call_cont callback err ;;
  fastq_release q.

(** [lib/queue.js] *)
Definition createQueue (drain : Drain) : Queue :=
  MkQueue true 0 [] drain.

(** *** [lib/plugin.js] *)

(** getName: the explicit metadata and the options' name are not modelled,
    the plugin is called by its function's name. *)
Definition getName (func : Func) : string := func_name func.

(** The Plugin constructor; [timeout] is [None] when the argument is left
    undefined. *)
Definition new_Plugin (parent : Avvio) (func : Func) (isAfter : bool)
    (timeout : option nat) : Plugin :=
  {| pl_started := false;
     pl_func := func;
     pl_timeout := match timeout with None => av_timeout parent | Some t => t end;
     pl_name := getName func;
     pl_isAfter := isAfter;
     pl_q := MkQueue true 0 [] DNoop;   (* FastQ(...); this.q.pause() *)
     pl_error := None;
     pl_loaded := false;
     pl_promise := None;
     pl_server := None;
     pl_setup_listeners := 0;
     pl_completed := false;
     pl_timer := None |}.

Definition enqueue (p : PluginId) (obj : PluginId) (callback : Cont) : M unit :=
  emit (Some p) "enqueue" ;;
  fastq_push (QPlugin p) (IPlugin obj) callback.

Definition validatePluginFunction (plugin : option Func) : M Func :=
  match plugin with
  | Some f => ret f
  | None => throw AVV_ERR_PLUGIN_NOT_VALID
  end.

(** [boot.js]: Avvio.prototype._addPlugin *)
Definition _addPlugin (func : option Func) (isAfter : bool) : M PluginId :=
  func <- validatePluginFunction func ;;
  a <- the_avvio ;;
  if av_booted a then throw AVV_ERR_ROOT_PLG_BOOTED
  else
    let current := head (av_current a) in
    plugin <- alloc_plugin (new_Plugin a func isAfter None) ;;
    match current with
    | None => throw (TypeError "Cannot read properties of undefined")
    | Some current =>
        cur <- get_plugin current ;;
        if pl_loaded cur then throw (PlainError (getName func))
        else
          enqueue current plugin KAddPlugin ;;
          ret plugin
    end.

(** loadedSoFar: const setup = () => { this.server.after(...); this.q.resume() }.
    [this.server.after] with a function registers [_after.bind] around it. *)
Definition setup (p : PluginId) : M unit :=
  _addPlugin (Some (FAfter (FLoadedSoFar p))) true ;;
  fastq_resume (QPlugin p).

(** The arrow [setup] registers: (err, callback) => { ... } *)
Definition loadedSoFar_after (p : PluginId) (err : option Error) (callback : Cont)
  : M unit :=
  update_plugin p (set_pl_error err) ;;
  fastq_pause (QPlugin p) ;;
  pl <- get_plugin p ;;
  match pl_promise pl with
  | None => throw (TypeError "Cannot read properties of null")
  | Some pr =>
      match err with
      | Some e => reject pr e
      | None => resolve pr
      end ;;
      update_plugin p (set_pl_promise None) ;;
      nextTick (TCall callback err)
  end.

Definition loadedSoFar (p : PluginId) : M PromiseId :=
  pl <- get_plugin p ;;
  if pl_loaded pl then Promise_resolve
  else
    match pl_promise pl with
    | None =>
        pr <- createPromise ;;
        update_plugin p (set_pl_promise (Some pr)) ;;
        match pl_server pl with
        | None =>
            update_plugin p
              (fun x => set_pl_setup_listeners (S (pl_setup_listeners x)) x)
        | Some _ => setup p
        end ;;
        ret pr
    | Some _ => Promise_resolve
    end.

(** exec: const done = (err) => { ... } *)
Definition exec_done (p : PluginId) (callback : Cont) (err : option Error)
  : M unit :=
  pl <- get_plugin p ;;
  if pl_completed pl then ret tt
  else
    update_plugin p (set_pl_error err) ;;
    update_plugin p (set_pl_completed true) ;;
    match pl_timer pl with
    | Some timer => clearTimeout timer
    | None => ret tt
    end ;;
    call_cont callback err.

(** exec: the arrow handed to setTimeout *)
Definition exec_timeout (p : PluginId) (callback : Cont) : M unit :=
  update_plugin p (set_pl_timer None) ;;
  pl <- get_plugin p ;;
  let err := AVV_ERR_READY_TIMEOUT (pl_name pl) (pl_func pl) in
  exec_done p callback (Some err).

Definition exec (p : PluginId) (server : nat) (callback : Cont) : M unit :=
  pl <- get_plugin p ;;
  a <- the_avvio ;;
  if is_Some_b (av_error a) && negb (pl_isAfter pl) then
    nextTick (TCall callback None)
  else
    match (if negb (pl_isAfter pl) then av_override a server (pl_func pl)
           else inr server) with
    | inl err => call_cont callback (Some err)
    | inr srv =>
        update_plugin p (set_pl_server (Some srv)) ;;
        (if (0 <? pl_timeout pl)%nat then
           timer <- setTimeout (TExecTimeout p callback) (pl_timeout pl) ;;
           update_plugin p (set_pl_timer (Some timer))
         else ret tt) ;;
        update_plugin p (set_pl_started true) ;;
        emit (Some p) "start" ;;
        repeatM (pl_setup_listeners pl) (setup p) ;;
        promise <- call_func (pl_func pl) [ACtx srv; AOptions; ACallback]
                             (Some (KExecDone p callback)) ;;
        then_ret promise
          (TNextTick (TCall (KExecDone p callback) None))
          (fun e => TNextTick (TCall (KExecDone p callback) (Some e)))
    end.

(** finish: const done = () => { ... } *)
Definition finish_done (p : PluginId) (err : option Error) (callback : Cont)
  : M unit :=
  pl <- get_plugin p ;;
  if pl_loaded pl then ret tt
  else
    emit (Some p) "loaded" ;;
    update_plugin p (set_pl_loaded true) ;;
    call_cont callback err.

(** finish: const check = () => { ... } *)
Definition check (p : PluginId) (callback : Cont) : M unit :=
  len <- fastq_length (QPlugin p) ;;
  run <- fastq_running (QPlugin p) ;;
  if (len =? 0)%nat && (run =? 0)%Z then
    pl <- get_plugin p ;;
    match pl_promise pl with
    | Some pr =>
        resolve pr ;;
        then_ pr (TWrap p callback) (fun _ => TWrap p callback) ;;
        update_plugin p (set_pl_promise None)
    | None => finish_done p None callback
    end
  else
    update_q (QPlugin p) (set_drain (DFinish p callback)).

(** finish: const wrap = () => { queueMicrotask(check) } *)
Definition wrap (p : PluginId) (callback : Cont) : M unit :=
  queueMicrotask (TCheck p callback).

Definition finish (p : PluginId) (err : option Error) (callback : Cont) : M unit :=
  log (EvDebug "finish" p) ;;
  match err with
  | Some e =>
      pl <- get_plugin p ;;
      match pl_promise pl with
      | Some pr =>
          reject pr e ;;
          update_plugin p (set_pl_promise None)
      | None => ret tt
      end ;;
      finish_done p err callback
  | None =>
      queueMicrotask (TCheck p callback) ;;
      fastq_resume (QPlugin p)
  end.

(** loadPlugin; a plugin given as a promise of a function is not modelled. *)
Definition loadPlugin (plugin : PluginId) (callback : Cont) : M unit :=
  a <- the_avvio ;;
  s <- get ;;
  let last := head (av_current a) in
  update_avvio (set_current (plugin :: av_current a)) ;;
  let server :=
    match last with
    | Some l => match plugins s !! l with
                | Some lp => match pl_server lp with
                             | Some srv => srv
                             | None => av_instance a
                             end
                | None => av_instance a
                end
    | None => av_instance a
    end in
  exec plugin server (KLoadExec plugin callback).

(** loadPlugin: (err) => { this._current.shift(); callback(err) } *)
Definition loadPlugin_finished (callback : Cont) (err : option Error) : M unit :=
  update_avvio (fun a => set_current (tail (av_current a)) a) ;;
  call_cont callback err.

(** *** [boot.js]: the orchestrator's API *)

Definition start : M unit :=
  update_avvio (set_started true) ;;
  a <- the_avvio ;;
  match av_doStart a with
  | Some doStart => nextTick (TCall doStart None)
  | None => throw (TypeError "callback must be a function")
  end.

(** [this._lastUsed] is write-only and left out. *)
Definition use (plugin : option Func) : M unit :=
  _addPlugin plugin false ;; ret tt.

Definition _loadRegistered : M PromiseId :=
  a <- the_avvio ;;
  let plugin := head (av_current a) in
  let weNeedToStart := negb (av_started a) && negb (av_booted a) in
  (if weNeedToStart then nextTick TResumeRoot else ret tt) ;;
  match plugin with
  | None => Promise_resolve
  | Some plugin => loadedSoFar plugin
  end.

(** after(func): [Some] promise when called without a function. *)
Definition after (func : option Func) : M (option PromiseId) :=
  match func with
  | None => pr <- _loadRegistered ;; ret (Some pr)
  | Some func => _addPlugin (Some (FAfter func)) true ;; ret None
  end.

Definition onClose (func : Func) : M unit :=
  fastq_unshift QClose (IFunc func true) KOnClose.

(** onClose: function callback (error) { if (error) this._error = error };
    the callback [_addPlugin] enqueues with is the same function. *)
Definition record_error (error : option Error) : M unit :=
  match error with
  | Some e => update_avvio (set_error (Some e))
  | None => ret tt
  end.

(** Without a function: the executor of the new promise runs at once, and
    what it throws rejects the promise. [cell] is the executor's
    const relativeContext, which readyPromiseCB reads; it is initialised
    last. *)
Definition ready (func : option Func) : M (option PromiseId) :=
  match func with
  | Some func =>
      fastq_push QReady (IFunc func false) KNoop ;;
      queueMicrotask TStart ;;
      ret None
  | None =>
      pr <- createPromise ;;
      cell <- alloc_cell ;;
      try_catch
        (fastq_push QReady (IFunc (FReadyPromise pr cell) false) KNoop ;;
         start ;;
         a <- the_avvio ;;
         match head (av_current a) with
         | None => throw (TypeError "Cannot read properties of undefined")
         | Some current =>
             cur <- get_plugin current ;;
             modify (with_cells (<[cell := Some (default 0 (pl_server cur))]>))
         end)
        (fun error => reject pr error) ;;
      ret (Some pr)
  end.

Definition close (func : option Func) : M (option PromiseId) :=
  match func with
  | Some func =>
      ready (Some (FCloseReady func)) ;;
      ret None
  | None =>
      pr <- createPromise ;;
      ready (Some (FCloseReady (FClosePromise pr))) ;;
      ret (Some pr)
  end.

(** function root (context, options, done) *)
Definition root (done : option Cont) : M unit :=
  update_avvio (set_doStart done) ;;
  a <- the_avvio ;;
  if av_autostart a then start else ret tt.

(** The callback the constructor hands to [loadPlugin] for the root. *)
Definition root_loaded (error : option Error) : M unit :=
  a <- the_avvio ;;
  emit None "preReady" ;;
  error <- match av_preReady a with
           | None => update_avvio (set_root None) ;; ret error
           | Some prereadyError =>
               ret (match error, av_error a with
                    | Some e, _ => Some e
                    | None, Some e => Some e
                    | None, None => Some prereadyError
                    end)
           end ;;
  match error with
  | Some e =>
      update_avvio (set_error (Some e)) ;;
      len <- fastq_length QReady ;;
      if (len =? 0)%nat then throw e else fastq_resume QReady
  | None =>
      update_avvio (set_booted true) ;;
      fastq_resume QReady
  end.

(** *** Calling a function value *)

Definition arg_err (args : list Arg) : option Error :=
  match args with
  | AErr e :: _ => e
  | _ => None
  end.

Definition run_act (a : Act) (done : option Cont) : M unit :=
  match a with
  | ActUse plugin => use (Some (FUser plugin))
  | ActUseInvalid => use None
  | ActAfter func => after (Some (FUser func)) ;; ret tt
  | ActLoadedSoFar k =>
      r <- after None ;;
      match r with
      | Some pr => then_ pr (TUser k done) (fun _ => TUser [] None)
      | None => ret tt
      end
  | ActReady func => ready (Some (FUser func)) ;; ret tt
  | ActReadyPromise => ready None ;; ret tt
  | ActOnClose func => onClose (FUser func)
  | ActClose func => close (Some (FUser func)) ;; ret tt
  | ActStart => start
  | ActDone e =>
      match done with
      | Some d => call_cont d (user_err e)
      | None => throw (TypeError "done is not a function")
      end
  | ActTickDone e =>
      match done with
      | Some d => nextTick (TCall d (user_err e))
      | None => throw (TypeError "callback must be a function")
      end
  | ActTimerDone ms e =>
      match done with
      | Some d => setTimeout (TCall d (user_err e)) ms ;; ret tt
      | None => throw (TypeError "callback must be a function")
      end
  | ActThrow e => throw (UserError e)
  end.

Fixpoint run_acts (acts : list Act) (done : option Cont) : M unit :=
  match acts with
  | [] => ret tt
  | a :: rest => run_act a done ;; run_acts rest done
  end.

(** func(...args), [done] being the callback among the arguments. *)
Definition invoke (func : Func) (args : list Arg) (done : option Cont) : M Ret :=
  match func with
  | FUser f =>
      log (EvInvoke func args) ;;
      run_acts (fn_body f) done ;;
      ret (fn_ret f)
  | FRoot => root done ;; ret RetUndefined
  | FAfter func' =>
      (* function _after (s, options, done) *)
      match done with
      | Some d => callWithCallbackOrNextTick func' d
      | None => throw (TypeError "done")
      end ;;
      ret RetUndefined
  | FCloseReady func' =>
      update_avvio (set_error None) ;;
      fastq_push QClose (IFunc func' false) KNoop ;;
      nextTick (TResume QClose) ;;
      ret RetUndefined
  | FClosePromise pr =>
      match arg_err args with
      | Some e => reject pr e
      | None => resolve pr
      end ;;
      ret RetUndefined
  | FReadyPromise pr cell =>
      match arg_err args with
      | Some e => reject pr e
      | None =>
          s <- get ;;
          match cells s !! cell with
          | Some (Some _) => resolve pr
          | _ => throw (ReferenceError
                          "Cannot access 'relativeContext' before initialization")
          end
      end ;;
      match done with
      | Some d => nextTick (TCall d None)
      | None => throw (TypeError "callback must be a function")
      end ;;
      ret RetUndefined
  | FLoadedSoFar p =>
      match done with
      | Some d => loadedSoFar_after p (arg_err args) d
      | None => throw (TypeError "callback")
      end ;;
      ret RetUndefined
  end.

(** callback(err) *)
Definition apply_cont (k : Cont) (err : option Error) : M unit :=
  match k with
  | KNoop => ret tt
  | KWorked q callback => fastq_worked q callback err
  | KExecDone p callback => exec_done p callback err
  | KLoadExec p callback => finish p err (KLoadFinish callback)
  | KLoadFinish callback => loadPlugin_finished callback err
  | KRootLoaded => root_loaded err
  | KAddPlugin => record_error err
  | KOnClose => record_error err
  | KTimeoutCallback cell callback => timeoutCallback cell callback err
  end.

End Engine.

(** Synchronous call chains, cut off after [n] nested calls. *)
Fixpoint engine (n : nat) : Calls :=
  match n with
  | O => MkCalls (fun _ _ _ => OutOfFuel) (fun _ _ _ _ => OutOfFuel) 0
  | S n' => let E := engine n' in MkCalls (apply_cont E) (invoke E) n'
  end.

Lemma calls_cont_engine (n : nat) (k : Cont) (err : option Error) :
  calls_cont (engine (S n)) k err = apply_cont (engine n) k err.
Proof. reflexivity. Qed.

Lemma calls_func_engine (n : nat) (f : Func) (args : list Arg) (d : option Cont) :
  calls_func (engine (S n)) f args d = invoke (engine n) f args d.
Proof. reflexivity. Qed.

Lemma calls_cont_engine_eta (n : nat) :
  calls_cont (engine (S n)) = apply_cont (engine n).
Proof. reflexivity. Qed.

Lemma calls_func_engine_eta (n : nat) :
  calls_func (engine (S n)) = invoke (engine n).
Proof. reflexivity. Qed.

Lemma calls_fuel_engine (n : nat) : calls_fuel (engine (S n)) = n.
Proof. reflexivity. Qed.

#[global] Arguments engine : simpl never.

(** ** The event loop *)

(** Running one scheduled task. *)
Definition run_task (n : nat) (t : Task) : M unit :=
  let E := engine n in
  match t with
  | TCall k err => calls_cont E k err
  | TLoadPlugin p callback => loadPlugin E p callback
  | TNextTick t' => nextTick t'
  | TCheck p callback => check E p callback
  | TWrap p callback => wrap p callback
  | TResume q => fastq_resume E q
  | TResumeRoot =>
      a <- the_avvio ;;
      match av_root a with
      | Some r => fastq_resume E (QPlugin r)
      | None => throw (TypeError "Cannot read properties of null")
      end
  | TStart => start
  | TUser acts done => run_acts E acts done
  | TExecTimeout p callback => exec_timeout E p callback
  | TReadyTimeout cell func callback => readyTimeout E cell func callback
  end.

(** The host drains the nextTick queue, then the microtask queue, and
    repeats; a timer fires only when both are empty. *)
Inductive Phase : Type := Ticks | Micros.

Inductive Outcome : Type :=
| Quiet (s : St)                        (* nothing left to run *)
| Busy (ph : Phase) (s : St)            (* stopped with work left *)
| Crashed (e : Error) (s : St)          (* uncaught exception *)
| Exhausted.                            (* a call chain ran out of fuel *)

(** The timer that fires next: the earliest deadline, oldest first. *)
Fixpoint next_due (ts : list Timer) : option Timer :=
  match ts with
  | [] => None
  | t :: rest =>
      match next_due rest with
      | Some t' => if (tm_at t' <? tm_at t)%nat then Some t' else Some t
      | None => Some t
      end
  end.

Definition after_task (ph : Phase) (r : Res unit) : Outcome :=
  match r with
  | Val _ s => Busy ph s
  | Throw e s => Crashed e (with_trace (fun l => l ++ [EvUncaught e]) s)
  | OutOfFuel => Exhausted
  end.

Definition step (n : nat) (ph : Phase) (s : St) : Outcome :=
  match ph with
  | Ticks =>
      match ticks s with
      | t :: rest => after_task Ticks (run_task n t (with_ticks (fun _ => rest) s))
      | [] =>
          match micros s with
          | _ :: _ => Busy Micros s
          | [] =>
              match next_due (timers s) with
              | Some tm =>
                  let s' := MkSt (avvio s) (plugins s) (promises s) (cells s) []
                              [] (List.filter (fun t => negb (tm_id t =? tm_id tm)%nat)
                                         (timers s))
                              (next_timer s) (Nat.max (now s) (tm_at tm)) (trace s) in
                  after_task Ticks (run_task n (tm_task tm) s')
              | None => Quiet s
              end
          end
      end
  | Micros =>
      match micros s with
      | t :: rest => after_task Micros (run_task n t (with_micros (fun _ => rest) s))
      | [] => Busy Ticks s
      end
  end.

Fixpoint loop (steps n : nat) (ph : Phase) (s : St) : Outcome :=
  match steps with
  | O => Busy ph s
  | S k =>
      match step n ph s with
      | Busy ph' s' => loop k n ph' s'
      | o => o
      end
  end.

(** ** Construction *)

Record Options : Type := MkOptions {
  opt_timeout : nat;
  opt_autostart : bool;
  opt_override : nat -> Func -> Error + nat;
  opt_preReady : option Error
}.

(** Avvio.prototype.override *)
Definition override (instance : nat) (func : Func) : Error + nat := inr instance.

Definition default_options : Options := MkOptions 0 true override None.

(** The constructor, up to the creation of the root plugin. *)
Definition init (o : Options) : St :=
  let a := {| av_timeout := opt_timeout o;
              av_instance := 0;
              av_current := [];
              av_doStart := None;
              av_error := None;
              av_started := false;
              av_booted := false;
              av_readyQ := createQueue DReadyQ;
              av_closeQ := createQueue DCloseQ;
              av_root := Some 0;
              av_autostart := opt_autostart o;
              av_override := opt_override o;
              av_preReady := opt_preReady o |} in
  {| avvio := a;
     plugins := [new_Plugin a FRoot false (Some 0)];
     promises := [];
     cells := [];
     ticks := [];
     micros := [];
     timers := [];
     next_timer := 0;
     now := 0;
     trace := [] |}.

(** [new Avvio(options)] followed by the host's main script [main]. *)
Definition boot (n : nat) (o : Options) (main : list Act) : Res unit :=
  (loadPlugin (engine n) 0 KRootLoaded ;;
   run_acts (engine n) main None) (init o).

(** The whole program, given [steps] turns of the event loop. *)
Definition program (steps n : nat) (o : Options) (main : list Act) : Outcome :=
  match after_task Ticks (boot n o main) with
  | Busy ph s => loop steps n ph s
  | r => r
  end.

Definition outcome_trace (r : Outcome) : list Event :=
  match r with
  | Quiet s | Busy _ s | Crashed _ s => trace s
  | Exhausted => []
  end.

(** The user-visible part of a trace: calls into user functions. *)
Definition invoked (l : list Event) : list string :=
  omap (fun ev => match ev with
                  | EvInvoke f _ => Some (func_name f)
                  | _ => None
                  end) l.

(** The store once a program has gone quiet (the initial store if it has
    not). *)
Definition final (steps n : nat) (o : Options) (main : list Act) : St :=
  match program steps n o main with
  | Quiet s => s
  | _ => init o
  end.

(** * Properties *)

(** ** Registration ([_addPlugin]) *)

Section Registration.

Variable E : Calls.

Lemma addPlugin_invalid (isAfter : bool) (s : St) :
  _addPlugin E None isAfter s = Throw AVV_ERR_PLUGIN_NOT_VALID s.
Proof. reflexivity. Qed.

Lemma addPlugin_booted (f : Func) (isAfter : bool) (s : St) :
  av_booted (avvio s) = true ->
  _addPlugin E (Some f) isAfter s = Throw AVV_ERR_ROOT_PLG_BOOTED s.
Proof.
  intros Hb. unfold _addPlugin, bind, validatePluginFunction, ret, the_avvio.
  now rewrite Hb.
Qed.

Lemma addPlugin_parent_loaded (f : Func) (isAfter : bool) (s : St)
    (c : PluginId) (rest : list PluginId) (cur : Plugin) :
  av_booted (avvio s) = false ->
  av_current (avvio s) = c :: rest ->
  plugins s !! c = Some cur ->
  pl_loaded cur = true ->
  _addPlugin E (Some f) isAfter s =
    Throw (PlainError (getName f))
          (with_plugins (fun l => l ++ [new_Plugin (avvio s) f isAfter None]) s).
Proof.
  intros Hb Hc Hl Hld.
  unfold _addPlugin, bind, validatePluginFunction, ret, the_avvio, alloc_plugin,
    get_plugin.
  rewrite Hb, Hc. cbn.
  rewrite lookup_app_l by (eapply lookup_lt_Some; eauto).
  rewrite Hl. now rewrite Hld.
Qed.

End Registration.

(** A store in which the orchestrator has booted: no plugin, default
    options. *)
Definition booted_store : St := final 20 20 default_options [].

(** The registration target is closed: the orchestrator has booted, or
    the current unit is already loaded. *)
Definition closed_for_registration (s : St) : Prop :=
  av_booted (avvio s) = true \/
  exists c rest cur,
    av_current (avvio s) = c :: rest /\ plugins s !! c = Some cur /\
    pl_loaded cur = true.

(** The failure [_addPlugin] raises on a closed target. *)
Definition registration_failure (s : St) (func : option Func) : Error :=
  match func with
  | None => AVV_ERR_PLUGIN_NOT_VALID
  | Some f => if av_booted (avvio s) then AVV_ERR_ROOT_PLG_BOOTED
              else PlainError (getName f)
  end.

(** Nothing was enqueued between [s] and [s']: the orchestrator, every
    existing plugin (with its queue) and the pending ticks are the same. *)
Definition nothing_enqueued (s s' : St) : Prop :=
  avvio s' = avvio s /\ ticks s' = ticks s /\ micros s' = micros s /\
  forall p pl, plugins s !! p = Some pl -> plugins s' !! p = Some pl.

(** C7, as stated, fails: after boot, [use] with an argument that is not a
    function raises the plugin-not-valid failure, not "root already
    booted" (the argument is validated before the booted flag is read). *)
Lemma C7_invalid_plugin_after_boot :
  av_booted (avvio booted_store) = true /\
  use (engine 5) None booted_store =
    Throw AVV_ERR_PLUGIN_NOT_VALID booted_store /\
  forall s', use (engine 5) None booted_store <> Throw AVV_ERR_ROOT_PLG_BOOTED s'.
Proof.
  split; [reflexivity|]. split; [reflexivity|].
  intros s' H. discriminate H.
Qed.

(** C7, amended: a registration (use/after) on a closed target raises
    synchronously and enqueues nothing; the failure is "root already
    booted" when the orchestrator has booted and the plugin argument is a
    function, an error naming the plugin when only the current unit is
    loaded, and plugin-not-valid whenever the argument is not a function. *)
Theorem C7_registration_fails_fast
    (E : Calls) (func : option Func) (isAfter : bool) (s : St) :
  closed_for_registration s ->
  exists s',
    _addPlugin E func isAfter s = Throw (registration_failure s func) s' /\
    nothing_enqueued s s'.
Proof.
  intros Hclosed. destruct func as [f|].
  2:{ exists s. rewrite addPlugin_invalid. repeat split; auto. }
  unfold registration_failure. destruct (av_booted (avvio s)) eqn:Hb.
  - exists s. rewrite addPlugin_booted by assumption. repeat split; auto.
  - destruct Hclosed as [Hc|(c & rest & cur & Hc & Hl & Hld)]; [congruence|].
    eexists. erewrite addPlugin_parent_loaded by eassumption.
    split; [reflexivity|]. repeat split; auto.
    intros p pl Hp. cbn. rewrite lookup_app_l; [assumption|].
    eapply lookup_lt_Some; eauto.
Qed.

Lemma C7_registration_fails_fast_witness :
  exists s',
    _addPlugin (engine 5) (Some (FUser (MkFn "late" 3 [] RetUndefined))) false
               booted_store = Throw AVV_ERR_ROOT_PLG_BOOTED s' /\
    nothing_enqueued booted_store s'.
Proof.
  apply (C7_registration_fails_fast (engine 5)
           (Some (FUser (MkFn "late" 3 [] RetUndefined))) false booted_store).
  left. reflexivity.
Defined.

(** ** The root's completion ([root_loaded]) *)

(** The store after the root callback has run its 'preReady' step and
    stored [e] as the ambient error. *)
Definition root_failed (e : Error) (s : St) : St :=
  with_avvio
    (fun a => set_error (Some e)
                (match av_preReady a with
                 | None => set_root None a
                 | Some _ => a
                 end))
    (with_trace (fun l => l ++ [EvEmit None "preReady"]) s).

Lemma root_failed_error (e : Error) (s : St) :
  av_error (avvio (root_failed e s)) = Some e /\
  av_booted (avvio (root_failed e s)) = av_booted (avvio s) /\
  av_readyQ (avvio (root_failed e s)) = av_readyQ (avvio s).
Proof.
  unfold root_failed. destruct s as [a ? ? ? ? ? ? ? ? ?]; cbn.
  destruct (av_preReady a); cbn; auto.
Qed.


(** ** Partial completion ([loadedSoFar]) *)

(** C10: on a unit that is not loaded and whose partial-completion promise
    [pr] is still pending, [loadedSoFar] allocates a fresh promise that is
    already fulfilled and returns it: it is not [pr], nothing is
    registered or resumed, and [pr] stays the promise the unit tracks. *)
Theorem C10_second_caller_resolved
    (E : Calls) (p : PluginId) (pl : Plugin) (pr : PromiseId)
    (rs : list (Task * (Error -> Task))) (s : St) :
  plugins s !! p = Some pl ->
  pl_loaded pl = false ->
  pl_promise pl = Some pr ->
  promises s !! pr = Some (Pending rs) ->
  exists fresh s',
    loadedSoFar E p s = Val fresh s' /\
    fresh <> pr /\
    promises s' !! fresh = Some Fulfilled /\
    promises s' !! pr = Some (Pending rs) /\
    plugins s' = plugins s /\ avvio s' = avvio s /\
    ticks s' = ticks s /\ micros s' = micros s /\ trace s' = trace s.
Proof.
  intros Hp Hl Hpr Hpend.
  exists (List.length (promises s)),
         (with_promises (fun l => l ++ [Fulfilled]) s).
  assert (Hlt : pr < List.length (promises s)) by (eapply lookup_lt_Some; eauto).
  split.
  { unfold loadedSoFar, bind, get_plugin. rewrite Hp, Hl, Hpr. reflexivity. }
  split; [lia|]. cbn.
  split; [apply list_lookup_middle; reflexivity|].
  split; [rewrite lookup_app_l; assumption|].
  repeat split.
Qed.

(** ** The calling-convention normalizer ([callWithCallbackOrNextTick]) *)

(** The arguments the normalizer passes for a declared parameter count. *)
Definition normalized_args (len : nat) (error : option Error) (context : nat)
  : list Arg :=
  match len with
  | 0 => []
  | 1 => [AErr error]
  | 2 => [AErr error; ACallback]
  | _ => [AErr error; ACtx context; ACallback]
  end.

(** How completion is signalled for what a 0/1-parameter function
    returned: on the next tick, or once the returned promise settles. *)
Definition completion (r : Ret) (callback : Cont) (s : St) : St :=
  match r with
  | RetUndefined => with_ticks (fun l => l ++ [TCall callback None]) s
  | RetResolved =>
      with_micros (fun l => l ++ [TNextTick (TCall callback None)]) s
  | RetRejected e =>
      with_micros
        (fun l => l ++ [TNextTick (TCall callback (Some (UserError e)))]) s
  | RetPending => s
  end.

Lemma set_error_rearm (s : St) :
  with_avvio (set_error (av_error (avvio s))) (with_avvio (set_error None) s) = s.
Proof. destruct s as [[] ? ? ? ? ? ? ? ? ?]; reflexivity. Qed.

Lemma executeWithThenable_spec (E : Calls) (func : Func) (args : list Arg)
    (callback : Cont) (s : St) :
  executeWithThenable E func args callback s =
    match calls_func E func args None s with
    | Val r s' => Val tt (completion r callback s')
    | Throw e s' => Throw e s'
    | OutOfFuel => OutOfFuel
    end.
Proof.
  unfold executeWithThenable, bind.
  destruct (calls_func E func args None s) as [r s'|e s'|]; try reflexivity.
  destruct r; reflexivity.
Qed.

(** The dispatch on [func.length], for any function value. *)
Lemma callWithCallbackOrNextTick_dispatch (E : Calls) (func : Func)
    (callback : Cont) (s : St) :
  let error := av_error (avvio s) in
  let context := av_instance (avvio s) in
  let cleared := with_avvio (set_error None) s in
  let args := normalized_args (func_length func) error context in
  callWithCallbackOrNextTick E func callback s =
    match func_length func with
    | 0 => executeWithThenable E func args callback s
    | 1 => executeWithThenable E func args callback cleared
    | _ => if (av_timeout (avvio s) =? 0)%nat
           then (calls_func E func args (Some callback) ;; ret tt) cleared
           else setupTimeout E func error context callback cleared
    end.
Proof.
  cbv zeta. unfold callWithCallbackOrNextTick, bind at 1 2, the_avvio.
  destruct (func_length func) as [|[|[|n]]] eqn:Hlen; cbn [Nat.eqb normalized_args].
  - unfold update_avvio, modify, bind. now rewrite set_error_rearm.
  - reflexivity.
  - destruct s as [a ? ? ? ? ? ? ? ? ?]; cbn.
    destruct (av_timeout a =? 0)%nat; reflexivity.
  - destruct s as [a ? ? ? ? ? ? ? ? ?]; cbn.
    destruct (av_timeout a =? 0)%nat; reflexivity.
Qed.

(** The timeout guard is armed for functions that take a [done] callback
    when a global timeout is configured. *)
Definition guarded (len : nat) (s : St) : bool :=
  (2 <=? len)%nat && negb (av_timeout (avvio s) =? 0)%nat.

(** The store in which the normalizer enters a user function [f]. *)
Definition normalizer_entry (f : Fn) (callback : Cont) (s : St) : St :=
  let len := fn_length f in
  let error := av_error (avvio s) in
  let args := normalized_args len error (av_instance (avvio s)) in
  let armed := if (len =? 0)%nat then s else with_avvio (set_error None) s in
  let timed :=
    if guarded len s then
      MkSt (avvio armed) (plugins armed) (promises armed)
           (cells armed ++ [Some (next_timer armed)])
           (ticks armed) (micros armed)
           (timers armed ++
              [MkTimer (next_timer armed) (now armed + av_timeout (avvio s))
                 (TReadyTimeout (List.length (cells armed)) (FUser f) callback)])
           (S (next_timer armed)) (now armed) (trace armed)
    else armed in
  with_trace (fun l => l ++ [EvInvoke (FUser f) args]) timed.

(** The [done] the normalizer hands to a user function of [len] declared
    parameters: none, the callback, or the guard around it. *)
Definition normalizer_done (len : nat) (callback : Cont) (s : St) : option Cont :=
  if (len <=? 1)%nat then None
  else if guarded len s then Some (KTimeoutCallback (List.length (cells s)) callback)
  else Some callback.

Lemma insert_at_length {A} (l : list A) (x y : A) :
  <[List.length l := y]> (l ++ [x]) = l ++ [y].
Proof.
  rewrite insert_app_r_alt by lia. now rewrite Nat.sub_diag.
Qed.

(** C8: for a continuation [f] of 0, 1, 2 or 3 declared parameters the
    normalizer calls [f] with (), (error), (error, done) or
    (error, context, done); for 0 parameters the ambient error stays armed,
    otherwise it is cleared; a 0/1-parameter function completes on the
    next tick, or when the promise it returned settles. *)
Theorem C8_calling_conventions (n : nat) (f : Fn) (callback : Cont) (s : St) :
  callWithCallbackOrNextTick (engine (S n)) (FUser f) callback s =
    match run_acts (engine n) (fn_body f)
            (normalizer_done (fn_length f) callback s)
            (normalizer_entry f callback s) with
    | Val _ s' =>
        Val tt (if (fn_length f <=? 1)%nat
                then completion (fn_ret f) callback s' else s')
    | Throw e s' => Throw e s'
    | OutOfFuel => OutOfFuel
    end.
Proof.
  rewrite callWithCallbackOrNextTick_dispatch. cbv zeta.
  unfold normalizer_entry, normalizer_done, guarded. cbn [func_length].
  destruct (fn_length f) as [|[|len]] eqn:Hlen.
  - rewrite executeWithThenable_spec, calls_func_engine. cbn.
    unfold bind, log, modify, ret.
    destruct (run_acts _ _ _ _); reflexivity.
  - rewrite executeWithThenable_spec, calls_func_engine. cbn.
    unfold bind, log, modify, ret.
    destruct (run_acts _ _ _ _); reflexivity.
  - replace (S (S len) <=? 1)%nat with false by reflexivity.
    replace (2 <=? S (S len))%nat with true by reflexivity.
    destruct s as [a pls prs cs tk mi tms nt nw tr]. cbn.
    destruct (av_timeout a =? 0)%nat eqn:Ht; cbn.
    + unfold bind. rewrite calls_func_engine. cbn.
      unfold bind, log, modify, ret; cbn. rewrite ?Hlen.
      destruct (run_acts _ _ _ _); reflexivity.
    + unfold setupTimeout, bind, the_avvio, alloc_cell, setTimeout, modify,
        with_cells; cbn. rewrite insert_at_length. cbn [func_length].
      rewrite ?Hlen. destruct len as [|len]; cbn;
        rewrite calls_func_engine; cbn;
        unfold bind, log, modify, ret; cbn; rewrite ?Hlen;
        destruct (run_acts _ _ _ _); reflexivity.
Qed.

(** ** Settling a unit ([finish], [check]) *)

(** The children queue is drained: nothing queued, nothing in flight. *)
Definition drained (q : Queue) : bool :=
  (List.length (items q) =? 0)%nat && (running q =? 0)%Z.

(** The store in which [finish]'s [done] hands over to the callback. *)
Definition marked_loaded (p : PluginId) (pl : Plugin) (s : St) : St :=
  with_plugins (<[p := set_pl_loaded true pl]>)
    (with_trace (fun l => l ++ [EvEmit (Some p) "loaded"]) s).

Lemma update_plugin_at (p : PluginId) (pl : Plugin) (f : Plugin -> Plugin) (s : St) :
  plugins s !! p = Some pl ->
  update_plugin p f s = Val tt (with_plugins (<[p := f pl]>) s).
Proof.
  intros Hp. unfold update_plugin, modify, with_plugins. now rewrite Hp.
Qed.

Lemma check_not_drained (E : Calls) (p : PluginId) (callback : Cont)
    (pl : Plugin) (s : St) :
  plugins s !! p = Some pl ->
  drained (pl_q pl) = false ->
  check E p callback s =
    Val tt (with_plugins
              (<[p := set_pl_q (set_drain (DFinish p callback) (pl_q pl)) pl]>) s).
Proof.
  intros Hp Hd. unfold drained in Hd.
  unfold check, bind, fastq_length, fastq_running, get_q, bind, get_plugin, ret.
  repeat (rewrite ?Hp, ?Hd; cbv beta iota).
  unfold update_q. now rewrite (update_plugin_at p pl).
Qed.

Lemma check_drained_loads (E : Calls) (p : PluginId) (callback : Cont)
    (pl : Plugin) (s : St) :
  plugins s !! p = Some pl ->
  pl_loaded pl = false ->
  drained (pl_q pl) = true ->
  pl_promise pl = None ->
  check E p callback s = calls_cont E callback None (marked_loaded p pl s).
Proof.
  intros Hp Hl Hd Hpr. unfold drained in Hd.
  unfold check, bind, fastq_length, fastq_running, get_q, bind, get_plugin, ret.
  repeat (rewrite ?Hp, ?Hd, ?Hpr; cbv beta iota).
  unfold finish_done, bind, get_plugin.
  repeat (rewrite ?Hp, ?Hl; cbv beta iota).
  unfold emit, modify. cbn [plugins with_trace].
  rewrite (update_plugin_at p pl) by assumption. reflexivity.
Qed.

Lemma check_drained_promise (E : Calls) (p : PluginId) (callback : Cont)
    (pl : Plugin) (pr : PromiseId) (st : PromiseState) (s : St) :
  plugins s !! p = Some pl ->
  drained (pl_q pl) = true ->
  pl_promise pl = Some pr ->
  promises s !! pr = Some st ->
  exists s',
    check E p callback s = Val tt s' /\
    plugins s' = <[p := set_pl_promise None pl]> (plugins s) /\
    last (micros s') = Some (TWrap p callback).
Proof.
  intros Hp Hd Hpr Hst. unfold drained in Hd.
  unfold check, bind, fastq_length, fastq_running, get_q, bind, get_plugin, ret.
  repeat (rewrite ?Hp, ?Hd, ?Hpr; cbv beta iota).
  unfold resolve, then_, bind, promise_state. rewrite Hst.
  assert (Hlt : pr < List.length (promises s)) by (eapply lookup_lt_Some; eauto).
  destruct st as [rs| |e]; cbn.
  - rewrite list_lookup_insert_eq by assumption. cbn.
    erewrite update_plugin_at by (cbn; eassumption).
    eexists; split; [reflexivity|]. cbn. split; [reflexivity|].
    now rewrite last_snoc.
  - rewrite Hst. cbn. erewrite update_plugin_at by (cbn; eassumption).
    eexists; split; [reflexivity|]. cbn. split; [reflexivity|].
    now rewrite last_snoc.
  - rewrite Hst. cbn. erewrite update_plugin_at by (cbn; eassumption).
    eexists; split; [reflexivity|]. cbn. split; [reflexivity|].
    now rewrite last_snoc.
Qed.

(** The one-shot drain continuation [check] installs re-runs [check]. *)
Lemma drain_reruns_check (p : PluginId) (callback : Cont) (pl : Plugin) (s : St) :
  plugins s !! p = Some pl ->
  drain (pl_q pl) = DFinish p callback ->
  call_drain (QPlugin p) s =
    Val tt (with_micros (fun l => l ++ [TCheck p callback])
              (with_plugins (<[p := set_pl_q (set_drain DNoop (pl_q pl)) pl]>) s)).
Proof.
  intros Hp Hd. unfold call_drain, bind, get_q, bind, get_plugin, ret.
  repeat (rewrite ?Hp, ?Hd; cbv beta iota).
  unfold update_q, bind. now rewrite (update_plugin_at p pl).
Qed.

(** A re-run of [check] is armed in [s]: either the queue's one-shot drain
    hook is the continuation that schedules [check], or the [wrap] reaction
    of the promise just resolved is in the microtask queue. *)
Definition recheck_armed (p : PluginId) (callback : Cont) (s : St) : Prop :=
  (exists pl, plugins s !! p = Some pl /\
     drain (pl_q pl) = DFinish p callback /\
     call_drain (QPlugin p) s =
       Val tt (with_micros (fun l => l ++ [TCheck p callback])
                 (with_plugins
                    (<[p := set_pl_q (set_drain DNoop (pl_q pl)) pl]>) s))) \/
  (last (micros s) = Some (TWrap p callback) /\
   forall s0, wrap p callback s0 =
                Val tt (with_micros (fun l => l ++ [TCheck p callback]) s0)).

(** A unit's partial-completion promise, if any, is allocated. *)
Definition promise_allocated (pl : Plugin) (s : St) : Prop :=
  match pl_promise pl with
  | Some pr => exists st, promises s !! pr = Some st
  | None => True
  end.

(** C3: [check] marks a unit loaded (and only then hands over to the
    callback) exactly when its children queue has length zero and nothing
    in flight and no partial-completion promise is pending; otherwise the
    unit stays unloaded and a re-run of [check] is armed: on the queue's
    next drain signal, or after the promise it has just resolved. *)
Theorem C3_loaded_only_when_drained
    (E : Calls) (p : PluginId) (callback : Cont) (pl : Plugin) (s : St) :
  plugins s !! p = Some pl ->
  pl_loaded pl = false ->
  promise_allocated pl s ->
  if drained (pl_q pl) && negb (is_Some_b (pl_promise pl)) then
    check E p callback s = calls_cont E callback None (marked_loaded p pl s)
  else
    exists s' pl',
      check E p callback s = Val tt s' /\
      plugins s' !! p = Some pl' /\ pl_loaded pl' = false /\
      recheck_armed p callback s'.
Proof.
  intros Hp Hl Hal.
  assert (Hlt : p < List.length (plugins s)) by (eapply lookup_lt_Some; eauto).
  destruct (drained (pl_q pl)) eqn:Hd; cbn [andb].
  - unfold promise_allocated in Hal.
    destruct (pl_promise pl) as [pr|] eqn:Hpr; cbn [is_Some_b negb].
    + destruct Hal as [st Hst].
      destruct (check_drained_promise E p callback pl pr st s)
        as (s' & Hc & Hpls & Hlast); try assumption.
      exists s', (set_pl_promise None pl). split; [assumption|].
      split; [rewrite Hpls; now apply list_lookup_insert_eq|].
      split; [assumption|]. right. split; [assumption|reflexivity].
    + now apply check_drained_loads.
  - eexists _, _. split; [apply check_not_drained; eassumption|].
    cbn [plugins with_plugins].
    split; [now apply list_lookup_insert_eq|]. split; [assumption|].
    left. eexists. split; [now apply list_lookup_insert_eq|].
    split; [reflexivity|]. apply drain_reruns_check; [|reflexivity].
    now apply list_lookup_insert_eq.
Qed.

(** ** Frames: what the queue operations of a plugin leave alone *)

(** [m] run in [s] ends (returns or throws) in a store satisfying [Q]. *)
Definition settles {A} (m : M A) (s : St) (Q : St -> Prop) : Prop :=
  match m s with
  | Val _ s' | Throw _ s' => Q s'
  | OutOfFuel => False
  end.

(** [pl'] is [pl] up to its queue. *)
Definition same_but_q (pl pl' : Plugin) : Prop :=
  pl' = set_pl_q (pl_q pl') pl.

(** Between [s] and [s'] only queues, scheduled tasks and the trace moved:
    the ambient error, the flags and every plugin's own fields are the
    same. *)
Definition queues_only (s s' : St) : Prop :=
  av_error (avvio s') = av_error (avvio s) /\
  av_booted (avvio s') = av_booted (avvio s) /\
  av_current (avvio s') = av_current (avvio s) /\
  promises s' = promises s /\
  List.length (plugins s') = List.length (plugins s) /\
  forall p pl, plugins s !! p = Some pl ->
    exists pl', plugins s' !! p = Some pl' /\ same_but_q pl pl'.

Lemma same_but_q_refl (pl : Plugin) : same_but_q pl pl.
Proof. destruct pl; reflexivity. Qed.

Lemma same_but_q_set (pl : Plugin) (q : Queue) : same_but_q pl (set_pl_q q pl).
Proof. destruct pl; reflexivity. Qed.

Lemma same_but_q_trans (a b c : Plugin) :
  same_but_q a b -> same_but_q b c -> same_but_q a c.
Proof.
  unfold same_but_q. intros Hab Hbc. rewrite Hbc, Hab.
  destruct a; reflexivity.
Qed.

Lemma queues_only_refl (s : St) : queues_only s s.
Proof.
  repeat split; auto. intros p pl Hp. exists pl.
  split; [assumption|apply same_but_q_refl].
Qed.

Lemma queues_only_trans (a b c : St) :
  queues_only a b -> queues_only b c -> queues_only a c.
Proof.
  intros (E1 & B1 & C1 & P1 & L1 & H1) (E2 & B2 & C2 & P2 & L2 & H2).
  repeat split; try congruence.
  intros p pl Hp. destruct (H1 p pl Hp) as (pl1 & Hp1 & S1).
  destruct (H2 p pl1 Hp1) as (pl2 & Hp2 & S2).
  exists pl2. split; [assumption|]. eapply same_but_q_trans; eauto.
Qed.

Lemma queues_only_set_q (s : St) (p : PluginId) (pl : Plugin) (q : Queue) :
  plugins s !! p = Some pl ->
  queues_only s (with_plugins (<[p := set_pl_q q pl]>) s).
Proof.
  intros Hp. repeat split; auto.
  - cbn. now rewrite length_insert.
  - intros p' pl' Hp'. cbn. destruct (decide (p' = p)) as [->|Hne].
    + exists (set_pl_q q pl). split.
      * apply list_lookup_insert_eq. eapply lookup_lt_Some; eauto.
      * replace pl' with pl by congruence. apply same_but_q_set.
    + exists pl'. split; [|apply same_but_q_refl].
      rewrite list_lookup_insert_ne by congruence. assumption.
Qed.

Lemma queues_only_avvio_q (s : St) (f : Avvio -> Avvio) :
  (forall a, av_error (f a) = av_error a /\ av_booted (f a) = av_booted a /\
             av_current (f a) = av_current a) ->
  queues_only s (with_avvio f s).
Proof.
  intros Hf. destruct (Hf (avvio s)) as (H1 & H2 & H3).
  repeat split; auto. intros p pl Hp. exists pl.
  split; [assumption|apply same_but_q_refl].
Qed.

Lemma queues_only_sched (s : St) (ft fm : list Task -> list Task)
    (fe : list Event -> list Event) :
  queues_only s (with_ticks ft (with_micros fm (with_trace fe s))).
Proof.
  repeat split; auto. intros p pl Hp. exists pl.
  split; [assumption|apply same_but_q_refl].
Qed.

Section Frames.

Variable R : St -> St -> Prop.
Hypothesis R_refl : forall s, R s s.
Hypothesis R_trans : forall a b c, R a b -> R b c -> R a c.

(** [m] always ends, in a store related to the one it started from. *)
Definition frames {A} (m : M A) : Prop :=
  forall s, match m s with
            | Val _ s' | Throw _ s' => R s s'
            | OutOfFuel => False
            end.

Lemma frames_ret {A} (a : A) : frames (ret a).
Proof. intros s. apply R_refl. Qed.

Lemma frames_throw {A} (e : Error) : frames (@throw A e).
Proof. intros s. apply R_refl. Qed.

Lemma frames_bind {A B} (m : M A) (k : A -> M B) :
  frames m -> (forall a, frames (k a)) -> frames (bind m k).
Proof.
  intros Hm Hk s. unfold bind. specialize (Hm s).
  destruct (m s) as [a s1|e s1|]; [|assumption|contradiction].
  specialize (Hk a s1). destruct (k a s1); eauto.
Qed.

Lemma frames_modify (f : St -> St) :
  (forall s, R s (f s)) -> frames (modify f).
Proof. intros Hf s. apply Hf. Qed.

Lemma frames_read {A} (g : St -> A) : frames (fun s => Val (g s) s).
Proof. intros s. apply R_refl. Qed.

Lemma frames_if {A} (b : bool) (m1 m2 : M A) :
  frames m1 -> frames m2 -> frames (if b then m1 else m2).
Proof. destruct b; auto. Qed.

End Frames.

Lemma frames_get_plugin (R : St -> St -> Prop) (p : PluginId) :
  (forall s, R s s) -> frames R (get_plugin p).
Proof.
  intros Hr s. unfold get_plugin. destruct (plugins s !! p); apply Hr.
Qed.

Lemma frames_get_q (R : St -> St -> Prop) (q : QId) :
  (forall s, R s s) -> frames R (get_q q).
Proof.
  intros Hr s. destruct q; cbn; unfold bind, get_plugin, the_avvio, ret;
    try apply Hr. destruct (plugins s !! p); apply Hr.
Qed.

Lemma queues_only_update_plugin_q (p : PluginId) (f : Queue -> Queue) :
  frames queues_only (update_plugin p (fun pl => set_pl_q (f (pl_q pl)) pl)).
Proof.
  intros s. unfold update_plugin, modify.
  destruct (plugins s !! p) as [pl|] eqn:Hp.
  - replace (with_plugins _ s)
      with (with_plugins (<[p := set_pl_q (f (pl_q pl)) pl]>) s)
      by (unfold with_plugins; now rewrite Hp).
    now apply queues_only_set_q.
  - replace (with_plugins _ s) with s
      by (unfold with_plugins; rewrite Hp; now destruct s).
    apply queues_only_refl.
Qed.

Lemma queues_only_update_q (q : QId) (f : Queue -> Queue) :
  frames queues_only (update_q q f).
Proof.
  destruct q as [p| |]; cbn.
  - apply queues_only_update_plugin_q.
  - intros s. apply queues_only_avvio_q. intros []; auto.
  - intros s. apply queues_only_avvio_q. intros []; auto.
Qed.

Lemma queues_only_nextTick (t : Task) : frames queues_only (nextTick t).
Proof.
  intros s. cbn. repeat split; auto. intros p pl Hp. exists pl.
  split; [assumption|apply same_but_q_refl].
Qed.

Lemma queues_only_queueMicrotask (t : Task) : frames queues_only (queueMicrotask t).
Proof.
  intros s. cbn. repeat split; auto. intros p pl Hp. exists pl.
  split; [assumption|apply same_but_q_refl].
Qed.

Lemma queues_only_emit (who : option PluginId) (ev : string) :
  frames queues_only (emit who ev).
Proof.
  intros s. cbn. repeat split; auto. intros p pl Hp. exists pl.
  split; [assumption|apply same_but_q_refl].
Qed.

Create HintDb frames discriminated.
#[local] Hint Resolve queues_only_refl queues_only_trans : frames.
#[local] Hint Resolve frames_ret frames_throw frames_get_plugin frames_get_q
  queues_only_update_q queues_only_nextTick queues_only_queueMicrotask
  queues_only_emit queues_only_update_plugin_q : frames.

(** Steps through a monadic body, one bind or branch at a time. *)
Ltac frames_step :=
  repeat first
    [ apply (frames_bind queues_only queues_only_trans);
        [ | intros ? ]
    | apply (frames_ret queues_only queues_only_refl)
    | apply (frames_throw queues_only queues_only_refl)
    | apply (frames_get_q queues_only _ queues_only_refl)
    | apply (frames_get_plugin queues_only _ queues_only_refl)
    | apply queues_only_update_q
    | apply queues_only_update_plugin_q
    | apply queues_only_nextTick
    | apply queues_only_queueMicrotask
    | apply queues_only_emit
    | match goal with
      | |- frames _ (if ?b then _ else _) => destruct b
      | |- frames _ (match ?x with _ => _ end) => destruct x
      | |- frames _ (let _ := _ in _) => cbv zeta
      end ].

Lemma queues_only_call_drain (q : QId) : frames queues_only (call_drain q).
Proof. unfold call_drain. frames_step. Qed.

Lemma queues_only_worker_plugin (E : Calls) (p : PluginId) (v : Item) (k : Cont) :
  frames queues_only (worker E (QPlugin p) v k).
Proof. unfold worker, loadPluginNextTick. frames_step. Qed.

Lemma queues_only_release_plugin (E : Calls) (p : PluginId) :
  frames queues_only (fastq_release E (QPlugin p)).
Proof.
  unfold fastq_release. frames_step;
    try apply queues_only_call_drain; try apply queues_only_worker_plugin.
Qed.

(** ** Executing a unit ([exec]) *)

(** Symbolic execution of engine code on a store known through lookups. *)
Ltac mred :=
  cbv beta iota;
  cbn [avvio plugins promises cells ticks micros timers next_timer now trace
       with_avvio with_plugins with_promises with_cells with_ticks with_micros
       with_timers with_trace
       av_timeout av_instance av_current av_doStart av_error av_started
       av_booted av_readyQ av_closeQ av_root av_autostart av_override
       av_preReady
       set_current set_doStart set_error set_started set_booted set_readyQ
       set_closeQ set_root
       pl_started pl_func pl_timeout pl_name pl_isAfter pl_q pl_error pl_loaded
       pl_promise pl_server pl_setup_listeners pl_completed pl_timer
       set_pl_started set_pl_q set_pl_error set_pl_loaded set_pl_promise
       set_pl_server set_pl_setup_listeners set_pl_completed set_pl_timer
       paused running items drain set_paused set_running set_items set_drain
       negb andb orb is_Some_b fst snd].

Ltac mlookup :=
  repeat match goal with
  | H : ?l !! ?p = Some _ |- context [?l !! ?p] => rewrite H
  | |- context [<[?p := _]> (<[?p := _]> _)] => rewrite list_insert_insert_eq
  | |- context [<[?p := ?x]> ?l !! ?p] =>
      rewrite (list_lookup_insert_eq l p x)
        by (rewrite ?length_insert, ?length_app; cbn [List.length];
            first [assumption | lia])
  end.

Ltac mrun :=
  repeat (progress
    (unfold bind, ret, get, modify, throw, the_avvio, update_avvio, get_plugin,
       update_plugin, get_q, update_q, nextTick, queueMicrotask, emit, log,
       setTimeout, clearTimeout, queueReactions, with_avvio, with_plugins,
       with_promises,
       with_cells, with_ticks, with_micros, with_timers, with_trace;
     mred; mlookup)).


Lemma get_plugin_at (p : PluginId) (pl : Plugin) (s : St) :
  plugins s !! p = Some pl -> get_plugin p s = Val pl s.
Proof. intros Hp. unfold get_plugin. now rewrite Hp. Qed.

(** With the ambient error set, a unit that is not an after-unit is not
    run: only its callback is scheduled, without an error. *)
Lemma exec_skips_on_error (E : Calls) (p : PluginId) (pl : Plugin) (server : nat)
    (callback : Cont) (e : Error) (s : St) :
  plugins s !! p = Some pl ->
  av_error (avvio s) = Some e ->
  pl_isAfter pl = false ->
  exec E p server callback s =
    Val tt (with_ticks (fun l => l ++ [TCall callback None]) s).
Proof.
  intros Hp He Ha. unfold exec, bind, the_avvio.
  rewrite (get_plugin_at p pl) by assumption. now rewrite He, Ha.
Qed.

(** The store in which [exec] calls the function of a unit it does run
    (no [setup] listener pending). *)
Definition exec_entry (p : PluginId) (pl : Plugin) (srv : nat) (callback : Cont)
    (s : St) : St :=
  let timed := (0 <? pl_timeout pl)%nat in
  let pl' :=
    set_pl_started true
      (set_pl_timer (if timed then Some (next_timer s) else pl_timer pl)
         (set_pl_server (Some srv) pl)) in
  MkSt (avvio s) (<[p := pl']> (plugins s)) (promises s) (cells s) (ticks s)
       (micros s)
       (if timed
        then timers s ++ [MkTimer (next_timer s) (now s + pl_timeout pl)
                            (TExecTimeout p callback)]
        else timers s)
       (if timed then S (next_timer s) else next_timer s)
       (now s) (trace s ++ [EvEmit (Some p) "start"]).

(** [exec] runs unit [pl] with context [srv]: it is an after-unit, or no
    ambient error is set and the override hook returned [srv]. *)
Definition exec_runs_with (s : St) (pl : Plugin) (server srv : nat) : Prop :=
  pl_setup_listeners pl = 0 /\
  if pl_isAfter pl then srv = server
  else av_error (avvio s) = None /\
       av_override (avvio s) server (pl_func pl) = inr srv.

Lemma exec_runs (E : Calls) (p : PluginId) (pl : Plugin) (server srv : nat)
    (callback : Cont) (s : St) :
  plugins s !! p = Some pl ->
  exec_runs_with s pl server srv ->
  exec E p server callback s =
    (promise <- calls_func E (pl_func pl) [ACtx srv; AOptions; ACallback]
                           (Some (KExecDone p callback)) ;;
     then_ret promise
       (TNextTick (TCall (KExecDone p callback) None))
       (fun e => TNextTick (TCall (KExecDone p callback) (Some e))))
      (exec_entry p pl srv callback s).
Proof.
  intros Hp [Hn Hrun].
  assert (Hlt : p < List.length (plugins s)) by (eapply lookup_lt_Some; eauto).
  unfold exec, exec_entry. mrun. rewrite Hn.
  destruct (pl_isAfter pl).
  - subst srv. rewrite andb_false_r. cbn [repeatM negb]. mrun.
    destruct (0 <? pl_timeout pl)%nat eqn:Ht; mrun;
      [reflexivity | destruct pl; reflexivity].
  - destruct Hrun as [He Hov]. rewrite He, Hov. cbn [repeatM]. mrun.
    destruct (0 <? pl_timeout pl)%nat eqn:Ht; mrun;
      [reflexivity | destruct pl; reflexivity].
Qed.

Lemma exec_after_unit (E : Calls) (p : PluginId) (pl : Plugin) (server : nat)
    (callback : Cont) (s : St) :
  plugins s !! p = Some pl ->
  pl_isAfter pl = true ->
  pl_setup_listeners pl = 0 ->
  exec E p server callback s =
    (promise <- calls_func E (pl_func pl) [ACtx server; AOptions; ACallback]
                           (Some (KExecDone p callback)) ;;
     then_ret promise
       (TNextTick (TCall (KExecDone p callback) None))
       (fun e => TNextTick (TCall (KExecDone p callback) (Some e))))
      (exec_entry p pl server callback s).
Proof.
  intros Hp Ha Hn. apply exec_runs; [assumption|].
  split; [assumption|]. now rewrite Ha.
Qed.

Lemma settles_of_frames {A} (R : St -> St -> Prop) (m : M A) (s : St)
    (Q : St -> Prop) :
  frames R m -> (forall s', R s s' -> Q s') -> settles m s Q.
Proof.
  intros Hm HQ. unfold settles. specialize (Hm s).
  destruct (m s); auto.
Qed.

(** The error of a unit and the ambient error, as recorded in [s]. *)
Definition error_recorded (p : PluginId) (e : Error) (s : St) : Prop :=
  av_error (avvio s) = Some e /\
  exists pl, plugins s !! p = Some pl /\ pl_error pl = Some e /\
             pl_loaded pl = true.

Lemma error_recorded_frame (p : PluginId) (e : Error) (s s' : St) :
  error_recorded p e s -> queues_only s s' -> error_recorded p e s'.
Proof.
  intros (He & pl & Hp & Hpe & Hpl) (E1 & _ & _ & _ & _ & H).
  split; [congruence|]. destruct (H p pl Hp) as (pl' & Hp' & Hs).
  exists pl'. split; [assumption|]. rewrite Hs. now destruct pl.
Qed.

(** When the function of a unit loaded from its parent's queue completes
    with error [e], [e] is stored on the unit, the unit is marked loaded
    without starting its children, and the callback [_addPlugin] enqueued
    it with stores [e] as the orchestrator's ambient error. *)
Lemma done_records_error (n : nat) (p parent : PluginId) (pl : Plugin)
    (e : Error) (s : St) :
  plugins s !! p = Some pl ->
  pl_completed pl = false ->
  pl_loaded pl = false ->
  promise_allocated pl s ->
  settles (calls_cont (engine (5 + n))
             (KExecDone p (KLoadExec p (KWorked (QPlugin parent) KAddPlugin)))
             (Some e))
          s (error_recorded p e).
Proof.
  intros Hp Hc Hl Hal.
  assert (Hlt : p < List.length (plugins s)) by (eapply lookup_lt_Some; eauto).
  assert (Hfin : forall s1 : St,
    av_error (avvio s1) = Some e ->
    (exists pl1, plugins s1 !! p = Some pl1 /\ pl_error pl1 = Some e /\
                 pl_loaded pl1 = true) ->
    match fastq_release (engine (S n)) (QPlugin parent) s1 with
    | Val _ s' | Throw _ s' => error_recorded p e s'
    | OutOfFuel => False
    end).
  { intros s1 H1 H2.
    apply (settles_of_frames queues_only);
      [apply queues_only_release_plugin|].
    intros s' Hq. eapply error_recorded_frame; [|eassumption]. now split. }
  cbn [Nat.add]. unfold settles.
  rewrite calls_cont_engine. cbn [apply_cont]. unfold exec_done. mrun.
  rewrite Hc. mrun.
  assert (Hrest : forall tms : list Timer,
    match
      calls_cont (engine (S (S (S (S n)))))
        (KLoadExec p (KWorked (QPlugin parent) KAddPlugin)) (Some e)
        (MkSt (avvio s)
           (<[p := set_pl_completed true (set_pl_error (Some e) pl)]> (plugins s))
           (promises s) (cells s) (ticks s) (micros s) tms (next_timer s)
           (now s) (trace s))
    with
    | Val _ s' | Throw _ s' => error_recorded p e s'
    | OutOfFuel => False
    end).
  { intros tms. rewrite calls_cont_engine. cbn [apply_cont]. unfold finish. mrun.
    unfold promise_allocated in Hal.
    destruct (pl_promise pl) as [pr|] eqn:Hpr; mrun.
    1: destruct Hal as [st Hst]; unfold reject, promise_state; mrun;
       rewrite ?Hst; destruct st; mrun.
    all: unfold finish_done; mrun; rewrite ?Hl; mrun;
         rewrite calls_cont_engine; cbn [apply_cont];
         unfold loadPlugin_finished; mrun;
         rewrite calls_cont_engine; cbn [apply_cont];
         unfold fastq_worked; mrun;
         rewrite calls_cont_engine; cbn [apply_cont record_error]; mrun;
         apply Hfin; mred; [reflexivity|];
         eexists; (split; [mlookup; reflexivity|]); split; reflexivity. }
  destruct (pl_timer pl) as [tid|]; mrun; apply Hrest.
Qed.

(** [exec] completes unit [q] as a no-op: the store only gains the tick
    that calls the callback without an error. *)
Definition completes_as_noop (E : Calls) (q : PluginId) (server : nat)
    (callback : Cont) (s : St) : Prop :=
  exec E q server callback s =
    Val tt (with_ticks (fun l => l ++ [TCall callback None]) s).

(** [exec] runs the after-unit [q] registered by [after(f)]: the
    normalizer is called on [f] with the unit's [done], and [f] is entered
    with the arguments the normalizer builds from the ambient error [e]. *)
Definition after_unit_runs (m : nat) (q : PluginId) (ql : Plugin) (f : Fn)
    (server : nat) (callback : Cont) (e : Error) (s : St) : Prop :=
  let entry := exec_entry q ql server callback s in
  exec (engine (S (S m))) q server callback s =
    (callWithCallbackOrNextTick (engine (S m)) (FUser f) (KExecDone q callback) ;;
     ret tt) entry /\
  last (trace (normalizer_entry f (KExecDone q callback) entry)) =
    Some (EvInvoke (FUser f)
            (normalized_args (fn_length f) (Some e) (av_instance (avvio s)))).

Lemma exec_after_receives_error (m : nat) (q : PluginId) (ql : Plugin) (f : Fn)
    (server : nat) (callback : Cont) (e : Error) (s : St) :
  plugins s !! q = Some ql ->
  av_error (avvio s) = Some e ->
  pl_isAfter ql = true ->
  pl_setup_listeners ql = 0 ->
  pl_func ql = FAfter (FUser f) ->
  after_unit_runs m q ql f server callback e s.
Proof.
  intros Hq He Ha Hn Hf. split.
  - rewrite (exec_after_unit _ q ql) by assumption. rewrite Hf.
    unfold bind at 1. rewrite calls_func_engine. cbn [invoke].
    unfold bind. destruct (callWithCallbackOrNextTick _ _ _ _); reflexivity.
  - unfold normalizer_entry. cbv zeta. unfold with_trace at 1. cbn [trace].
    rewrite last_snoc. unfold exec_entry. cbn [avvio]. now rewrite He.
Qed.

(** C1: when the function of a non-after unit completes with error [e],
    [e] is recorded on the unit and on the orchestrator; and in any store
    whose ambient error is [e], a non-after unit completes as a no-op (its
    function is not called, its callback gets no error), while an
    after-unit is run and its continuation is called with [e] as the
    normalizer prescribes. *)
Theorem C1_error_propagation (n : nat) (p parent : PluginId) (pl : Plugin)
    (e : Error) (s : St) :
  plugins s !! p = Some pl ->
  pl_completed pl = false ->
  pl_loaded pl = false ->
  promise_allocated pl s ->
  settles (calls_cont (engine (5 + n))
             (KExecDone p (KLoadExec p (KWorked (QPlugin parent) KAddPlugin)))
             (Some e))
          s (error_recorded p e) /\
  forall (s' : St) (q : PluginId) (ql : Plugin) (server : nat) (callback : Cont),
    av_error (avvio s') = Some e ->
    plugins s' !! q = Some ql ->
    (pl_isAfter ql = false ->
     forall E, completes_as_noop E q server callback s') /\
    (pl_isAfter ql = true ->
     forall m f, pl_setup_listeners ql = 0 -> pl_func ql = FAfter (FUser f) ->
                 after_unit_runs m q ql f server callback e s').
Proof.
  intros Hp Hc Hl Hal. split; [now apply (done_records_error n p parent pl)|].
  intros s' q ql server callback He Hq. split.
  - intros Ha E. eapply exec_skips_on_error; eassumption.
  - intros Ha m f Hn Hf. now apply exec_after_receives_error.
Qed.

(** ** The timeout guard of [exec] *)

(** The failure the guard synthesizes: tagged with the unit's function. *)
Definition timeout_error (pl : Plugin) : Error :=
  AVV_ERR_READY_TIMEOUT (pl_name pl) (pl_func pl).

(** The store in which the guard hands the failure to the callback. *)
Definition timed_out (p : PluginId) (pl : Plugin) (s : St) : St :=
  with_plugins
    (<[p := set_pl_completed true
              (set_pl_error (Some (timeout_error pl)) (set_pl_timer None pl))]>)
    s.

Lemma exec_timeout_delivers (E : Calls) (p : PluginId) (pl : Plugin)
    (callback : Cont) (s : St) :
  plugins s !! p = Some pl ->
  pl_completed pl = false ->
  exec_timeout E p callback s =
    calls_cont E callback (Some (timeout_error pl)) (timed_out p pl s).
Proof.
  intros Hp Hc.
  assert (Hlt : p < List.length (plugins s)) by (eapply lookup_lt_Some; eauto).
  unfold exec_timeout, exec_done, timed_out, timeout_error. mrun.
  rewrite Hc. mrun. destruct s; reflexivity.
Qed.

Lemma exec_done_once (E : Calls) (p : PluginId) (pl : Plugin) (callback : Cont)
    (err : option Error) (s : St) :
  plugins s !! p = Some pl ->
  pl_completed pl = true ->
  exec_done E p callback err s = Val tt s.
Proof.
  intros Hp Hc. unfold exec_done. mrun. now rewrite Hc.
Qed.

(** With nothing left in the tick and microtask queues, the event loop
    advances the clock to the earliest deadline and runs that timer. *)
Lemma step_fires_timer (n : nat) (tm : Timer) (s : St) :
  ticks s = [] -> micros s = [] -> next_due (timers s) = Some tm ->
  exists s',
    step n Ticks s = after_task Ticks (run_task n (tm_task tm) s') /\
    now s' = Nat.max (now s) (tm_at tm) /\
    plugins s' = plugins s /\ avvio s' = avvio s.
Proof.
  intros Ht Hm Hd. unfold step. rewrite Ht, Hm, Hd.
  eexists. split; [reflexivity|]. repeat split.
Qed.


(** ** The ready and close queues *)

(** How many times the orchestrator emitted [event]. *)
Definition emitted (event : string) (l : list Event) : nat :=
  List.length (List.filter (fun ev => match ev with
                                 | EvEmit None e => String.eqb e event
                                 | _ => false
                                 end) l).

(** The drain hook of the ready-queue is one-shot: it emits 'start' and
    replaces itself by the no-op, so a second drain signal emits nothing. *)
Lemma ready_drain_one_shot (s : St) :
  drain (av_readyQ (avvio s)) = DReadyQ ->
  exists s',
    call_drain QReady s = Val tt s' /\
    trace s' = trace s ++ [EvEmit None "start"] /\
    drain (av_readyQ (avvio s')) = DNoop /\
    call_drain QReady s' = Val tt s'.
Proof.
  intros Hd. unfold call_drain. mrun. rewrite Hd. mrun.
  eexists. split; [reflexivity|]. mred. repeat split.
Qed.

(** The drain hook of the close-queue emits 'close' and then clears the
    drain hook of the ready-queue: it stays armed itself. *)
Lemma close_drain_stays_armed (s : St) :
  drain (av_closeQ (avvio s)) = DCloseQ ->
  exists s',
    call_drain QClose s = Val tt s' /\
    trace s' = trace s ++ [EvEmit None "close"] /\
    drain (av_closeQ (avvio s')) = DCloseQ /\
    drain (av_readyQ (avvio s')) = DNoop.
Proof.
  intros Hd. unfold call_drain. mrun. rewrite Hd. mrun.
  eexists. split; [reflexivity|]. mred. repeat split. assumption.
Qed.

(** A close handler that calls its completion callback at once. *)
Definition close_handler : Fn := MkFn "handler" 2 [ActDone None] RetUndefined.

(** C5 (the code departs from the claim): with two [close] calls whose
    handler completes synchronously, each handler runs once but the
    close-queue drains twice and 'close' is emitted twice, while 'start'
    is never emitted: the close-queue's drain hook resets the drain hook
    of the ready-queue instead of its own. *)
Theorem C5_close_emitted_twice :
  let t := outcome_trace
             (program 40 20 default_options
                [ActClose close_handler; ActClose close_handler]) in
  invoked t = ["handler"; "handler"] /\
  emitted "close" t = 2 /\
  emitted "start" t = 0.
Proof. vm_compute. repeat split. Qed.

(** ** Concrete stores *)

(** The plugin stored at [p] (a fresh root-like plugin if there is none). *)
Definition plugin_at (s : St) (p : PluginId) : Plugin :=
  match plugins s !! p with
  | Some pl => pl
  | None => new_Plugin (avvio s) FRoot false None
  end.

(** A unit whose function never signals completion. *)
Definition stalling : Fn := MkFn "stalling" 3 [] RetPending.

(** The store once [use(stalling)] has been started and the loop is idle:
    unit 1 is running, its parent is the root (unit 0). *)
Definition stalled_store : St := final 50 20 default_options [ActUse stalling].

(** The store right after the main script asked for the root's partial
    completion: the root's promise is pending. *)
Definition pending_store : St :=
  match program 0 20 default_options [ActLoadedSoFar []] with
  | Busy _ s => s
  | _ => init default_options
  end.

(** The store right after the main script registered one unit under a
    10ms timeout. *)
Definition timed_store : St :=
  match program 0 20 (MkOptions 10 true override None) [ActUse stalling] with
  | Busy _ s => s
  | _ => init default_options
  end.

Lemma C1_error_propagation_witness :
  settles (calls_cont (engine 5)
             (KExecDone 1 (KLoadExec 1 (KWorked (QPlugin 0) KAddPlugin)))
             (Some (UserError "E")))
          stalled_store (error_recorded 1 (UserError "E")).
Proof.
  refine (proj1 (C1_error_propagation 0 1 0 (plugin_at stalled_store 1)
                   (UserError "E") stalled_store _ _ _ _));
    vm_compute; trivial.
Defined.

Lemma C3_loaded_only_when_drained_witness :
  exists s' pl',
    check (engine 5) 0 KRootLoaded pending_store = Val tt s' /\
    plugins s' !! 0 = Some pl' /\ pl_loaded pl' = false /\
    recheck_armed 0 KRootLoaded s'.
Proof.
  apply (C3_loaded_only_when_drained (engine 5) 0 KRootLoaded
           (plugin_at pending_store 0) pending_store).
  - vm_compute. reflexivity.
  - vm_compute. reflexivity.
  - vm_compute. eexists. reflexivity.
Defined.


Lemma C10_second_caller_resolved_witness :
  exists fresh s',
    loadedSoFar (engine 5) 0 pending_store = Val fresh s' /\
    fresh <> 0 /\
    promises s' !! fresh = Some Fulfilled /\
    promises s' !! 0 =
      Some (Pending [(TUser [] None, fun _ : Error => TUser [] None)]) /\
    plugins s' = plugins pending_store /\ avvio s' = avvio pending_store /\
    ticks s' = ticks pending_store /\ micros s' = micros pending_store /\
    trace s' = trace pending_store.
Proof.
  apply (C10_second_caller_resolved (engine 5) 0 (plugin_at pending_store 0)
           0 [(TUser [] None, fun _ : Error => TUser [] None)] pending_store);
    vm_compute; reflexivity.
Defined.

(** ** When a unit's children may start

    A unit is [released] once its [exec] has settled ([finish] has been
    entered) or a partial completion was requested on it ([loadedSoFar]
    registered its after-unit).  The invariant [Inv] below says that the
    queue of every other unit but the root is paused with nothing in
    flight, and that every continuation and task held anywhere in the store
    only ever releases or resumes the queue of a released unit. *)

Definition settled (s : St) (p : PluginId) : Prop :=
  In (EvDebug "finish" p) (trace s).

Definition partial_requested (s : St) (p : PluginId) : Prop :=
  exists c cl, plugins s !! c = Some cl /\ pl_func cl = FAfter (FLoadedSoFar p).

Definition released (s : St) (p : PluginId) : Prop :=
  p = 0 \/ settled s p \/ partial_requested s p.

(** The root callback has run: the whole tree is loaded. *)
Definition root_done (s : St) : Prop :=
  In (EvEmit None "preReady") (trace s).

Definition q_ok (s : St) (q : QId) : Prop :=
  match q with
  | QPlugin p => released s p
  | QReady => root_done s
  | QClose => True
  end.

Fixpoint cont_ok (s : St) (k : Cont) : Prop :=
  match k with
  | KWorked q callback => q_ok s q /\ cont_ok s callback
  | KExecDone _ callback | KLoadExec _ callback | KLoadFinish callback
  | KTimeoutCallback _ callback => cont_ok s callback
  | KNoop | KRootLoaded | KAddPlugin | KOnClose => True
  end.

Definition optcont_ok (s : St) (d : option Cont) : Prop :=
  match d with
  | Some k => cont_ok s k
  | None => True
  end.

Fixpoint task_ok (s : St) (t : Task) : Prop :=
  match t with
  | TCall k _ => cont_ok s k
  | TLoadPlugin _ callback | TCheck _ callback | TWrap _ callback
  | TExecTimeout _ callback | TReadyTimeout _ _ callback => cont_ok s callback
  | TNextTick t' => task_ok s t'
  | TResume q => q_ok s q
  | TResumeRoot | TStart => True
  | TUser _ d => optcont_ok s d
  end.

Definition drain_ok (s : St) (d : Drain) : Prop :=
  match d with
  | DFinish _ callback => cont_ok s callback
  | _ => True
  end.

Definition queue_ok (s : St) (Q : Queue) : Prop :=
  Forall (fun it => cont_ok s (snd it)) (items Q) /\ drain_ok s (drain Q).

Definition paused_idle (Q : Queue) : Prop :=
  paused Q = true /\ running Q = 0%Z.

Definition promise_ok (s : St) (st : PromiseState) : Prop :=
  match st with
  | Pending rs =>
      Forall (fun r => task_ok s (fst r) /\ forall e, task_ok s (snd r e)) rs
  | _ => True
  end.

Record Inv (s : St) : Prop := MkInv {
  inv_queues : forall p pl, plugins s !! p = Some pl ->
                 queue_ok s (pl_q pl) /\ (released s p \/ paused_idle (pl_q pl));
  inv_readyQ : queue_ok s (av_readyQ (avvio s)) /\
               (root_done s \/ paused_idle (av_readyQ (avvio s)));
  inv_closeQ : queue_ok s (av_closeQ (avvio s));
  inv_doStart : optcont_ok s (av_doStart (avvio s));
  inv_root : av_root (avvio s) = Some 0 \/ av_root (avvio s) = None;
  inv_ticks : Forall (task_ok s) (ticks s);
  inv_micros : Forall (task_ok s) (micros s);
  inv_timers : Forall (fun tm => task_ok s (tm_task tm)) (timers s);
  inv_promises : Forall (promise_ok s) (promises s)
}.

(** The store only grows: events stay in the trace, plugins keep their
    function. *)
Definition mono (s s' : St) : Prop :=
  (forall ev, In ev (trace s) -> In ev (trace s')) /\
  (forall c cl, plugins s !! c = Some cl ->
     exists cl', plugins s' !! c = Some cl' /\ pl_func cl' = pl_func cl).

Lemma mono_refl (s : St) : mono s s.
Proof. split; eauto. Qed.

Lemma mono_trans (a b c : St) : mono a b -> mono b c -> mono a c.
Proof.
  intros [T1 P1] [T2 P2]. split; [auto|].
  intros x xl Hx. destruct (P1 x xl Hx) as (xl1 & H1 & F1).
  destruct (P2 x xl1 H1) as (xl2 & H2 & F2). exists xl2. split; congruence.
Qed.

Lemma released_mono (s s' : St) (p : PluginId) :
  mono s s' -> released s p -> released s' p.
Proof.
  intros [T P] [H|[H|(c & cl & Hc & Hf)]]; [now left|right; left; now apply T|].
  right; right. destruct (P c cl Hc) as (cl' & Hc' & Hf').
  exists c, cl'. split; congruence.
Qed.

Lemma root_done_mono (s s' : St) : mono s s' -> root_done s -> root_done s'.
Proof. intros [H _]. apply H. Qed.

Lemma q_ok_mono (s s' : St) (q : QId) : mono s s' -> q_ok s q -> q_ok s' q.
Proof. destruct q; cbn; eauto using released_mono, root_done_mono. Qed.

Lemma cont_ok_mono (s s' : St) (k : Cont) :
  mono s s' -> cont_ok s k -> cont_ok s' k.
Proof.
  intros Hm. induction k; cbn; auto. intros [Hq Hk].
  split; eauto using q_ok_mono.
Qed.

Lemma optcont_ok_mono (s s' : St) (d : option Cont) :
  mono s s' -> optcont_ok s d -> optcont_ok s' d.
Proof. destruct d; cbn; eauto using cont_ok_mono. Qed.

Lemma task_ok_mono (s s' : St) (t : Task) :
  mono s s' -> task_ok s t -> task_ok s' t.
Proof.
  intros Hm. induction t; cbn; eauto using cont_ok_mono, q_ok_mono,
    optcont_ok_mono.
Qed.

Lemma drain_ok_mono (s s' : St) (d : Drain) :
  mono s s' -> drain_ok s d -> drain_ok s' d.
Proof. destruct d; cbn; eauto using cont_ok_mono. Qed.

Lemma queue_ok_mono (s s' : St) (Q : Queue) :
  mono s s' -> queue_ok s Q -> queue_ok s' Q.
Proof.
  intros Hm [Hi Hd]. split; [|eauto using drain_ok_mono].
  eapply Forall_impl; [eassumption|]. intros it. now apply cont_ok_mono.
Qed.

Lemma promise_ok_mono (s s' : St) (st : PromiseState) :
  mono s s' -> promise_ok s st -> promise_ok s' st.
Proof.
  intros Hm. destruct st; cbn; auto. intros H.
  eapply Forall_impl; [eassumption|]. intros r [H1 H2].
  split; eauto using task_ok_mono.
Qed.

(** [Inv] carries over to a grown store, component by component: what is
    taken from the old store is fine, what is new must be checked. *)
Lemma Inv_step (s s' : St) :
  Inv s -> mono s s' ->
  (forall p pl', plugins s' !! p = Some pl' ->
     (exists pl, plugins s !! p = Some pl /\ pl_q pl' = pl_q pl) \/
     (queue_ok s' (pl_q pl') /\ (released s' p \/ paused_idle (pl_q pl')))) ->
  (av_readyQ (avvio s') = av_readyQ (avvio s) \/
   (queue_ok s' (av_readyQ (avvio s')) /\
    (root_done s' \/ paused_idle (av_readyQ (avvio s'))))) ->
  (av_closeQ (avvio s') = av_closeQ (avvio s) \/ queue_ok s' (av_closeQ (avvio s'))) ->
  (av_doStart (avvio s') = av_doStart (avvio s) \/
   optcont_ok s' (av_doStart (avvio s'))) ->
  (av_root (avvio s') = av_root (avvio s) \/ av_root (avvio s') = None) ->
  Forall (fun t => In t (ticks s) \/ task_ok s' t) (ticks s') ->
  Forall (fun t => In t (micros s) \/ task_ok s' t) (micros s') ->
  Forall (fun tm => In tm (timers s) \/ task_ok s' (tm_task tm)) (timers s') ->
  Forall (fun st => In st (promises s) \/ promise_ok s' st) (promises s') ->
  Inv s'.
Proof.
  intros [Iq Ir Ic Id Io It Im Itm Ip] Hm Hq Hr Hc Hd Ho Ht Hmi Htm Hp.
  constructor.
  - intros p pl' Hp'. destruct (Hq p pl' Hp') as [(pl & Hpl & Heq)|H]; [|exact H].
    rewrite Heq. destruct (Iq p pl Hpl) as [H1 H2]. split.
    + eapply queue_ok_mono; eassumption.
    + destruct H2; [left; eapply released_mono; eassumption|now right].
  - destruct Hr as [-> | H]; [|exact H]. destruct Ir as [Ir1 Ir2]. split.
    + eapply queue_ok_mono; eassumption.
    + destruct Ir2; [left; eapply root_done_mono; eassumption|now right].
  - destruct Hc as [-> | H]; [eapply queue_ok_mono; eassumption|exact H].
  - destruct Hd as [-> | H]; [eapply optcont_ok_mono; eassumption|exact H].
  - destruct Ho as [-> | ->]; [assumption|now right].
  - eapply Forall_impl; [exact Ht|]. intros t [Hin|H]; [|exact H].
    eapply task_ok_mono; [eassumption|].
    rewrite Forall_forall in It. apply It. now apply list_elem_of_In.
  - eapply Forall_impl; [exact Hmi|]. intros t [Hin|H]; [|exact H].
    eapply task_ok_mono; [eassumption|].
    rewrite Forall_forall in Im. apply Im. now apply list_elem_of_In.
  - eapply Forall_impl; [exact Htm|]. intros t [Hin|H]; [|exact H].
    eapply task_ok_mono; [eassumption|].
    rewrite Forall_forall in Itm. apply (Itm t). now apply list_elem_of_In.
  - eapply Forall_impl; [exact Hp|]. intros t [Hin|H]; [|exact H].
    eapply promise_ok_mono; [eassumption|].
    rewrite Forall_forall in Ip. apply Ip. now apply list_elem_of_In.
Qed.

Lemma Forall_old {A} (P : A -> Prop) (l : list A) :
  Forall (fun x => In x l \/ P x) l.
Proof. apply Forall_forall. intros x Hx. left. now apply list_elem_of_In. Qed.

Lemma Forall_old_snoc {A} (P : A -> Prop) (l : list A) (x : A) :
  P x -> Forall (fun y => In y l \/ P y) (l ++ [x]).
Proof.
  intros Hx. apply Forall_app. split; [apply Forall_old|].
  constructor; [now right|constructor].
Qed.

Lemma Forall_old_filter {A} (P : A -> Prop) (f : A -> bool) (l : list A) :
  Forall (fun x => In x l \/ P x) (List.filter f l).
Proof.
  apply Forall_forall. intros x Hx. left.
  apply list_elem_of_In in Hx. apply filter_In in Hx. tauto.
Qed.

Lemma same_plugins_q (s s' : St) :
  plugins s' = plugins s ->
  forall p pl', plugins s' !! p = Some pl' ->
    (exists pl, plugins s !! p = Some pl /\ pl_q pl' = pl_q pl) \/
    (queue_ok s' (pl_q pl') /\ (released s' p \/ paused_idle (pl_q pl'))).
Proof. intros -> p pl' H. left. eauto. Qed.

(** The judgement: from a store satisfying [Inv] and [Pre], [m] returns
    in a grown store satisfying [Inv] and [Post], or throws in a grown
    store satisfying [Inv]. *)
Definition sound {A} (Pre : St -> Prop) (m : M A) (Post : A -> St -> Prop)
  : Prop :=
  forall s, Inv s -> Pre s ->
    match m s with
    | Val a s' => Inv s' /\ mono s s' /\ Post a s'
    | Throw _ s' => Inv s' /\ mono s s'
    | OutOfFuel => True
    end.

Definition stable (P : St -> Prop) : Prop :=
  forall s s', mono s s' -> P s -> P s'.

Lemma sound_bind {A B} (P : St -> Prop) (m : M A) (Q : A -> St -> Prop)
    (k : A -> M B) (R : B -> St -> Prop) :
  stable P ->
  sound P m Q ->
  (forall a, sound (fun s => P s /\ Q a s) (k a) R) ->
  sound P (bind m k) R.
Proof.
  intros HP Hm Hk s HI Hs. unfold bind. specialize (Hm s HI Hs).
  destruct (m s) as [a s1|e s1|]; [|exact Hm|exact I].
  destruct Hm as (HI1 & Hm1 & HQ).
  specialize (Hk a s1 HI1 (conj (HP _ _ Hm1 Hs) HQ)).
  destruct (k a s1) as [b s2|e s2|]; [| |exact I].
  - destruct Hk as (HI2 & Hm2 & HR). eauto using mono_trans.
  - destruct Hk as (HI2 & Hm2). eauto using mono_trans.
Qed.

Lemma sound_weaken {A} (P P' : St -> Prop) (m : M A) (Q Q' : A -> St -> Prop) :
  sound P m Q ->
  (forall s, P' s -> P s) ->
  (forall a s, Q a s -> Q' a s) ->
  sound P' m Q'.
Proof.
  intros Hm HP HQ s HI Hs. specialize (Hm s HI (HP s Hs)).
  destruct (m s); [|exact Hm|exact I]. destruct Hm as (H1 & H2 & H3). auto.
Qed.

Lemma sound_ret {A} (P : St -> Prop) (a : A) (Q : A -> St -> Prop) :
  (forall s, P s -> Q a s) -> sound P (ret a) Q.
Proof. intros H s HI Hs. cbn. auto using mono_refl. Qed.

Lemma sound_throw {A} (P : St -> Prop) (e : Error) (Q : A -> St -> Prop) :
  sound P (throw e) Q.
Proof. intros s HI Hs. cbn. auto using mono_refl. Qed.

Lemma sound_modify (P : St -> Prop) (f : St -> St) (Q : unit -> St -> Prop) :
  (forall s, Inv s -> P s -> Inv (f s) /\ mono s (f s) /\ Q tt (f s)) ->
  sound P (modify f) Q.
Proof. intros H s HI Hs. cbn. auto. Qed.

Lemma sound_read {A} (P : St -> Prop) (g : St -> A) (Q : A -> St -> Prop) :
  (forall s, Inv s -> P s -> Q (g s) s) ->
  sound P (fun s => Val (g s) s) Q.
Proof. intros H s HI Hs. auto using mono_refl. Qed.

Lemma mono_same (s s' : St) :
  trace s' = trace s -> plugins s' = plugins s -> mono s s'.
Proof. intros Ht Hp. split; rewrite ?Ht, ?Hp; eauto. Qed.

Lemma mono_trace_snoc (s s' : St) (ev : Event) :
  trace s' = trace s ++ [ev] -> plugins s' = plugins s -> mono s s'.
Proof.
  intros Ht Hp. split; rewrite ?Ht, ?Hp; eauto.
  intros ev' H. apply in_or_app. now left.
Qed.

Lemma mono_insert (s s' : St) (p : PluginId) (pl x : Plugin) :
  trace s' = trace s ->
  plugins s !! p = Some pl ->
  plugins s' = <[p := x]> (plugins s) ->
  pl_func x = pl_func pl ->
  mono s s'.
Proof.
  intros Ht Hp Hs Hf. split; [rewrite Ht; auto|].
  intros c cl Hc. rewrite Hs. destruct (decide (c = p)) as [->|Hne].
  - exists x. split; [|congruence].
    apply list_lookup_insert_eq. eapply lookup_lt_Some; eauto.
  - exists cl. split; [|reflexivity].
    rewrite list_lookup_insert_ne by congruence. assumption.
Qed.

Lemma mono_alloc (s s' : St) (x : Plugin) :
  trace s' = trace s -> plugins s' = plugins s ++ [x] -> mono s s'.
Proof.
  intros Ht Hs. split; [rewrite Ht; auto|].
  intros c cl Hc. exists cl. split; [|reflexivity].
  rewrite Hs. rewrite lookup_app_l; [assumption|].
  eapply lookup_lt_Some; eauto.
Qed.

Lemma insert_plugin_q (s s' : St) (p : PluginId) (pl x : Plugin) :
  plugins s !! p = Some pl ->
  plugins s' = <[p := x]> (plugins s) ->
  (pl_q x = pl_q pl \/
   (queue_ok s' (pl_q x) /\ (released s' p \/ paused_idle (pl_q x)))) ->
  forall p' pl', plugins s' !! p' = Some pl' ->
    (exists pl0, plugins s !! p' = Some pl0 /\ pl_q pl' = pl_q pl0) \/
    (queue_ok s' (pl_q pl') /\ (released s' p' \/ paused_idle (pl_q pl'))).
Proof.
  intros Hp Hs Hx p' pl' Hp'. rewrite Hs in Hp'.
  destruct (decide (p' = p)) as [->|Hne].
  - rewrite list_lookup_insert_eq in Hp' by (eapply lookup_lt_Some; eauto).
    injection Hp' as <-. destruct Hx as [Hx|Hx]; [left; eauto|now right].
  - rewrite list_lookup_insert_ne in Hp' by congruence. left. eauto.
Qed.

(** Solves the side conditions of [Inv_step] for a store that differs from
    the old one in a few components. *)
Ltac inv_side :=
  first
    [ assumption
    | apply mono_refl
    | apply mono_same; reflexivity
    | eapply mono_trace_snoc; reflexivity
    | apply same_plugins_q; reflexivity
    | left; reflexivity
    | apply Forall_old
    | apply Forall_old_snoc; cbn; solve [auto]
    | apply Forall_old_filter
    | idtac ].

Ltac inv_step s := apply (Inv_step s); [assumption | ..]; inv_side.

Lemma sound_nextTick (t : Task) :
  sound (fun s => task_ok s t) (nextTick t) (fun _ _ => True).
Proof.
  apply sound_modify. intros s HI Ht.
  assert (Hm : mono s (with_ticks (fun l => l ++ [t]) s))
    by (apply mono_same; reflexivity).
  split; [|auto]. inv_step s. apply Forall_old_snoc.
  eapply task_ok_mono; eassumption.
Qed.

Lemma sound_queueMicrotask (t : Task) :
  sound (fun s => task_ok s t) (queueMicrotask t) (fun _ _ => True).
Proof.
  apply sound_modify. intros s HI Ht.
  assert (Hm : mono s (with_micros (fun l => l ++ [t]) s))
    by (apply mono_same; reflexivity).
  split; [|auto]. inv_step s. apply Forall_old_snoc.
  eapply task_ok_mono; eassumption.
Qed.

Lemma sound_log (ev : Event) :
  sound (fun _ => True) (log ev) (fun _ s => In ev (trace s)).
Proof.
  apply sound_modify. intros s HI _.
  assert (Hm : mono s (with_trace (fun l => l ++ [ev]) s))
    by (eapply mono_trace_snoc; reflexivity).
  split; [inv_step s|]. split; [assumption|].
  cbn. apply in_or_app. right. now left.
Qed.

Lemma sound_emit (who : option PluginId) (ev : string) :
  sound (fun _ => True) (emit who ev)
        (fun _ s => In (EvEmit who ev) (trace s)).
Proof. apply (sound_log (EvEmit who ev)). Qed.

Lemma sound_setTimeout (t : Task) (ms : nat) :
  sound (fun s => task_ok s t) (setTimeout t ms) (fun _ _ => True).
Proof.
  intros s HI Ht. unfold setTimeout. cbv beta zeta iota.
  match goal with |- Inv ?s1 /\ _ =>
    assert (Hm : mono s s1) by (apply mono_same; reflexivity) end.
  split; [|auto]. inv_step s. apply Forall_old_snoc. cbn.
  eapply task_ok_mono; eassumption.
Qed.

Lemma sound_clearTimeout (id : TimerId) :
  sound (fun _ => True) (clearTimeout id) (fun _ _ => True).
Proof.
  apply sound_modify. intros s HI _.
  match goal with |- Inv ?s1 /\ _ =>
    assert (Hm : mono s s1) by (apply mono_same; reflexivity) end.
  split; [|auto]. inv_step s.
Qed.

Definition avvio_ok (a : Avvio) (s : St) : Prop :=
  optcont_ok s (av_doStart a) /\ queue_ok s (av_readyQ a) /\
  queue_ok s (av_closeQ a) /\ (av_root a = Some 0 \/ av_root a = None).

Definition read_queue_ok (q : QId) (Q : Queue) (s : St) : Prop :=
  queue_ok s Q /\ (q_ok s q \/ paused_idle Q).

Lemma sound_the_avvio (P : St -> Prop) : sound P the_avvio avvio_ok.
Proof.
  apply sound_read. intros s HI _. destruct HI as [? [? ?] ? ? ? ? ? ? ?].
  unfold avvio_ok. auto.
Qed.

Lemma sound_get (P : St -> Prop) : sound P get (fun _ _ => True).
Proof. apply sound_read. auto. Qed.

Lemma sound_get_plugin (P : St -> Prop) (p : PluginId) :
  sound P (get_plugin p) (fun pl s => read_queue_ok (QPlugin p) (pl_q pl) s).
Proof.
  intros s HI _. unfold get_plugin.
  destruct (plugins s !! p) as [pl|] eqn:Hp; [|auto using mono_refl].
  split; [assumption|]. split; [apply mono_refl|].
  destruct HI as [Iq]. apply (Iq p pl Hp).
Qed.

Lemma sound_get_q (P : St -> Prop) (q : QId) :
  sound P (get_q q) (read_queue_ok q).
Proof.
  destruct q as [p| |]; cbn [get_q].
  - intros s HI _. unfold bind, get_plugin, ret.
    destruct (plugins s !! p) as [pl|] eqn:Hp; [|auto using mono_refl].
    split; [assumption|]. split; [apply mono_refl|].
    destruct HI as [Iq]. apply (Iq p pl Hp).
  - intros s HI _. cbn. split; [assumption|]. split; [apply mono_refl|].
    apply HI.
  - intros s HI _. cbn. split; [assumption|]. split; [apply mono_refl|].
    split; [apply HI|now left].
Qed.

Lemma sound_promise_state (P : St -> Prop) (pr : PromiseId) :
  sound P (promise_state pr) (fun st s => promise_ok s st).
Proof.
  intros s HI _. unfold promise_state.
  destruct (promises s !! pr) as [st|] eqn:Hp; [|auto using mono_refl].
  split; [assumption|]. split; [apply mono_refl|].
  destruct HI. eapply Forall_lookup_1; eassumption.
Qed.

(** Updates of the orchestrator that leave its queues alone. *)
Lemma sound_update_avvio (f : Avvio -> Avvio) (P : St -> Prop) :
  (forall a, av_readyQ (f a) = av_readyQ a /\ av_closeQ (f a) = av_closeQ a /\
             (av_root (f a) = av_root a \/ av_root (f a) = None)) ->
  (forall s, P s -> forall a, av_doStart (f a) = av_doStart a \/
                              optcont_ok s (av_doStart (f a))) ->
  sound P (update_avvio f) (fun _ _ => True).
Proof.
  intros Hf Hd. apply sound_modify. intros s HI HP.
  assert (Hm : mono s (with_avvio f s)) by (apply mono_same; reflexivity).
  destruct (Hf (avvio s)) as (H1 & H2 & H3).
  split; [|auto]. inv_step s; cbn; auto.
  destruct (Hd s HP (avvio s)) as [H|H]; [now left|right].
  eapply optcont_ok_mono; eassumption.
Qed.

(** Updates of a plugin that leave its queue and its function alone. *)
Lemma sound_update_plugin (p : PluginId) (f : Plugin -> Plugin) (P : St -> Prop) :
  (forall pl, pl_q (f pl) = pl_q pl /\ pl_func (f pl) = pl_func pl) ->
  sound P (update_plugin p f) (fun _ _ => True).
Proof.
  intros Hf. apply sound_modify. intros s HI _. unfold with_plugins.
  destruct (plugins s !! p) as [pl|] eqn:Hp.
  - destruct (Hf pl) as [Hq Hfn].
    match goal with |- Inv ?s1 /\ _ =>
      assert (Hm : mono s s1) by (eapply mono_insert; eauto; reflexivity) end.
    split; [|auto]. inv_step s.
    eapply insert_plugin_q; [eassumption|reflexivity|now left].
  - match goal with |- Inv ?s1 /\ _ =>
      assert (Hm : mono s s1) by (apply mono_same; reflexivity) end.
    split; [|auto]. inv_step s.
Qed.

(** Updates of a queue: the new queue must be fine, and unless the queue
    is that of a released unit, stay paused and idle if it was. *)
Lemma sound_update_q (q : QId) (f : Queue -> Queue) (P : St -> Prop) :
  (forall s Q, P s -> queue_ok s Q -> queue_ok s (f Q)) ->
  (forall s, P s -> q_ok s q \/ forall Q, paused_idle Q -> paused_idle (f Q)) ->
  sound P (update_q q f) (fun _ _ => True).
Proof.
  intros Hok Hidle. destruct q as [p| |]; cbn [update_q].
  - apply sound_modify. intros s HI HP. unfold with_plugins.
    destruct (plugins s !! p) as [pl|] eqn:Hp.
    + match goal with |- Inv ?s1 /\ _ =>
        assert (Hm : mono s s1)
          by (eapply mono_insert; eauto; destruct pl; reflexivity) end.
      split; [|auto]. inv_step s.
      eapply insert_plugin_q; [eassumption|reflexivity|]. right.
      replace (pl_q (set_pl_q (f (pl_q pl)) pl)) with (f (pl_q pl))
        by (destruct pl; reflexivity).
      destruct HI as [Iq]. destruct (Iq p pl Hp) as [Hq Hr]. split.
      * eapply queue_ok_mono; [eassumption|]. now apply Hok.
      * destruct (Hidle s HP) as [H|H].
        -- left. eapply released_mono; eassumption.
        -- destruct Hr as [Hr|Hr]; [left|right; auto].
           eapply released_mono; eassumption.
    + match goal with |- Inv ?s1 /\ _ =>
        assert (Hm : mono s s1) by (apply mono_same; reflexivity) end.
      split; [|auto]. inv_step s.
  - apply sound_modify. intros s HI HP.
    assert (Hm : mono s (with_avvio (fun a => set_readyQ (f (av_readyQ a)) a) s))
      by (apply mono_same; reflexivity).
    split; [|auto]. inv_step s. right. cbn.
    destruct (inv_readyQ s HI) as [Hq Hr]. split.
    + eapply queue_ok_mono; [eassumption|]. now apply Hok.
    + destruct (Hidle s HP) as [H|H].
      * left. eapply root_done_mono; eassumption.
      * destruct Hr as [Hr|Hr]; [left|right; auto].
        eapply root_done_mono; eassumption.
  - apply sound_modify. intros s HI HP.
    assert (Hm : mono s (with_avvio (fun a => set_closeQ (f (av_closeQ a)) a) s))
      by (apply mono_same; reflexivity).
    split; [|auto]. inv_step s. right. cbn.
    eapply queue_ok_mono; [eassumption|]. apply Hok; [assumption|apply HI].
Qed.

Lemma sound_alloc_plugin (pl : Plugin) :
  sound (fun s => queue_ok s (pl_q pl) /\ paused_idle (pl_q pl))
        (alloc_plugin pl)
        (fun id s => exists cl, plugins s !! id = Some cl /\
                                pl_func cl = pl_func pl).
Proof.
  intros s HI [Hq Hi]. unfold alloc_plugin.
  match goal with |- Inv ?s1 /\ _ =>
    assert (Hm : mono s s1) by (eapply mono_alloc; reflexivity) end.
  split; [|split; [assumption|]].
  - inv_step s. intros p pl' Hp. cbn in Hp.
    apply lookup_app_Some in Hp. destruct Hp as [Hp|[_ Hp]]; [left; eauto|].
    right. destruct (p - List.length (plugins s)); [|discriminate].
    injection Hp as <-. split; [|now right].
    eapply queue_ok_mono; eassumption.
  - exists pl. split; [|reflexivity]. cbn. now apply list_lookup_middle.
Qed.

Lemma sound_createPromise (P : St -> Prop) :
  sound P createPromise (fun _ _ => True).
Proof.
  intros s HI _. unfold createPromise.
  match goal with |- Inv ?s1 /\ _ =>
    assert (Hm : mono s s1) by (apply mono_same; reflexivity) end.
  split; [|auto]. inv_step s.
Qed.

Lemma sound_Promise_resolve (P : St -> Prop) :
  sound P Promise_resolve (fun _ _ => True).
Proof.
  intros s HI _. unfold Promise_resolve.
  match goal with |- Inv ?s1 /\ _ =>
    assert (Hm : mono s s1) by (apply mono_same; reflexivity) end.
  split; [|auto]. inv_step s.
Qed.

Lemma Forall_old_insert {A} (P : A -> Prop) (l : list A) (i : nat) (x : A) :
  P x -> Forall (fun y => In y l \/ P y) (<[i := x]> l).
Proof.
  intros Hx. apply Forall_insert; [apply Forall_old|now right].
Qed.

Lemma sound_set_promise (pr : PromiseId) (st : PromiseState) :
  sound (fun s => promise_ok s st) (modify (with_promises (<[pr := st]>)))
        (fun _ _ => True).
Proof.
  apply sound_modify. intros s HI Hst.
  assert (Hm : mono s (with_promises (<[pr := st]>) s))
    by (apply mono_same; reflexivity).
  split; [|auto]. inv_step s. apply Forall_old_insert.
  eapply promise_ok_mono; eassumption.
Qed.

Lemma sound_queueReactions (l : list Task) :
  sound (fun s => Forall (task_ok s) l) (queueReactions l) (fun _ _ => True).
Proof.
  apply sound_modify. intros s HI Hl.
  assert (Hm : mono s (with_micros (fun m => m ++ l) s))
    by (apply mono_same; reflexivity).
  split; [|auto]. inv_step s. apply Forall_app. split; [apply Forall_old|].
  eapply Forall_impl; [exact Hl|]. intros t Ht. right.
  eapply task_ok_mono; eassumption.
Qed.

Lemma sound_alloc_cell (P : St -> Prop) : sound P alloc_cell (fun _ _ => True).
Proof.
  intros s HI _. unfold alloc_cell.
  match goal with |- Inv ?s1 /\ _ =>
    assert (Hm : mono s s1) by (apply mono_same; reflexivity) end.
  split; [|auto]. inv_step s.
Qed.

Lemma sound_set_cell (P : St -> Prop) (f : list (option TimerId) -> list (option TimerId)) :
  sound P (modify (with_cells f)) (fun _ _ => True).
Proof.
  apply sound_modify. intros s HI _.
  assert (Hm : mono s (with_cells f s)) by (apply mono_same; reflexivity).
  split; [|auto]. inv_step s.
Qed.

(** The queue updates the engine performs. *)
Lemma sound_set_paused_true (q : QId) (P : St -> Prop) :
  sound P (update_q q (set_paused true)) (fun _ _ => True).
Proof.
  apply sound_update_q.
  - intros s Q _ H. exact H.
  - intros s _. right. intros Q [H1 H2]. split; [reflexivity|exact H2].
Qed.

Lemma sound_set_paused_false (q : QId) :
  sound (fun s => q_ok s q) (update_q q (set_paused false)) (fun _ _ => True).
Proof.
  apply sound_update_q.
  - intros s Q _ H. exact H.
  - intros s H. now left.
Qed.

Lemma sound_set_running (q : QId) (n : Z) :
  sound (fun s => q_ok s q) (update_q q (set_running n)) (fun _ _ => True).
Proof.
  apply sound_update_q.
  - intros s Q _ H. exact H.
  - intros s H. now left.
Qed.

Lemma sound_set_items (q : QId) (l : list (Item * Cont)) :
  sound (fun s => Forall (fun it => cont_ok s (snd it)) l)
        (update_q q (set_items l)) (fun _ _ => True).
Proof.
  apply sound_update_q.
  - intros s Q Hl [_ Hd]. split; assumption.
  - intros s _. right. intros Q H. exact H.
Qed.

Lemma sound_set_drain (q : QId) (d : Drain) :
  sound (fun s => drain_ok s d) (update_q q (set_drain d)) (fun _ _ => True).
Proof.
  apply sound_update_q.
  - intros s Q Hd [Hi _]. split; assumption.
  - intros s _. right. intros Q H. exact H.
Qed.

Lemma avvio_ok_mono (s s' : St) (a : Avvio) :
  mono s s' -> avvio_ok a s -> avvio_ok a s'.
Proof.
  intros Hm (H1 & H2 & H3 & H4).
  split; [|split; [|split]]; eauto using optcont_ok_mono, queue_ok_mono.
Qed.

Lemma read_queue_ok_mono (s s' : St) (q : QId) (Q : Queue) :
  mono s s' -> read_queue_ok q Q s -> read_queue_ok q Q s'.
Proof.
  intros Hm [H1 [H2|H2]]; (split; [eauto using queue_ok_mono|]);
    [left; eauto using q_ok_mono|now right].
Qed.

Lemma in_trace_mono (s s' : St) (ev : Event) :
  mono s s' -> In ev (trace s) -> In ev (trace s').
Proof. intros [H _]. apply H. Qed.

Lemma plugin_func_mono (s s' : St) (id : PluginId) (f : Func) :
  mono s s' ->
  (exists cl, plugins s !! id = Some cl /\ pl_func cl = f) ->
  exists cl, plugins s' !! id = Some cl /\ pl_func cl = f.
Proof.
  intros [_ H] (cl & Hc & Hf). destruct (H id cl Hc) as (cl' & Hc' & Hf').
  exists cl'. split; congruence.
Qed.

Lemma Forall_cont_ok_mono (s s' : St) (l : list (Item * Cont)) :
  mono s s' ->
  Forall (fun it => cont_ok s (snd it)) l ->
  Forall (fun it => cont_ok s' (snd it)) l.
Proof.
  intros Hm H. eapply Forall_impl; [exact H|]. intros it.
  now apply cont_ok_mono.
Qed.

Lemma Forall_task_ok_mono (s s' : St) (l : list Task) :
  mono s s' -> Forall (task_ok s) l -> Forall (task_ok s') l.
Proof.
  intros Hm H. eapply Forall_impl; [exact H|]. intros it.
  now apply task_ok_mono.
Qed.

Create HintDb mono discriminated.
#[local] Hint Resolve released_mono q_ok_mono cont_ok_mono optcont_ok_mono
  task_ok_mono drain_ok_mono queue_ok_mono promise_ok_mono avvio_ok_mono
  read_queue_ok_mono in_trace_mono plugin_func_mono Forall_cont_ok_mono
  Forall_task_ok_mono : mono.

Ltac split_hyps :=
  repeat match goal with
  | H : _ /\ _ |- _ => destruct H
  | H : True |- _ => clear H
  end.

(** Stability of a conjunction of facts about continuations and queues. *)
Ltac stab :=
  let s := fresh "s" in let s' := fresh "s'" in
  let Hm := fresh "Hm" in let H := fresh "H" in
  intros s s' Hm H; cbv beta in *; split_hyps;
  repeat match goal with |- _ /\ _ => split end; eauto with mono.

(** Entailment between such conjunctions. *)
Ltac use_reads :=
  repeat match goal with
  | Heq : drain ?Q = _, H : drain_ok _ (drain ?Q) |- _ => rewrite Heq in H
  | Heq : items ?Q = _, H : Forall _ (items ?Q) |- _ => rewrite Heq in H
  | Heq : av_doStart ?a = _, H : optcont_ok _ (av_doStart ?a) |- _ =>
      rewrite Heq in H
  | H : Forall _ (_ :: _) |- _ =>
      let H1 := fresh "H" in let H2 := fresh "H" in
      apply Forall_cons in H; destruct H as [H1 H2]
  end.

Ltac side :=
  first
    [ solve [let s := fresh "s" in let H := fresh "H" in intros s H; exact H]
    | let s := fresh "s" in let H := fresh "H" in
      intros s H; cbv beta in *; split_hyps;
      unfold read_queue_ok, avvio_ok, queue_ok in *; split_hyps; use_reads;
      cbn [task_ok cont_ok optcont_ok q_ok drain_ok promise_ok fst snd] in *;
      split_hyps;
      try solve [repeat match goal with |- _ /\ _ => split end; auto];
      try tauto ].

Lemma sound_bind' {A B} (P P1 : St -> Prop) (m : M A) (Q : A -> St -> Prop)
    (k : A -> M B) (R : B -> St -> Prop) :
  stable P ->
  sound P1 m Q ->
  (forall s, P s -> P1 s) ->
  (forall a, sound (fun s => P s /\ Q a s) (k a) R) ->
  sound P (bind m k) R.
Proof.
  intros HP Hm H1 Hk. eapply sound_bind; [assumption| |exact Hk].
  eapply sound_weaken; [exact Hm|exact H1|auto].
Qed.

Lemma sound_last {A} (P P1 : St -> Prop) (m : M A) (Q R : A -> St -> Prop) :
  sound P1 m Q ->
  (forall s, P s -> P1 s) ->
  (forall a s, Q a s -> R a s) ->
  sound P m R.
Proof. intros. eapply sound_weaken; eauto. Qed.

Lemma sound_try_catch {A} (P : St -> Prop) (m : M A) (h : Error -> M A)
    (Q R : A -> St -> Prop) :
  stable P ->
  sound P m Q ->
  (forall e, sound P (h e) R) ->
  (forall a s, Q a s -> R a s) ->
  sound P (try_catch m h) R.
Proof.
  intros HP Hm Hh HQ s HI Hs. unfold try_catch. specialize (Hm s HI Hs).
  destruct (m s) as [a s1|e s1|]; [|clear HQ|exact I].
  - destruct Hm as (H1 & H2 & H3). auto.
  - destruct Hm as (HI1 & Hm1). specialize (Hh e s1 HI1 (HP _ _ Hm1 Hs)).
    destruct (h e s1) as [b s2|e' s2|]; [| |exact I].
    + destruct Hh as (H1 & H2 & H3). eauto using mono_trans.
    + destruct Hh as (H1 & H2). eauto using mono_trans.
Qed.

Create HintDb sound discriminated.
#[local] Hint Resolve sound_nextTick sound_queueMicrotask sound_log sound_emit
  sound_setTimeout sound_clearTimeout sound_the_avvio sound_get
  sound_get_plugin sound_get_q sound_promise_state sound_alloc_plugin
  sound_createPromise sound_Promise_resolve sound_set_promise
  sound_alloc_cell sound_set_cell sound_set_paused_true
  sound_set_paused_false sound_set_running sound_set_items sound_set_drain
  : sound.

Ltac sound_prim := solve [eauto 2 with sound nocore].

(** One step through a monadic body. *)
Ltac sound_step :=
  lazymatch goal with
  | |- sound _ (bind (if ?b then _ else _) _) _ => destruct b eqn:?
  | |- sound _ (bind (match ?x with _ => _ end) _) _ => destruct x eqn:?
  | |- sound _ (bind _ _) _ =>
      first
        [ eapply sound_bind'; [stab | sound_prim | try side | intros ?]
        | eapply (sound_bind _ _ (fun _ _ => True)); [stab | | intros ?] ]
  | |- sound _ (ret _) _ => apply sound_ret; try side
  | |- sound _ (throw _) _ => apply sound_throw
  | |- sound _ (try_catch _ _) _ =>
      eapply sound_try_catch; [stab | | intros ? | try (intros; exact I)]
  | |- sound _ (if ?b then _ else _) _ => destruct b eqn:?
  | |- sound _ (match ?x with _ => _ end) _ => destruct x eqn:?
  | |- sound _ (let _ := _ in _) _ => cbv zeta
  | |- sound _ _ _ =>
      eapply sound_last; [sound_prim | try side | try (intros; exact I)]
  end.

Ltac sound_go := repeat sound_step.

Lemma sound_call_drain (q : QId) (P : St -> Prop) :
  stable P -> sound P (call_drain q) (fun _ _ => True).
Proof.
  intros HP. unfold call_drain.
  eapply sound_bind'; [exact HP|sound_prim|side|intros Q].
  sound_go.
Qed.

Lemma sound_then_ret (r : Ret) (ok : Task) (ko : Error -> Task) :
  sound (fun s => task_ok s ok /\ forall e, task_ok s (ko e))
        (then_ret r ok ko) (fun _ _ => True).
Proof. unfold then_ret. sound_go. Qed.

Lemma sound_then_ (pr : PromiseId) (ok : Task) (ko : Error -> Task) :
  sound (fun s => task_ok s ok /\ forall e, task_ok s (ko e))
        (then_ pr ok ko) (fun _ _ => True).
Proof.
  unfold then_. sound_go.
  cbn in *. apply Forall_app. split; [assumption|].
  constructor; [|constructor]. cbn. auto.
Qed.

Lemma sound_resolve (pr : PromiseId) (P : St -> Prop) :
  stable P -> sound P (resolve pr) (fun _ _ => True).
Proof.
  intros HP. unfold resolve.
  eapply sound_bind'; [exact HP|sound_prim|side|intros st].
  sound_go.
  eapply sound_last; [apply sound_queueReactions|side|auto]. cbn in *.
  match goal with H : Forall _ ?rs |- Forall _ (map _ ?rs) =>
    apply List.Forall_map; eapply Forall_impl; [exact H|];
    cbn; intros r [Hr1 Hr2]; auto
  end.
Qed.

Lemma sound_reject (pr : PromiseId) (e : Error) (P : St -> Prop) :
  stable P -> sound P (reject pr e) (fun _ _ => True).
Proof.
  intros HP. unfold reject.
  eapply sound_bind'; [exact HP|sound_prim|side|intros st].
  sound_go.
  eapply sound_last; [apply sound_queueReactions|side|auto]. cbn in *.
  match goal with H : Forall _ ?rs |- Forall _ (map _ ?rs) =>
    apply List.Forall_map; eapply Forall_impl; [exact H|];
    cbn; intros r [Hr1 Hr2]; auto
  end.
Qed.

(** The calls through closure values keep [Inv], given continuations
    that are fine. *)
Definition E_sound (E : Calls) : Prop :=
  (forall k err, sound (fun s => cont_ok s k) (calls_cont E k err)
                       (fun _ _ => True)) /\
  (forall f args d, sound (fun s => optcont_ok s d) (calls_func E f args d)
                          (fun _ _ => True)).

Section Soundness.

Variable E : Calls.
Hypothesis HE : E_sound E.

Lemma sound_calls_cont (k : Cont) (err : option Error) :
  sound (fun s => cont_ok s k) (calls_cont E k err) (fun _ _ => True).
Proof. apply HE. Qed.

Lemma sound_calls_func (f : Func) (args : list Arg) (d : option Cont) :
  sound (fun s => optcont_ok s d) (calls_func E f args d) (fun _ _ => True).
Proof. apply HE. Qed.

#[local] Hint Resolve sound_calls_cont sound_calls_func sound_then_ret
  sound_then_ : sound.

Lemma sound_executeWithThenable (func : Func) (args : list Arg) (callback : Cont) :
  sound (fun s => cont_ok s callback)
        (executeWithThenable E func args callback) (fun _ _ => True).
Proof. unfold executeWithThenable. sound_go. Qed.

Lemma sound_setupTimeout (func : Func) (rootError : option Error)
    (context : nat) (callback : Cont) :
  sound (fun s => cont_ok s callback)
        (setupTimeout E func rootError context callback) (fun _ _ => True).
Proof. unfold setupTimeout. sound_go. Qed.

Lemma sound_update_avvio_error (e : option Error) (P : St -> Prop) :
  sound P (update_avvio (set_error e)) (fun _ _ => True).
Proof.
  apply sound_update_avvio; [intros []; cbn; auto|].
  intros s _ []. now left.
Qed.

#[local] Hint Resolve sound_update_avvio_error : sound.

Lemma sound_readyTimeout (cell : nat) (func : Func) (callback : Cont) :
  sound (fun s => cont_ok s callback)
        (readyTimeout E cell func callback) (fun _ _ => True).
Proof. unfold readyTimeout. sound_go. Qed.

Lemma sound_timeoutCallback (cell : nat) (callback : Cont) (error : option Error) :
  sound (fun s => cont_ok s callback)
        (timeoutCallback E cell callback error) (fun _ _ => True).
Proof. unfold timeoutCallback. sound_go. Qed.

#[local] Hint Resolve sound_executeWithThenable sound_setupTimeout
  sound_readyTimeout sound_timeoutCallback : sound.

Lemma sound_callWithCallbackOrNextTick (func : Func) (callback : Cont) :
  sound (fun s => cont_ok s callback)
        (callWithCallbackOrNextTick E func callback) (fun _ _ => True).
Proof. unfold callWithCallbackOrNextTick. sound_go. Qed.

Lemma sound_closeWithCallbackOrNextTick (func : Func) (tag : bool)
    (callback : Cont) :
  sound (fun s => cont_ok s callback)
        (closeWithCallbackOrNextTick E func tag callback) (fun _ _ => True).
Proof. unfold closeWithCallbackOrNextTick. sound_go. Qed.

Lemma sound_loadPluginNextTick (plugin : PluginId) (callback : Cont) :
  sound (fun s => cont_ok s callback)
        (loadPluginNextTick plugin callback) (fun _ _ => True).
Proof. unfold loadPluginNextTick. sound_go. Qed.

#[local] Hint Resolve sound_callWithCallbackOrNextTick
  sound_closeWithCallbackOrNextTick sound_loadPluginNextTick : sound.

Lemma sound_worker (q : QId) (value : Item) (callback : Cont) :
  sound (fun s => cont_ok s callback) (worker E q value callback)
        (fun _ _ => True).
Proof. unfold worker. sound_go. Qed.

#[local] Hint Resolve sound_worker : sound.

Lemma sound_call_drain' (q : QId) :
  sound (fun _ => True) (call_drain q) (fun _ _ => True).
Proof. apply sound_call_drain. intros s s' _ _. exact I. Qed.

#[local] Hint Resolve sound_call_drain' : sound.

Lemma sound_fastq_release (q : QId) :
  sound (fun s => q_ok s q) (fastq_release E q) (fun _ _ => True).
Proof. unfold fastq_release. sound_go. Qed.

#[local] Hint Resolve sound_fastq_release : sound.

Lemma sound_fastq_resume_loop (n : nat) (q : QId) :
  sound (fun s => q_ok s q) (fastq_resume_loop E n q) (fun _ _ => True).
Proof.
  induction n as [|n IH]; cbn [fastq_resume_loop]; sound_go.
  intros s _ _. exact I.
Qed.

#[local] Hint Resolve sound_fastq_resume_loop : sound.

Lemma sound_fastq_resume (q : QId) :
  sound (fun s => q_ok s q) (fastq_resume E q) (fun _ _ => True).
Proof. unfold fastq_resume. sound_go. Qed.

(** A queue read as neither busy nor paused belongs to a released unit. *)
Lemma not_idle_q (s : St) (q : QId) (Q : Queue) (b : bool) :
  q_ok s q \/ paused_idle Q -> b || paused Q = false -> q_ok s q.
Proof.
  intros [H|[Hp _]] Hb; [assumption|].
  rewrite Hp, orb_true_r in Hb. discriminate.
Qed.

Ltac not_idle := eapply not_idle_q; eassumption.

Lemma sound_fastq_push (q : QId) (value : Item) (done : Cont) :
  sound (fun s => cont_ok s done) (fastq_push E q value done) (fun _ _ => True).
Proof.
  unfold fastq_push. sound_go.
  - apply Forall_app. split; [assumption|]. constructor; [assumption|constructor].
  - not_idle.
  - split; [not_idle|assumption].
Qed.

Lemma sound_fastq_unshift (q : QId) (value : Item) (done : Cont) :
  sound (fun s => cont_ok s done) (fastq_unshift E q value done)
        (fun _ _ => True).
Proof.
  unfold fastq_unshift. sound_go.
  - not_idle.
  - split; [not_idle|assumption].
Qed.

Lemma sound_fastq_worked (q : QId) (callback : Cont) (err : option Error) :
  sound (fun s => q_ok s q /\ cont_ok s callback)
        (fastq_worked E q callback err) (fun _ _ => True).
Proof. unfold fastq_worked. sound_go. Qed.

#[local] Hint Resolve sound_fastq_resume sound_fastq_push sound_fastq_unshift
  sound_fastq_worked : sound.

Lemma released_settled (s : St) (p : PluginId) :
  In (EvDebug "finish" p) (trace s) -> released s p.
Proof. intros H. right. now left. Qed.

Lemma released_partial (s : St) (p id : PluginId) :
  (exists cl, plugins s !! id = Some cl /\ pl_func cl = FAfter (FLoadedSoFar p)) ->
  released s p.
Proof. intros (cl & H1 & H2). right. right. exists id, cl. auto. Qed.

Lemma sound_update_doStart (d : option Cont) :
  sound (fun s => optcont_ok s d) (update_avvio (set_doStart d))
        (fun _ _ => True).
Proof.
  apply sound_update_avvio; [intros []; cbn; auto|].
  intros s H []. now right.
Qed.

Lemma sound_alloc_new_plugin (a : Avvio) (func : Func) (isAfter : bool)
    (timeout : option nat) (P : St -> Prop) :
  sound P (alloc_plugin (new_Plugin a func isAfter timeout))
        (fun id s => exists cl, plugins s !! id = Some cl /\ pl_func cl = func).
Proof.
  eapply sound_last; [apply sound_alloc_plugin| |auto].
  intros s _. cbn. repeat split; constructor.
Qed.

Lemma sound_repeatM (n : nat) (m : M unit) :
  sound (fun _ => True) m (fun _ _ => True) ->
  sound (fun _ => True) (repeatM n m) (fun _ _ => True).
Proof.
  intros Hm. induction n as [|n IH]; cbn [repeatM].
  - apply sound_ret. intros; exact I.
  - eapply sound_bind; [intros ? ? ? ?; exact I|exact Hm|].
    intros ?. eapply sound_last; [exact IH|intros; exact I|intros; exact I].
Qed.

#[local] Hint Resolve sound_update_doStart sound_alloc_new_plugin : sound.

Ltac sound_prim ::=
  first
    [ solve [eauto 2 with sound nocore]
    | solve [apply sound_update_plugin; intros []; split; reflexivity]
    | solve [apply sound_update_avvio;
             [intros []; cbn; auto | intros ? ? []; now left]] ].

Ltac side ::=
  first
    [ solve [let s := fresh "s" in let H := fresh "H" in intros s H; exact H]
    | let s := fresh "s" in let H := fresh "H" in
      intros s H; cbv beta in *; split_hyps;
      unfold read_queue_ok, avvio_ok, queue_ok in *; split_hyps; use_reads;
      cbn [task_ok cont_ok optcont_ok q_ok drain_ok promise_ok fst snd] in *;
      unfold root_done in *; split_hyps; subst;
      try solve [repeat match goal with |- _ /\ _ => split end;
                 eauto using released_settled, released_partial];
      try tauto ].

Lemma sound_ret_eq {A} (P : St -> Prop) (a : A) :
  sound P (ret a) (fun x _ => x = a).
Proof. apply sound_ret. reflexivity. Qed.

#[local] Hint Resolve sound_ret_eq : sound.

Lemma sound_enqueue (p obj : PluginId) (callback : Cont) :
  sound (fun s => cont_ok s callback) (enqueue E p obj callback)
        (fun _ _ => True).
Proof. unfold enqueue. sound_go. Qed.

#[local] Hint Resolve sound_enqueue : sound.

Lemma sound_addPlugin (func : Func) (isAfter : bool) :
  sound (fun _ => True) (_addPlugin E (Some func) isAfter)
        (fun id s => exists cl, plugins s !! id = Some cl /\ pl_func cl = func).
Proof. unfold _addPlugin, validatePluginFunction. sound_go. Qed.

Lemma sound_addPlugin_any (func : option Func) (isAfter : bool) :
  sound (fun _ => True) (_addPlugin E func isAfter) (fun _ _ => True).
Proof.
  destruct func as [f|].
  - eapply sound_last; [apply sound_addPlugin|auto|auto].
  - intros s HI _. cbn. auto using mono_refl.
Qed.

#[local] Hint Resolve sound_addPlugin_any : sound.

Lemma sound_setup (p : PluginId) :
  sound (fun _ => True) (setup E p) (fun _ _ => True).
Proof.
  unfold setup.
  eapply sound_bind'; [stab|apply sound_addPlugin|side|intros id].
  sound_go.
Qed.

Lemma sound_resolve' (pr : PromiseId) :
  sound (fun _ => True) (resolve pr) (fun _ _ => True).
Proof. apply sound_resolve. intros ? ? ? ?; exact I. Qed.

Lemma sound_reject' (pr : PromiseId) (e : Error) :
  sound (fun _ => True) (reject pr e) (fun _ _ => True).
Proof. apply sound_reject. intros ? ? ? ?; exact I. Qed.

#[local] Hint Resolve sound_resolve' sound_reject' : sound.

Lemma sound_loadedSoFar_after (p : PluginId) (err : option Error) (callback : Cont) :
  sound (fun s => cont_ok s callback) (loadedSoFar_after p err callback)
        (fun _ _ => True).
Proof. unfold loadedSoFar_after. sound_go. Qed.

#[local] Hint Resolve sound_setup sound_loadedSoFar_after : sound.

Lemma sound_loadedSoFar (p : PluginId) :
  sound (fun _ => True) (loadedSoFar E p) (fun _ _ => True).
Proof. unfold loadedSoFar. sound_go. Qed.

#[local] Hint Resolve sound_loadedSoFar : sound.

Lemma sound_exec_done (p : PluginId) (callback : Cont) (err : option Error) :
  sound (fun s => cont_ok s callback) (exec_done E p callback err)
        (fun _ _ => True).
Proof. unfold exec_done. sound_go. Qed.

#[local] Hint Resolve sound_exec_done : sound.

Lemma sound_exec_timeout (p : PluginId) (callback : Cont) :
  sound (fun s => cont_ok s callback) (exec_timeout E p callback)
        (fun _ _ => True).
Proof. unfold exec_timeout. sound_go. Qed.

Lemma sound_repeat_setup (n : nat) (p : PluginId) :
  sound (fun _ => True) (repeatM n (setup E p)) (fun _ _ => True).
Proof. apply sound_repeatM, sound_setup. Qed.

#[local] Hint Resolve sound_exec_timeout sound_repeat_setup : sound.

Lemma sound_exec (p : PluginId) (server : nat) (callback : Cont) :
  sound (fun s => cont_ok s callback) (exec E p server callback)
        (fun _ _ => True).
Proof. unfold exec. sound_go. Qed.

Lemma sound_finish_done (p : PluginId) (err : option Error) (callback : Cont) :
  sound (fun s => cont_ok s callback) (finish_done E p err callback)
        (fun _ _ => True).
Proof. unfold finish_done. sound_go. Qed.

#[local] Hint Resolve sound_exec sound_finish_done : sound.

Lemma sound_fastq_length (q : QId) (P : St -> Prop) :
  sound P (fastq_length q) (fun _ _ => True).
Proof.
  intros s HI HP. unfold fastq_length, bind.
  pose proof (sound_get_q P q s HI HP) as H.
  destruct (get_q q s); [|tauto|exact I]. cbn. tauto.
Qed.

Lemma sound_fastq_running (q : QId) (P : St -> Prop) :
  sound P (fastq_running q) (fun _ _ => True).
Proof.
  intros s HI HP. unfold fastq_running, bind.
  pose proof (sound_get_q P q s HI HP) as H.
  destruct (get_q q s); [|tauto|exact I]. cbn. tauto.
Qed.

#[local] Hint Resolve sound_fastq_length sound_fastq_running : sound.

Lemma sound_check (p : PluginId) (callback : Cont) :
  sound (fun s => cont_ok s callback) (check E p callback) (fun _ _ => True).
Proof. unfold check. sound_go. Qed.

Lemma sound_wrap (p : PluginId) (callback : Cont) :
  sound (fun s => cont_ok s callback) (wrap p callback) (fun _ _ => True).
Proof. unfold wrap. sound_go. Qed.

Lemma sound_finish (p : PluginId) (err : option Error) (callback : Cont) :
  sound (fun s => cont_ok s callback) (finish E p err callback)
        (fun _ _ => True).
Proof. unfold finish. sound_go. Qed.

#[local] Hint Resolve sound_check sound_wrap sound_finish : sound.

Lemma sound_loadPlugin (plugin : PluginId) (callback : Cont) :
  sound (fun s => cont_ok s callback) (loadPlugin E plugin callback)
        (fun _ _ => True).
Proof. unfold loadPlugin. sound_go. Qed.

Lemma sound_loadPlugin_finished (callback : Cont) (err : option Error) :
  sound (fun s => cont_ok s callback) (loadPlugin_finished E callback err)
        (fun _ _ => True).
Proof. unfold loadPlugin_finished. sound_go. Qed.

Lemma sound_start : sound (fun _ => True) start (fun _ _ => True).
Proof. unfold start. sound_go. Qed.

#[local] Hint Resolve sound_loadPlugin sound_loadPlugin_finished sound_start
  : sound.

Lemma sound_use (plugin : option Func) :
  sound (fun _ => True) (use E plugin) (fun _ _ => True).
Proof. unfold use. sound_go. Qed.

Lemma sound_loadRegistered :
  sound (fun _ => True) (_loadRegistered E) (fun _ _ => True).
Proof. unfold _loadRegistered. sound_go. Qed.

#[local] Hint Resolve sound_use sound_loadRegistered : sound.

Lemma sound_after (func : option Func) :
  sound (fun _ => True) (after E func) (fun _ _ => True).
Proof. unfold after. sound_go. Qed.

Lemma sound_onClose (func : Func) :
  sound (fun _ => True) (onClose E func) (fun _ _ => True).
Proof. unfold onClose. sound_go. Qed.

Lemma sound_record_error (error : option Error) :
  sound (fun _ => True) (record_error error) (fun _ _ => True).
Proof. unfold record_error. sound_go. Qed.

Lemma sound_ready (func : option Func) :
  sound (fun _ => True) (ready E func) (fun _ _ => True).
Proof. unfold ready. sound_go. Qed.

#[local] Hint Resolve sound_after sound_onClose sound_record_error sound_ready
  : sound.

Lemma sound_close (func : option Func) :
  sound (fun _ => True) (close E func) (fun _ _ => True).
Proof. unfold close. sound_go. Qed.

Lemma sound_root (done : option Cont) :
  sound (fun s => optcont_ok s done) (root done) (fun _ _ => True).
Proof. unfold root. sound_go. Qed.

Lemma sound_root_loaded (error : option Error) :
  sound (fun _ => True) (root_loaded E error) (fun _ _ => True).
Proof. unfold root_loaded. sound_go. Qed.

#[local] Hint Resolve sound_close sound_root sound_root_loaded : sound.

Lemma sound_run_act (a : Act) (done : option Cont) :
  sound (fun s => optcont_ok s done) (run_act E a done) (fun _ _ => True).
Proof. unfold run_act. sound_go. Qed.

#[local] Hint Resolve sound_run_act : sound.

Lemma sound_run_acts (acts : list Act) (done : option Cont) :
  sound (fun s => optcont_ok s done) (run_acts E acts done) (fun _ _ => True).
Proof. induction acts as [|a acts IH]; cbn [run_acts]; sound_go. Qed.

#[local] Hint Resolve sound_run_acts : sound.

Lemma sound_invoke (func : Func) (args : list Arg) (done : option Cont) :
  sound (fun s => optcont_ok s done) (invoke E func args done)
        (fun _ _ => True).
Proof. unfold invoke. sound_go. Qed.

Lemma sound_apply_cont (k : Cont) (err : option Error) :
  sound (fun s => cont_ok s k) (apply_cont E k err) (fun _ _ => True).
Proof. unfold apply_cont. sound_go. Qed.

End Soundness.

Lemma engine_sound (n : nat) : E_sound (engine n).
Proof.
  induction n as [|n IH].
  - split; intros; intros s _ _; exact I.
  - split.
    + intros k err. rewrite calls_cont_engine_eta. now apply sound_apply_cont.
    + intros f args d. rewrite calls_func_engine_eta. now apply sound_invoke.
Qed.

Lemma sound_run_task (n : nat) (t : Task) :
  sound (fun s => task_ok s t) (run_task n t) (fun _ _ => True).
Proof.
  pose proof (engine_sound n) as HE.
  destruct t; cbn [run_task]; cbv zeta.
  - apply HE.
  - now apply sound_loadPlugin.
  - eapply sound_last; [apply sound_nextTick|auto|auto].
  - now apply sound_check.
  - apply sound_wrap.
  - now apply sound_fastq_resume.
  - eapply sound_bind'; [stab|apply sound_the_avvio|side|intros a].
    destruct (av_root a) as [r|] eqn:Hr; [|apply sound_throw].
    eapply sound_last; [now apply sound_fastq_resume| |auto].
    intros s [_ (_ & _ & _ & Hroot)]. cbn.
    destruct Hroot as [H|H]; rewrite Hr in H; [|discriminate].
    injection H as ->. now left.
  - apply sound_start.
  - now apply sound_run_acts.
  - now apply sound_exec_timeout.
  - now apply sound_readyTimeout.
Qed.

Lemma next_due_In (ts : list Timer) (tm : Timer) :
  next_due ts = Some tm -> In tm ts.
Proof.
  revert tm. induction ts as [|t ts IH]; cbn [next_due]; [discriminate|].
  intros tm H. destruct (next_due ts) as [t'|].
  - destruct (tm_at t' <? tm_at t)%nat; injection H as H; subst.
    + right. now apply IH.
    + now left.
  - injection H as H; subst. now left.
Qed.

(** What the invariant says of an outcome of the event loop. *)
Definition outcome_Inv (r : Outcome) : Prop :=
  match r with
  | Busy _ s | Quiet s => Inv s
  | _ => True
  end.

Lemma after_task_Inv (ph : Phase) (m : M unit) (s : St) :
  sound (fun _ => True) m (fun _ _ => True) ->
  Inv s -> outcome_Inv (after_task ph (m s)).
Proof.
  intros Hm HI. specialize (Hm s HI I).
  destruct (m s); cbn; [tauto|exact I|exact I].
Qed.

Lemma step_Inv (n : nat) (ph : Phase) (s : St) :
  Inv s -> outcome_Inv (step n ph s).
Proof.
  intros HI. unfold step. destruct ph.
  - destruct (ticks s) as [|t rest] eqn:Ht.
    + destruct (micros s) as [|m rest] eqn:Hmi; [|exact HI].
      destruct (next_due (timers s)) as [tm|] eqn:Hd; [|exact HI].
      pose proof (next_due_In _ _ Hd) as Hin.
      match goal with |- outcome_Inv (after_task _ (_ ?s1)) =>
        assert (Hm : mono s s1) by (apply mono_same; reflexivity);
        assert (HI1 : Inv s1) by (inv_step s; constructor);
        assert (Hok : task_ok s1 (tm_task tm))
      end.
      { eapply task_ok_mono; [eassumption|]. destruct HI.
        rewrite Forall_forall in inv_timers0. apply (inv_timers0 tm).
        now apply list_elem_of_In. }
      pose proof (sound_run_task n (tm_task tm) _ HI1 Hok) as H.
      unfold after_task. destruct (run_task n (tm_task tm) _); cbn; tauto.
    + assert (Hm : mono s (with_ticks (fun _ => rest) s))
        by (apply mono_same; reflexivity).
      assert (Hall : Forall (task_ok s) (t :: rest))
        by (rewrite <- Ht; apply HI).
      apply Forall_cons in Hall. destruct Hall as [Hok Hrest].
      assert (HI1 : Inv (with_ticks (fun _ => rest) s)).
      { inv_step s. cbn. eapply Forall_impl; [exact Hrest|].
        intros x Hx. right. eapply task_ok_mono; eassumption. }
      assert (Hok1 : task_ok (with_ticks (fun _ => rest) s) t)
        by (eapply task_ok_mono; eassumption).
      pose proof (sound_run_task n t _ HI1 Hok1) as H.
      unfold after_task. destruct (run_task n t _); cbn; tauto.
  - destruct (micros s) as [|t rest] eqn:Ht; [exact HI|].
    assert (Hm : mono s (with_micros (fun _ => rest) s))
      by (apply mono_same; reflexivity).
    assert (Hall : Forall (task_ok s) (t :: rest))
      by (rewrite <- Ht; apply HI).
    apply Forall_cons in Hall. destruct Hall as [Hok Hrest].
    assert (HI1 : Inv (with_micros (fun _ => rest) s)).
    { inv_step s. cbn. eapply Forall_impl; [exact Hrest|].
      intros x Hx. right. eapply task_ok_mono; eassumption. }
    assert (Hok1 : task_ok (with_micros (fun _ => rest) s) t)
      by (eapply task_ok_mono; eassumption).
    pose proof (sound_run_task n t _ HI1 Hok1) as H.
    unfold after_task. destruct (run_task n t _); cbn; tauto.
Qed.

Lemma loop_Inv (steps n : nat) (ph : Phase) (s : St) :
  Inv s -> outcome_Inv (loop steps n ph s).
Proof.
  revert ph s. induction steps as [|k IH]; intros ph s HI; cbn [loop];
    [exact HI|].
  pose proof (step_Inv n ph s HI) as H.
  destruct (step n ph s); cbn in *; auto.
Qed.

Lemma init_Inv (o : Options) : Inv (init o).
Proof.
  constructor; cbn.
  - intros p pl Hp. destruct p as [|p]; cbn in Hp; [|discriminate].
    injection Hp as <-. cbn. split; [split; constructor|].
    left. now left.
  - split; [split; constructor|]. right. split; reflexivity.
  - split; constructor.
  - exact I.
  - now left.
  - constructor.
  - constructor.
  - constructor.
  - constructor.
Qed.

Lemma program_Inv (steps n : nat) (o : Options) (main : list Act) :
  outcome_Inv (program steps n o main).
Proof.
  unfold program.
  assert (Hboot : outcome_Inv (after_task Ticks (boot n o main))).
  { unfold boot. apply after_task_Inv; [|apply init_Inv].
    pose proof (engine_sound n) as HE.
    eapply sound_bind with (Q := fun _ _ => True);
      [intros ? ? ? ?; exact I| |intros ?].
    - eapply sound_last; [now apply sound_loadPlugin| |auto].
      intros s _. exact I.
    - eapply sound_last; [now apply sound_run_acts| |auto].
      intros s _. exact I. }
  destruct (after_task Ticks (boot n o main)); cbn in *; auto.
  now apply loop_Inv.
Qed.

(** [s] is a store the event loop reached: the program stopped there with
    work left, or went quiet there. *)
Definition reached (r : Outcome) (s : St) : Prop :=
  match r with
  | Busy _ s' | Quiet s' => s' = s
  | _ => False
  end.

Lemma reached_Inv (steps n : nat) (o : Options) (main : list Act) (s : St) :
  reached (program steps n o main) s -> Inv s.
Proof.
  intros H. pose proof (program_Inv steps n o main) as HI.
  destruct (program steps n o main); cbn in *; subst; auto; contradiction.
Qed.

(** A unit whose function awaits its partial completion and never signals
    its own: it registers [child], then calls after() without a function. *)
Definition child : Fn := MkFn "child" 3 [ActDone None] RetUndefined.
Definition awaiting_parent : Fn :=
  MkFn "parent" 3 [ActUse child; ActLoadedSoFar []] RetPending.



(** [released], decided on a concrete store. *)
Definition settledb (s : St) (p : PluginId) : bool :=
  existsb (fun ev => match ev with
                     | EvDebug l q => String.eqb l "finish" && (q =? p)%nat
                     | _ => false
                     end) (trace s).

Definition partial_requestedb (s : St) (p : PluginId) : bool :=
  existsb (fun cl => match pl_func cl with
                     | FAfter (FLoadedSoFar q) => (q =? p)%nat
                     | _ => false
                     end) (plugins s).

Definition releasedb (s : St) (p : PluginId) : bool :=
  (p =? 0)%nat || settledb s p || partial_requestedb s p.

Lemma releasedb_complete (s : St) (p : PluginId) :
  released s p -> releasedb s p = true.
Proof.
  unfold releasedb. intros [->|[H|(c & cl & Hc & Hf)]].
  - reflexivity.
  - apply orb_true_iff. left. apply orb_true_iff. right.
    apply existsb_exists. exists (EvDebug "finish" p). split; [exact H|].
    cbn. now rewrite Nat.eqb_refl.
  - apply orb_true_iff. right. apply existsb_exists. exists cl. split.
    + apply list_elem_of_In. eapply list_elem_of_lookup_2. eassumption.
    + rewrite Hf. apply Nat.eqb_refl.
Qed.

Lemma not_released (s : St) (p : PluginId) :
  releasedb s p = false -> ~ released s p.
Proof.
  intros Hb H. apply releasedb_complete in H. congruence.
Qed.

(** A unit that registers a child and never signals completion. *)
Definition stalling_parent : Fn := MkFn "parent" 3 [ActUse child] RetPending.


(** ** Sequences of ready() and start() calls *)

(** A call of the main script: ready(f), ready() or start(). *)
Inductive LifecycleCall : Type :=
| CallReady (f : Fn)
| CallReadyPromise
| CallStart.

Definition lifecycle_act (c : LifecycleCall) : Act :=
  match c with
  | CallReady f => ActReady f
  | CallReadyPromise => ActReadyPromise
  | CallStart => ActStart
  end.

(** The continuations handed to ready(f), in order. *)
Fixpoint readies (cs : list LifecycleCall) : list Fn :=
  match cs with
  | [] => []
  | CallReady f :: cs' => f :: readies cs'
  | _ :: cs' => readies cs'
  end.

(** The number of ready() calls, each of which returns a promise. *)
Fixpoint promised (cs : list LifecycleCall) : nat :=
  match cs with
  | [] => 0
  | CallReadyPromise :: cs' => S (promised cs')
  | _ :: cs' => promised cs'
  end.

(** The number of calls that call start() at once: start() and ready(). *)
Fixpoint starts (cs : list LifecycleCall) : nat :=
  match cs with
  | [] => 0
  | CallReady _ :: cs' => starts cs'
  | _ :: cs' => S (starts cs')
  end.

(** What waits on the ready-queue: a continuation, or the readyPromiseCB
    of a ready() call, with its promise and the cell of its closure. *)
Inductive Waiter : Type :=
| WFn (f : Fn)
| WPromise (pr : PromiseId) (cell : nat).

(** The waiters a script registers, in order, when the next promise and
    the next cell to be allocated are [pr] and [cell]. *)
Fixpoint waiters (pr cell : nat) (cs : list LifecycleCall) : list Waiter :=
  match cs with
  | [] => []
  | CallReady f :: cs' => WFn f :: waiters pr cell cs'
  | CallReadyPromise :: cs' => WPromise pr cell :: waiters (S pr) (S cell) cs'
  | CallStart :: cs' => waiters pr cell cs'
  end.

Definition waiter_item (w : Waiter) : Item * Cont :=
  match w with
  | WFn f => (IFunc (FUser f) false, KNoop)
  | WPromise pr cell => (IFunc (FReadyPromise pr cell) false, KNoop)
  end.

Definition ready_call (f : Fn) : Event :=
  EvInvoke (FUser f) (normalized_args (fn_length f) None 0).

(** What serving a waiter leaves in the trace: the call of the
    continuation, or the fulfilment of the promise. *)
Definition waiter_event (w : Waiter) : Event :=
  match w with
  | WFn f => ready_call f
  | WPromise pr _ => EvSettle pr None
  end.

(** A ready continuation of at most one parameter that returns at once. *)
Definition plain (f : Fn) : Prop :=
  fn_length f <= 1 /\ fn_body f = [] /\ fn_ret f = RetUndefined.

(** The stores such a program goes through: only the root plugin, the
    current stack, the booted flag, the ready-queue, the promises and
    cells, the two task queues and the trace vary. *)
Definition root_plugin (completed loaded : bool) (q : Queue) : Plugin :=
  MkPlugin true FRoot 0 "bound root" false q None loaded None (Some 0) 0
           completed None.

Definition lifecycle_store (rootpl : Plugin) (current : list PluginId)
    (booted : bool) (rootref : option PluginId) (rq : Queue)
    (ps : list PromiseState) (cl : list (option nat))
    (tk mi : list Task) (tr : list Event) : St :=
  MkSt (MkAvvio 0 0 current (Some (KExecDone 0 (KLoadExec 0 KRootLoaded)))
          None true booted rq (createQueue DCloseQ) rootref true override None)
       [rootpl] ps cl tk mi [] 0 0 tr.

(** start()'s tick: the root's [done]. *)
Definition root_done_tick : Task :=
  TCall (KExecDone 0 (KLoadExec 0 KRootLoaded)) None.

(** The tick that completes a waiter. *)
Definition ready_worked_tick : Task := TCall (KWorked QReady KNoop) None.

Lemma loop_step (k n : nat) (ph ph' : Phase) (s s' : St) :
  step n ph s = Busy ph' s' -> loop (S k) n ph s = loop k n ph' s'.
Proof. intros H. cbn [loop]. now rewrite H. Qed.

Lemma loop_quiet (k n : nat) (ph : Phase) (s s' : St) :
  step n ph s = Quiet s' -> loop (S k) n ph s = Quiet s'.
Proof. intros H. cbn [loop]. now rewrite H. Qed.

Lemma repeat_snoc {A} (x : A) (j : nat) : repeat x j ++ [x] = x :: repeat x j.
Proof. induction j as [|j IH]; cbn; [reflexivity|]. now rewrite IH. Qed.

(** ready() from the main script: a promise and a cell are allocated, the
    readyPromiseCB is queued, start() is called and the cell is set. *)
Lemma run_ready_promise (completed loaded : bool) (q : Queue)
    (l : list (Item * Cont)) (ps : list PromiseState) (cl : list (option nat))
    (tk mi : list Task) (tr : list Event) :
  run_act (engine 4) ActReadyPromise None
    (lifecycle_store (root_plugin completed loaded q) [0] false (Some 0)
       (MkQueue true 0 l DReadyQ) ps cl tk mi tr) =
  Val tt
    (lifecycle_store (root_plugin completed loaded q) [0] false (Some 0)
       (MkQueue true 0
          (l ++ [waiter_item (WPromise (List.length ps) (List.length cl))])
          DReadyQ)
       (ps ++ [Pending []]) (cl ++ [Some 0]) (tk ++ [root_done_tick]) mi tr).
Proof.
  rewrite <- (insert_at_length cl None (Some 0)). reflexivity.
Qed.

(** The main script only fills the ready-queue, the heap and the two task
    queues. *)
Lemma run_lifecycle_calls (cs : list LifecycleCall) (completed loaded : bool)
    (q : Queue) (l : list (Item * Cont)) (ps : list PromiseState)
    (cl : list (option nat)) (tk mi : list Task) (tr : list Event) :
  run_acts (engine 4) (map lifecycle_act cs) None
    (lifecycle_store (root_plugin completed loaded q) [0] false (Some 0)
       (MkQueue true 0 l DReadyQ) ps cl tk mi tr) =
  Val tt
    (lifecycle_store (root_plugin completed loaded q) [0] false (Some 0)
       (MkQueue true 0
          (l ++ map waiter_item (waiters (List.length ps) (List.length cl) cs))
          DReadyQ)
       (ps ++ repeat (Pending []) (promised cs))
       (cl ++ repeat (Some 0) (promised cs))
       (tk ++ repeat root_done_tick (starts cs))
       (mi ++ repeat TStart (List.length (readies cs))) tr).
Proof.
  revert l ps cl tk mi. induction cs as [|[f| |] cs IH]; intros l ps cl tk mi.
  - cbn. now rewrite !app_nil_r.
  - cbn [map lifecycle_act run_acts readies promised starts waiters
         List.length repeat].
    unfold bind at 1.
    replace (run_act (engine 4) (ActReady f) None _)
      with (Val tt (lifecycle_store (root_plugin completed loaded q) [0] false
                      (Some 0)
                      (MkQueue true 0 (l ++ [waiter_item (WFn f)]) DReadyQ)
                      ps cl tk (mi ++ [TStart]) tr)) by reflexivity.
    rewrite IH. now rewrite <- !app_assoc.
  - cbn [map lifecycle_act run_acts readies promised starts waiters
         List.length repeat].
    unfold bind at 1. rewrite run_ready_promise, IH.
    rewrite !length_app, !Nat.add_1_r. now rewrite <- !app_assoc.
  - cbn [map lifecycle_act run_acts readies promised starts waiters
         List.length repeat].
    unfold bind at 1.
    replace (run_act (engine 4) ActStart None _)
      with (Val tt (lifecycle_store (root_plugin completed loaded q) [0] false
                      (Some 0) (MkQueue true 0 l DReadyQ) ps cl
                      (tk ++ [root_done_tick]) mi tr)) by reflexivity.
    rewrite IH. now rewrite <- !app_assoc.
Qed.

Definition boot_trace : list Event := [EvEmit (Some 0) "start"].

Lemma boot_lifecycle (cs : list LifecycleCall) :
  boot 4 default_options (map lifecycle_act cs) =
  Val tt
    (lifecycle_store (root_plugin false false (MkQueue true 0 [] DNoop)) [0]
       false (Some 0)
       (MkQueue true 0 (map waiter_item (waiters 0 0 cs)) DReadyQ)
       (repeat (Pending []) (promised cs)) (repeat (Some 0) (promised cs))
       (root_done_tick :: repeat root_done_tick (starts cs))
       (repeat TStart (List.length (readies cs))) boot_trace).
Proof.
  unfold boot, bind.
  replace (loadPlugin (engine 4) 0 KRootLoaded (init default_options))
    with (Val tt (lifecycle_store
                    (root_plugin false false (MkQueue true 0 [] DNoop)) [0]
                    false (Some 0) (MkQueue true 0 [] DReadyQ) [] []
                    [root_done_tick] [] boot_trace)) by reflexivity.
  now rewrite run_lifecycle_calls.
Qed.

(** The first start tick settles the root's exec: [finish] schedules
    [check] and resumes the (empty) queue of the root. *)
Lemma step_root_done (rq : Queue) (ps : list PromiseState)
    (cl : list (option nat)) (tk mi : list Task) (tr : list Event) :
  step 4 Ticks
    (lifecycle_store (root_plugin false false (MkQueue true 0 [] DNoop)) [0]
       false (Some 0) rq ps cl (root_done_tick :: tk) mi tr) =
  Busy Ticks
    (lifecycle_store (root_plugin true false (MkQueue false 0 [] DNoop)) [0]
       false (Some 0) rq ps cl tk
       (mi ++ [TCheck 0 (KLoadFinish KRootLoaded)])
       (tr ++ [EvDebug "finish" 0])).
Proof. reflexivity. Qed.

(** Every further start tick finds the root completed and does nothing. *)
Lemma step_start_again (loaded : bool) (current : list PluginId)
    (booted : bool) (rootref : option PluginId) (q rq : Queue)
    (ps : list PromiseState) (cl : list (option nat))
    (tk mi : list Task) (tr : list Event) :
  step 4 Ticks
    (lifecycle_store (root_plugin true loaded q) current booted rootref rq
       ps cl (root_done_tick :: tk) mi tr) =
  Busy Ticks
    (lifecycle_store (root_plugin true loaded q) current booted rootref rq
       ps cl tk mi tr).
Proof. reflexivity. Qed.

Lemma loop_start_again (k j : nat) (loaded : bool) (current : list PluginId)
    (booted : bool) (rootref : option PluginId) (q rq : Queue)
    (ps : list PromiseState) (cl : list (option nat))
    (tk mi : list Task) (tr : list Event) :
  loop (j + k) 4 Ticks
    (lifecycle_store (root_plugin true loaded q) current booted rootref rq
       ps cl (repeat root_done_tick j ++ tk) mi tr) =
  loop k 4 Ticks
    (lifecycle_store (root_plugin true loaded q) current booted rootref rq
       ps cl tk mi tr).
Proof.
  induction j as [|j IH]; [reflexivity|].
  cbn [repeat app Nat.add].
  erewrite loop_step by apply step_start_again. exact IH.
Qed.

(** A ready(f) microtask calls start(), which schedules one more tick. *)
Lemma step_ready_start (rootpl : Plugin) (current : list PluginId)
    (booted : bool) (rootref : option PluginId) (rq : Queue)
    (ps : list PromiseState) (cl : list (option nat))
    (tk mi : list Task) (tr : list Event) :
  step 4 Micros
    (lifecycle_store rootpl current booted rootref rq ps cl tk
       (TStart :: mi) tr) =
  Busy Micros
    (lifecycle_store rootpl current booted rootref rq ps cl
       (tk ++ [root_done_tick]) mi tr).
Proof. reflexivity. Qed.

Lemma loop_ready_start (k j : nat) (rootpl : Plugin) (current : list PluginId)
    (booted : bool) (rootref : option PluginId) (rq : Queue)
    (ps : list PromiseState) (cl : list (option nat))
    (tk mi : list Task) (tr : list Event) :
  loop (j + k) 4 Micros
    (lifecycle_store rootpl current booted rootref rq ps cl tk
       (repeat TStart j ++ mi) tr) =
  loop k 4 Micros
    (lifecycle_store rootpl current booted rootref rq ps cl
       (tk ++ repeat root_done_tick j) mi tr).
Proof.
  revert tk. induction j as [|j IH]; intros tk.
  - cbn. now rewrite app_nil_r.
  - cbn [repeat app Nat.add].
    erewrite loop_step by apply step_ready_start.
    rewrite IH. now rewrite <- app_assoc.
Qed.

Lemma step_to_micros (rootpl : Plugin) (current : list PluginId)
    (booted : bool) (rootref : option PluginId) (rq : Queue)
    (ps : list PromiseState) (cl : list (option nat))
    (m : Task) (mi : list Task) (tr : list Event) :
  step 4 Ticks
    (lifecycle_store rootpl current booted rootref rq ps cl [] (m :: mi) tr) =
  Busy Micros
    (lifecycle_store rootpl current booted rootref rq ps cl [] (m :: mi) tr).
Proof. reflexivity. Qed.

Lemma step_to_ticks (rootpl : Plugin) (current : list PluginId)
    (booted : bool) (rootref : option PluginId) (rq : Queue)
    (ps : list PromiseState) (cl : list (option nat))
    (tk : list Task) (tr : list Event) :
  step 4 Micros
    (lifecycle_store rootpl current booted rootref rq ps cl tk [] tr) =
  Busy Ticks
    (lifecycle_store rootpl current booted rootref rq ps cl tk [] tr).
Proof. reflexivity. Qed.

Lemma step_quiet (rootpl : Plugin) (current : list PluginId)
    (booted : bool) (rootref : option PluginId) (rq : Queue)
    (ps : list PromiseState) (cl : list (option nat)) (tr : list Event) :
  step 4 Ticks
    (lifecycle_store rootpl current booted rootref rq ps cl [] [] tr) =
  Quiet (lifecycle_store rootpl current booted rootref rq ps cl [] [] tr).
Proof. reflexivity. Qed.

Lemma plain_inv (f : Fn) :
  plain f ->
  exists name, f = MkFn name 0 [] RetUndefined \/ f = MkFn name 1 [] RetUndefined.
Proof.
  destruct f as [name len body ret]. intros (Hl & Hb & Hr). cbn in *. subst.
  exists name. destruct len as [|[|len]]; auto. lia.
Qed.

(** A waiter can be served: its continuation is plain, or its promise is
    pending without reactions and its cell is initialised. *)
Definition waiter_ready (ps : list PromiseState) (cl : list (option nat))
    (w : Waiter) : Prop :=
  match w with
  | WFn f => plain f
  | WPromise pr cell =>
      ps !! pr = Some (Pending []) /\ exists v, cl !! cell = Some (Some v)
  end.

(** The promises once a waiter has been served. *)
Definition settle (w : Waiter) (ps : list PromiseState) : list PromiseState :=
  match w with
  | WFn _ => ps
  | WPromise pr _ => <[pr := Fulfilled]> ps
  end.

(** [check] finds the root drained: the root is marked loaded, its
    callback marks the orchestrator booted and resumes the ready-queue,
    whose first waiter is served. *)
Lemma step_root_loaded (w : Waiter) (rest : list (Item * Cont))
    (ps : list PromiseState) (cl : list (option nat)) (tk : list Task)
    (tr : list Event) :
  waiter_ready ps cl w ->
  step 4 Micros
    (lifecycle_store (root_plugin true false (MkQueue false 0 [] DNoop)) [0]
       false (Some 0) (MkQueue true 0 (waiter_item w :: rest) DReadyQ) ps cl
       tk [TCheck 0 (KLoadFinish KRootLoaded)] tr) =
  Busy Micros
    (lifecycle_store (root_plugin true true (MkQueue false 0 [] DNoop)) []
       true None (MkQueue false 1 rest DReadyQ) (settle w ps) cl
       (tk ++ [ready_worked_tick]) []
       (tr ++ [EvEmit (Some 0) "loaded"; EvEmit None "preReady";
               waiter_event w])).
Proof.
  intros Hw.
  replace (tr ++ [EvEmit (Some 0) "loaded"; EvEmit None "preReady";
                  waiter_event w])
    with (((tr ++ [EvEmit (Some 0) "loaded"]) ++ [EvEmit None "preReady"]) ++
          [waiter_event w]) by (now rewrite <- !app_assoc).
  destruct w as [f|pr cell].
  - destruct (plain_inv f Hw) as [name [-> | ->]]; destruct rest; reflexivity.
  - destruct Hw as [Hps [v Hcl]]. lazy in Hps, Hcl.
    destruct rest; lazy; rewrite Hcl; lazy; rewrite Hps; reflexivity.
Qed.

Lemma step_root_loaded_no_ready (ps : list PromiseState)
    (cl : list (option nat)) (tk : list Task) (tr : list Event) :
  step 4 Micros
    (lifecycle_store (root_plugin true false (MkQueue false 0 [] DNoop)) [0]
       false (Some 0) (MkQueue true 0 [] DReadyQ) ps cl tk
       [TCheck 0 (KLoadFinish KRootLoaded)] tr) =
  Busy Micros
    (lifecycle_store (root_plugin true true (MkQueue false 0 [] DNoop)) []
       true None (MkQueue false 0 [] DNoop) ps cl tk []
       (tr ++ [EvEmit (Some 0) "loaded"; EvEmit None "preReady";
               EvEmit None "start"])).
Proof.
  replace (tr ++ [EvEmit (Some 0) "loaded"; EvEmit None "preReady";
                  EvEmit None "start"])
    with (((tr ++ [EvEmit (Some 0) "loaded"]) ++ [EvEmit None "preReady"]) ++
          [EvEmit None "start"]) by (now rewrite <- !app_assoc).
  reflexivity.
Qed.

(** A served waiter releases the next one. *)
Lemma step_ready_next (w : Waiter) (rest : list (Item * Cont))
    (ps : list PromiseState) (cl : list (option nat)) (tk : list Task)
    (tr : list Event) :
  waiter_ready ps cl w ->
  step 4 Ticks
    (lifecycle_store (root_plugin true true (MkQueue false 0 [] DNoop)) []
       true None (MkQueue false 1 (waiter_item w :: rest) DReadyQ) ps cl
       (ready_worked_tick :: tk) [] tr) =
  Busy Ticks
    (lifecycle_store (root_plugin true true (MkQueue false 0 [] DNoop)) []
       true None (MkQueue false 1 rest DReadyQ) (settle w ps) cl
       (tk ++ [ready_worked_tick]) [] (tr ++ [waiter_event w])).
Proof.
  intros Hw. destruct w as [f|pr cell].
  - destruct (plain_inv f Hw) as [name [-> | ->]]; reflexivity.
  - destruct Hw as [Hps [v Hcl]]. lazy in Hps, Hcl.
    lazy. rewrite Hcl. lazy. rewrite Hps. reflexivity.
Qed.

(** The last one drains the ready-queue: 'start' is emitted and the drain
    hook becomes the no-op. *)
Lemma step_ready_drained (ps : list PromiseState) (cl : list (option nat))
    (tk : list Task) (tr : list Event) :
  step 4 Ticks
    (lifecycle_store (root_plugin true true (MkQueue false 0 [] DNoop)) []
       true None (MkQueue false 1 [] DReadyQ) ps cl (ready_worked_tick :: tk)
       [] tr) =
  Busy Ticks
    (lifecycle_store (root_plugin true true (MkQueue false 0 [] DNoop)) []
       true None (MkQueue false 0 [] DNoop) ps cl tk []
       (tr ++ [EvEmit None "start"])).
Proof. reflexivity. Qed.

Lemma step_to_micros_snoc (rootpl : Plugin) (current : list PluginId)
    (booted : bool) (rootref : option PluginId) (rq : Queue)
    (ps : list PromiseState) (cl : list (option nat))
    (m : Task) (mi : list Task) (tr : list Event) :
  step 4 Ticks
    (lifecycle_store rootpl current booted rootref rq ps cl [] (mi ++ [m]) tr) =
  Busy Micros
    (lifecycle_store rootpl current booted rootref rq ps cl [] (mi ++ [m]) tr).
Proof. destruct mi; reflexivity. Qed.

(** Every waiter of the queue can be served when its turn comes. *)
Fixpoint waiters_ready (ps : list PromiseState) (cl : list (option nat))
    (ws : list Waiter) : Prop :=
  match ws with
  | [] => True
  | w :: ws' => waiter_ready ps cl w /\ waiters_ready (settle w ps) cl ws'
  end.

Definition settle_all (ws : list Waiter) (ps : list PromiseState)
  : list PromiseState :=
  fold_left (fun ps w => settle w ps) ws ps.

(** The resumed ready-queue serves its waiters one per tick, in order, and
    emits 'start' when the last one is done. *)
Lemma loop_ready_queue (extra : nat) (ws : list Waiter)
    (ps : list PromiseState) (cl : list (option nat)) (tr : list Event) :
  waiters_ready ps cl ws ->
  loop (List.length ws + 2 + extra) 4 Ticks
    (lifecycle_store (root_plugin true true (MkQueue false 0 [] DNoop)) []
       true None (MkQueue false 1 (map waiter_item ws) DReadyQ) ps cl
       [ready_worked_tick] [] tr) =
  Quiet
    (lifecycle_store (root_plugin true true (MkQueue false 0 [] DNoop)) []
       true None (MkQueue false 0 [] DNoop) (settle_all ws ps) cl [] []
       (tr ++ map waiter_event ws ++ [EvEmit None "start"])).
Proof.
  revert ps tr. induction ws as [|w ws IH]; intros ps tr Hws.
  - cbn [List.length Nat.add map app].
    erewrite loop_step by apply step_ready_drained.
    erewrite loop_quiet by apply step_quiet. reflexivity.
  - destruct Hws as [Hw Hws]. cbn [List.length Nat.add map].
    erewrite loop_step by (apply step_ready_next; exact Hw).
    cbn [app]. rewrite IH by exact Hws. cbn [settle_all fold_left].
    now rewrite <- app_assoc.
Qed.

Lemma lookup_repeat {A} (x : A) (n i : nat) :
  i < n -> repeat x n !! i = Some x.
Proof.
  revert i. induction n as [|n IH]; intros i Hi; [lia|].
  destruct i as [|i]; [reflexivity|]. cbn. apply IH. lia.
Qed.

Lemma repeat_middle {A} (x : A) (i : nat) (l : list A) :
  repeat x i ++ x :: l = repeat x (S i) ++ l.
Proof.
  change (x :: l) with ([x] ++ l). now rewrite app_assoc, repeat_snoc.
Qed.

(** The promises of a script's ready() calls are numbered in call order:
    when [i] of them are fulfilled and the others pending, every waiter
    can be served in turn, and all are fulfilled in the end. *)
Lemma script_waiters_ready (i : nat) (cs : list LifecycleCall) :
  Forall plain (readies cs) ->
  waiters_ready (repeat Fulfilled i ++ repeat (Pending []) (promised cs))
                (repeat (Some 0) (i + promised cs)) (waiters i i cs).
Proof.
  revert i. induction cs as [|[f| |] cs IH]; intros i Hfs;
    cbn [readies promised waiters waiters_ready repeat] in *.
  - exact I.
  - apply Forall_cons in Hfs. destruct Hfs as [Hf Hfs]. split; [exact Hf|].
    now apply IH.
  - split.
    + split.
      * apply list_lookup_middle. now rewrite repeat_length.
      * exists 0. apply lookup_repeat. lia.
    + cbn [settle]. rewrite insert_app_r_alt by (rewrite repeat_length; lia).
      rewrite repeat_length, Nat.sub_diag. cbn [insert list_insert].
      rewrite repeat_middle, Nat.add_succ_r. now apply (IH (S i)).
  - now apply IH.
Qed.

Lemma script_settle_all (i : nat) (cs : list LifecycleCall) :
  settle_all (waiters i i cs)
    (repeat Fulfilled i ++ repeat (Pending []) (promised cs)) =
  repeat Fulfilled (i + promised cs).
Proof.
  revert i. induction cs as [|[f| |] cs IH]; intros i;
    cbn [promised waiters settle_all fold_left repeat settle].
  - now rewrite app_nil_r, Nat.add_0_r.
  - apply IH.
  - rewrite insert_app_r_alt by (rewrite repeat_length; lia).
    rewrite repeat_length, Nat.sub_diag. cbn [insert list_insert].
    rewrite repeat_middle, Nat.add_succ_r. apply (IH (S i)).
  - apply IH.
Qed.

Lemma length_lifecycle (cs : list LifecycleCall) :
  List.length cs = List.length (readies cs) + starts cs.
Proof.
  induction cs as [|[f| |] cs IH]; cbn [List.length readies starts]; lia.
Qed.

Lemma length_waiters (pr cell : nat) (cs : list LifecycleCall) :
  List.length (waiters pr cell cs) = List.length (readies cs) + promised cs.
Proof.
  revert pr cell. induction cs as [|[f| |] cs IH]; intros pr cell;
    cbn [List.length readies promised waiters]; rewrite ?IH; lia.
Qed.

Lemma promised_le_starts (cs : list LifecycleCall) : promised cs <= starts cs.
Proof. induction cs as [|[f| |] cs IH]; cbn [promised starts]; lia. Qed.

(** The store in which a program of ready()/start() calls goes quiet. *)
Definition lifecycle_end (cs : list LifecycleCall) : St :=
  lifecycle_store (root_plugin true true (MkQueue false 0 [] DNoop)) []
    true None (MkQueue false 0 [] DNoop)
    (repeat Fulfilled (promised cs)) (repeat (Some 0) (promised cs)) [] []
    ([EvEmit (Some 0) "start"; EvDebug "finish" 0; EvEmit (Some 0) "loaded";
      EvEmit None "preReady"] ++
     map waiter_event (waiters 0 0 cs) ++ [EvEmit None "start"]).

Lemma lifecycle_runs (extra : nat) (cs : list LifecycleCall) :
  Forall plain (readies cs) ->
  program (3 * List.length cs + 5 + extra) 4 default_options
          (map lifecycle_act cs) =
  Quiet (lifecycle_end cs).
Proof.
  intros Hfs. unfold program, lifecycle_end. rewrite boot_lifecycle.
  cbn [after_task].
  pose proof (length_lifecycle cs) as Hlen.
  pose proof (promised_le_starts cs) as Hp.
  pose proof (length_waiters 0 0 cs) as Hw.
  pose proof (script_waiters_ready 0 cs Hfs) as Hready.
  pose proof (script_settle_all 0 cs) as Hall.
  cbn [repeat app Nat.add] in Hready, Hall.
  remember (starts cs) as k. remember (List.length (readies cs)) as j.
  remember (promised cs) as p. rewrite Hlen. clear Hlen Heqk Heqj Heqp.
  destruct (waiters 0 0 cs) as [|w ws].
  - cbn [List.length] in Hw. assert (j = 0) as -> by lia.
    assert (p = 0) as -> by lia. cbn [repeat map app].
    replace (3 * (0 + k) + 5 + extra)
      with (S (k + S (S (S (S (2 * k + extra)))))) by lia.
    erewrite loop_step by apply step_root_done.
    rewrite <- (app_nil_r (repeat root_done_tick k)).
    rewrite loop_start_again. cbn [app].
    erewrite loop_step by apply step_to_micros.
    erewrite loop_step by apply step_root_loaded_no_ready.
    erewrite loop_step by apply step_to_ticks.
    erewrite loop_quiet by apply step_quiet. reflexivity.
  - cbn [List.length] in Hw. destruct Hready as [Hw1 Hws].
    change (settle_all ws (settle w (repeat (Pending []) p)) =
            repeat Fulfilled p) in Hall.
    replace (3 * (j + k) + 5 + extra)
      with (S (k + S (j + S (S (j + (List.length ws + 2 +
                                      (2 * k - p + extra)))))))
      by lia.
    erewrite loop_step by apply step_root_done.
    rewrite <- (app_nil_r (repeat root_done_tick k)).
    rewrite loop_start_again.
    erewrite loop_step by apply step_to_micros_snoc.
    rewrite loop_ready_start. cbn [app map].
    erewrite loop_step by (apply step_root_loaded; exact Hw1).
    erewrite loop_step by apply step_to_ticks.
    rewrite loop_start_again.
    rewrite loop_ready_queue by exact Hws.
    rewrite Hall. unfold boot_trace. cbn [app].
    now rewrite <- ?app_assoc.
Qed.

(** The calls into user functions recorded in a trace. *)
Definition user_calls (l : list Event) : list Event :=
  List.filter (fun ev => match ev with EvInvoke _ _ => true | _ => false end) l.

(** The promises settled in a trace, with their outcome. *)
Definition settlements (l : list Event) : list Event :=
  List.filter (fun ev => match ev with EvSettle _ _ => true | _ => false end) l.

Lemma emitted_app (event : string) (l1 l2 : list Event) :
  emitted event (l1 ++ l2) = emitted event l1 + emitted event l2.
Proof. unfold emitted. now rewrite List.filter_app, length_app. Qed.

Lemma user_calls_app (l1 l2 : list Event) :
  user_calls (l1 ++ l2) = user_calls l1 ++ user_calls l2.
Proof. apply List.filter_app. Qed.

Lemma settlements_app (l1 l2 : list Event) :
  settlements (l1 ++ l2) = settlements l1 ++ settlements l2.
Proof. apply List.filter_app. Qed.

Lemma emitted_waiters (event : string) (ws : list Waiter) :
  emitted event (map waiter_event ws) = 0.
Proof. induction ws as [|[f|pr cell] ws IH]; [reflexivity|exact IH..]. Qed.

Lemma user_calls_waiters (pr cell : nat) (cs : list LifecycleCall) :
  user_calls (map waiter_event (waiters pr cell cs)) = map ready_call (readies cs).
Proof.
  revert pr cell. induction cs as [|[f| |] cs IH]; intros pr cell.
  - reflexivity.
  - cbn [waiters readies map].
    change (ready_call f :: user_calls (map waiter_event (waiters pr cell cs)) =
            ready_call f :: map ready_call (readies cs)).
    now rewrite IH.
  - apply (IH (S pr) (S cell)).
  - apply IH.
Qed.

Lemma settlements_waiters (pr cell : nat) (cs : list LifecycleCall) :
  settlements (map waiter_event (waiters pr cell cs)) =
  map (fun i => EvSettle i None) (seq pr (promised cs)).
Proof.
  revert pr cell. induction cs as [|[f| |] cs IH]; intros pr cell.
  - reflexivity.
  - apply IH.
  - cbn [waiters promised seq map].
    change (EvSettle pr None ::
              settlements (map waiter_event (waiters (S pr) (S cell) cs)) =
            EvSettle pr None ::
              map (fun i => EvSettle i None) (seq (S pr) (promised cs))).
    now rewrite IH.
  - apply IH.
Qed.

(** Until the root callback has run, the ready-queue is paused with
    nothing in flight and no completion of a waiter is pending: whatever
    the program. *)
Lemma ready_waits_for_boot (steps n : nat) (o : Options) (main : list Act)
    (s : St) :
  reached (program steps n o main) s ->
  ~ root_done s ->
  paused_idle (av_readyQ (avvio s)) /\
  forall callback err, ~ In (TCall (KWorked QReady callback) err) (ticks s).
Proof.
  intros Hr Hn. pose proof (reached_Inv _ _ _ _ _ Hr) as HI.
  destruct (inv_readyQ s HI) as [_ [H|H]]; [contradiction|].
  split; [exact H|]. intros callback err Hin. apply Hn.
  pose proof (inv_ticks s HI) as Ht. rewrite Forall_forall in Ht.
  specialize (Ht _ (proj2 (list_elem_of_In _ _) Hin)).
  cbn in Ht. tauto.
Qed.



(** * Further properties of the code *)

(** ** Registration that succeeds ([use], [after], [_addPlugin]) *)

(** What a successful registration of [f] on the current unit [c] leaves
    behind: a fresh unit [id] at the end of the heap, one 'enqueue' event
    and no call of [f]; the unit is queued last on [c], or, when the queue
    of [c] is running and idle, it is handed to the worker, which defers
    its loading to the next tick. *)
Definition registered (c : PluginId) (f : Func) (isAfter : bool)
    (s : St) (id : PluginId) (s' : St) : Prop :=
  id = List.length (plugins s) /\
  plugins s' !! id = Some (new_Plugin (avvio s) f isAfter None) /\
  avvio s' = avvio s /\
  trace s' = trace s ++ [EvEmit (Some c) "enqueue"] /\
  micros s' = micros s /\ timers s' = timers s /\
  (forall p pl, p <> c -> plugins s !! p = Some pl -> plugins s' !! p = Some pl) /\
  exists cur cur',
    plugins s !! c = Some cur /\ plugins s' !! c = Some cur' /\
    paused (pl_q cur') = paused (pl_q cur) /\
    if (1 <=? running (pl_q cur))%Z || paused (pl_q cur)
    then items (pl_q cur') = items (pl_q cur) ++ [(IPlugin id, KAddPlugin)] /\
         running (pl_q cur') = running (pl_q cur) /\
         ticks s' = ticks s
    else items (pl_q cur') = items (pl_q cur) /\
         running (pl_q cur') = (running (pl_q cur) + 1)%Z /\
         ticks s' =
           ticks s ++ [TLoadPlugin id (KWorked (QPlugin c) KAddPlugin)].

(** X1: on an orchestrator that has not booted, whose current unit is not
    loaded yet, a registration returns the new unit without calling its
    function: the unit waits at the end of the current unit's queue, or
    for the next tick. *)
Theorem X1_registration_is_deferred (E : Calls) (f : Func) (isAfter : bool)
    (c : PluginId) (rest : list PluginId) (cur : Plugin) (s : St) :
  av_booted (avvio s) = false ->
  av_current (avvio s) = c :: rest ->
  plugins s !! c = Some cur ->
  pl_loaded cur = false ->
  exists s',
    _addPlugin E (Some f) isAfter s = Val (List.length (plugins s)) s' /\
    registered c f isAfter s (List.length (plugins s)) s'.
Proof.
  intros Hb Hc Hl Hld.
  assert (Hlt : c < List.length (plugins s)) by (eapply lookup_lt_Some; eauto).
  assert (Hlook : (plugins s ++ [new_Plugin (avvio s) f isAfter None]) !! c =
                  Some cur) by (now rewrite lookup_app_l).
  unfold _addPlugin, validatePluginFunction, alloc_plugin, enqueue, fastq_push,
    worker, loadPluginNextTick.
  mrun. rewrite Hb, Hc. cbn [head]. mrun. rewrite Hld. mrun.
  destruct ((1 <=? running (pl_q cur))%Z || paused (pl_q cur)) eqn:Hq;
    mrun; (eexists; split; [reflexivity|]); unfold registered;
    cbn [plugins avvio trace micros timers ticks];
    (split; [reflexivity|]);
    (split; [rewrite list_lookup_insert_ne by lia;
             now apply list_lookup_middle|]);
    (split; [reflexivity|]); (split; [reflexivity|]);
    (split; [reflexivity|]); (split; [reflexivity|]);
    (split; [intros p pl Hne Hp;
             rewrite list_lookup_insert_ne by congruence;
             rewrite lookup_app_l by (eapply lookup_lt_Some; eauto);
             exact Hp|]);
    eexists cur, _; (split; [exact Hl|]);
    (split; [apply list_lookup_insert_eq; rewrite length_app; lia|]);
    rewrite Hq; repeat split; reflexivity.
Qed.

(** A store in which the main script runs: the orchestrator just built,
    its root unit on top of the stack. *)
Definition main_store : St :=
  match boot 5 default_options [] with
  | Val _ s => s
  | _ => init default_options
  end.

Lemma X1_registration_is_deferred_witness :
  exists s',
    _addPlugin (engine 5) (Some (FUser (MkFn "plugin" 3 [] RetUndefined))) false
               main_store = Val 1 s' /\
    registered 0 (FUser (MkFn "plugin" 3 [] RetUndefined)) false main_store 1 s'.
Proof.
  refine (X1_registration_is_deferred (engine 5) _ false 0 [] _ main_store
            _ _ _ _); reflexivity.
Defined.

(** ** Loading a unit ([loadPlugin], [exec]) *)

(** (last && last.server) || this._instance: the context a unit is loaded
    with is the server of the unit on top of the stack, or the
    orchestrator's instance. *)
Definition inherited_server (s : St) : nat :=
  match head (av_current (avvio s)) with
  | Some l => match plugins s !! l with
              | Some lp => match pl_server lp with
                           | Some srv => srv
                           | None => av_instance (avvio s)
                           end
              | None => av_instance (avvio s)
              end
  | None => av_instance (avvio s)
  end.

(** The unit [p] ended without having run. *)
Definition ended_unrun (p : PluginId) (pl : Plugin) (s : St) : St :=
  with_trace (fun l => l ++ [EvDebug "finish" p; EvEmit (Some p) "loaded"])
    (with_plugins (<[p := set_pl_loaded true pl]>) s).

(** X2: when the override hook throws for a unit that is not an
    after-unit, the unit's function is never called and no 'start' is
    emitted: the unit is marked loaded at once, the stack is left as it
    was, and the hook's error is handed to the callback. *)
Theorem X2_override_failure (n : nat) (p : PluginId) (pl : Plugin)
    (callback : Cont) (err : Error) (s : St) :
  plugins s !! p = Some pl ->
  pl_isAfter pl = false ->
  pl_loaded pl = false ->
  pl_promise pl = None ->
  av_error (avvio s) = None ->
  av_override (avvio s) (inherited_server s) (pl_func pl) = inl err ->
  loadPlugin (engine (S (S n))) p callback s =
    calls_cont (engine n) callback (Some err) (ended_unrun p pl s).
Proof.
  intros Hp Ha Hl Hpr He Hov.
  assert (Hlt : p < List.length (plugins s)) by (eapply lookup_lt_Some; eauto).
  unfold inherited_server in Hov.
  unfold loadPlugin, exec. mrun. rewrite He, Ha. cbn [is_Some_b andb negb].
  rewrite Hov. rewrite calls_cont_engine. cbn [apply_cont]. unfold finish. mrun.
  rewrite Hpr. mrun. unfold finish_done. mrun. rewrite Hl. mrun.
  rewrite calls_cont_engine. cbn [apply_cont]. unfold loadPlugin_finished. mrun.
  f_equal. unfold ended_unrun, with_trace, with_plugins. cbn [tail].
  rewrite <- app_assoc. destruct s as [a pls prs cl tk mi tms nt nw tr].
  destruct a. reflexivity.
Qed.

Definition failing_override (instance : nat) (func : Func) : Error + nat :=
  inl (UserError "override").

(** The main script's store when the override hook always throws. *)
Definition overridden_store : St :=
  with_avvio (fun a => MkAvvio (av_timeout a) (av_instance a) (av_current a)
                         (av_doStart a) (av_error a) (av_started a)
                         (av_booted a) (av_readyQ a) (av_closeQ a) (av_root a)
                         (av_autostart a) failing_override (av_preReady a))
    (with_plugins (fun l => l ++ [new_Plugin (avvio main_store)
                                    (FUser (MkFn "plugin" 3 [] RetUndefined))
                                    false None])
       main_store).

Lemma X2_override_failure_witness :
  loadPlugin (engine 3) 1 KNoop overridden_store =
    calls_cont (engine 1) KNoop (Some (UserError "override"))
      (ended_unrun 1 (new_Plugin (avvio main_store)
                        (FUser (MkFn "plugin" 3 [] RetUndefined)) false None)
         overridden_store).
Proof.
  refine (X2_override_failure 1 1 _ KNoop (UserError "override")
            overridden_store _ _ _ _ _ _); reflexivity.
Defined.

(** The store in which [loadPlugin] calls the function of unit [p]: the
    unit is on top of the stack, started, with [srv] as its server. *)
Definition load_entry (p : PluginId) (pl : Plugin) (srv : nat) (callback : Cont)
    (s : St) : St :=
  exec_entry p pl srv (KLoadExec p callback)
    (with_avvio (fun a => set_current (p :: av_current a) a) s).

Lemma loadPlugin_runs (E : Calls) (p : PluginId) (pl : Plugin)
    (callback : Cont) (srv : nat) (s : St) :
  plugins s !! p = Some pl ->
  pl_setup_listeners pl = 0 ->
  (if pl_isAfter pl then srv = inherited_server s
   else av_error (avvio s) = None /\
        av_override (avvio s) (inherited_server s) (pl_func pl) = inr srv) ->
  loadPlugin E p callback s =
    (promise <- calls_func E (pl_func pl) [ACtx srv; AOptions; ACallback]
                           (Some (KExecDone p (KLoadExec p callback))) ;;
     then_ret promise
       (TNextTick (TCall (KExecDone p (KLoadExec p callback)) None))
       (fun e => TNextTick (TCall (KExecDone p (KLoadExec p callback)) (Some e))))
      (load_entry p pl srv callback s).
Proof.
  intros Hp Hn Hsrv.
  assert (Hlt : p < List.length (plugins s)) by (eapply lookup_lt_Some; eauto).
  unfold loadPlugin. mrun. fold (inherited_server s).
  unfold load_entry. apply exec_runs; [exact Hp|].
  split; [exact Hn|]. destruct (pl_isAfter pl); exact Hsrv.
Qed.

(** X3: a unit is run with the server of the unit on top of the stack
    (the orchestrator's instance when there is none), passed through the
    override hook unless the unit is an after-unit; that context is handed
    to the unit's function, stored as the unit's server, and is in turn
    what the units loaded under it inherit. *)
Theorem X3_server_inheritance (E : Calls) (p : PluginId) (pl : Plugin)
    (callback : Cont) (srv : nat) (s : St) :
  plugins s !! p = Some pl ->
  pl_setup_listeners pl = 0 ->
  (if pl_isAfter pl then srv = inherited_server s
   else av_error (avvio s) = None /\
        av_override (avvio s) (inherited_server s) (pl_func pl) = inr srv) ->
  loadPlugin E p callback s =
    (promise <- calls_func E (pl_func pl) [ACtx srv; AOptions; ACallback]
                           (Some (KExecDone p (KLoadExec p callback))) ;;
     then_ret promise
       (TNextTick (TCall (KExecDone p (KLoadExec p callback)) None))
       (fun e => TNextTick (TCall (KExecDone p (KLoadExec p callback)) (Some e))))
      (load_entry p pl srv callback s) /\
  inherited_server (load_entry p pl srv callback s) = srv /\
  trace (load_entry p pl srv callback s) = trace s ++ [EvEmit (Some p) "start"].
Proof.
  intros Hp Hn Hsrv.
  assert (Hlt : p < List.length (plugins s)) by (eapply lookup_lt_Some; eauto).
  split; [|split].
  - now apply loadPlugin_runs.
  - unfold inherited_server, load_entry, exec_entry. mrun. cbn [head].
    rewrite list_lookup_insert_eq by exact Hlt. reflexivity.
  - reflexivity.
Qed.

Lemma X3_server_inheritance_witness :
  inherited_server
    (load_entry 0 (new_Plugin (avvio (init default_options)) FRoot false (Some 0))
       0 KRootLoaded (init default_options)) = 0.
Proof.
  refine (proj1 (proj2 (X3_server_inheritance (engine 1) 0 _ KRootLoaded 0
                          (init default_options) _ _ _))).
  - reflexivity.
  - reflexivity.
  - split; reflexivity.
Defined.

(** ** The worker of the close queue ([closeWithCallbackOrNextTick]) *)

(** The arguments the close worker passes: an onClose handler gets the
    context, a close callback the ambient error; the callback is added
    from two declared parameters on, the context of a close callback from
    three. *)
Definition close_args (len : nat) (isOnCloseHandler : bool)
    (error : option Error) (context : nat) : list Arg :=
  if isOnCloseHandler then
    if (len <=? 1)%nat then [ACtx context] else [ACtx context; ACallback]
  else
    match len with
    | 0 | 1 => [AErr error]
    | 2 => [AErr error; ACallback]
    | _ => [AErr error; ACtx context; ACallback]
    end.

(** X4: the close worker calls a handler [f] with the arguments of
    [close_args], even when [f] declares no parameter; it leaves the
    ambient error as it is and arms no timer, whatever the configured
    timeout; a handler of at most one parameter completes on the next
    tick, or when the promise it returned settles, and a handler of more
    parameters only through the callback it is given. *)
Theorem X4_close_calling_conventions (n : nat) (f : Fn)
    (isOnCloseHandler : bool) (callback : Cont) (s : St) :
  let args := close_args (fn_length f) isOnCloseHandler (av_error (avvio s))
                (av_instance (avvio s)) in
  closeWithCallbackOrNextTick (engine (S n)) (FUser f) isOnCloseHandler
                              callback s =
    match run_acts (engine n) (fn_body f)
            (if (fn_length f <=? 1)%nat then None else Some callback)
            (with_trace (fun l => l ++ [EvInvoke (FUser f) args]) s) with
    | Val _ s' =>
        Val tt (if (fn_length f <=? 1)%nat
                then completion (fn_ret f) callback s' else s')
    | Throw e s' => Throw e s'
    | OutOfFuel => OutOfFuel
    end.
Proof.
  cbv zeta. unfold closeWithCallbackOrNextTick, close_args, bind at 1, the_avvio.
  cbn [func_length].
  destruct (fn_length f) as [|[|[|len]]] eqn:Hlen; cbn [Nat.eqb orb Nat.leb];
    destruct isOnCloseHandler;
    unfold bind; rewrite calls_func_engine; cbn [invoke];
    unfold bind, log, modify, ret;
    destruct (run_acts _ _ _ _) as [[] s'|e s'|]; try reflexivity;
    destruct (fn_ret f); reflexivity.
Qed.

(** ** Registration without autostart *)

(** The unit [use(f)] creates under options [o]. *)
Definition parked_unit (o : Options) (f : Fn) : Plugin :=
  MkPlugin false (FUser f) (opt_timeout o) (fn_name f) false
           (MkQueue true 0 [] DNoop) None false None None 0 false None.

(** The stores of a main script of use() calls on an orchestrator built
    with autostart off: the root has run (it only kept its [done]), its
    queue is paused and holds [its], the heap holds the root and [tl]. *)
Definition parked_store (o : Options) (its : list (Item * Cont))
    (tl : list Plugin) (tr : list Event) : St :=
  MkSt (MkAvvio (opt_timeout o) 0 [0]
          (Some (KExecDone 0 (KLoadExec 0 KRootLoaded))) None false false
          (createQueue DReadyQ) (createQueue DCloseQ) (Some 0) false override
          (opt_preReady o))
       (MkPlugin true FRoot 0 "bound root" false (MkQueue true 0 its DNoop)
                 None false None (Some 0) 0 false None :: tl)
       [] [] [] [] [] 0 0 tr.

Lemma run_use_parked (m : nat) (o : Options) (f : Fn)
    (its : list (Item * Cont)) (tl : list Plugin) (tr : list Event) :
  run_act (engine (S m)) (ActUse f) None (parked_store o its tl tr) =
  Val tt (parked_store o (its ++ [(IPlugin (S (List.length tl)), KAddPlugin)])
            (tl ++ [parked_unit o f]) (tr ++ [EvEmit (Some 0) "enqueue"])).
Proof. reflexivity. Qed.

(** The queue entries of units [i], [i+1], ... registered by [use]. *)
Definition use_items (i n : nat) : list (Item * Cont) :=
  map (fun id => (IPlugin id, KAddPlugin)) (seq i n).

Lemma run_uses_parked (m : nat) (o : Options) (fs : list Fn)
    (its : list (Item * Cont)) (tl : list Plugin) (tr : list Event) :
  run_acts (engine (S m)) (map ActUse fs) None (parked_store o its tl tr) =
  Val tt (parked_store o (its ++ use_items (S (List.length tl)) (List.length fs))
            (tl ++ map (parked_unit o) fs)
            (tr ++ repeat (EvEmit (Some 0) "enqueue") (List.length fs))).
Proof.
  revert its tl tr. induction fs as [|f fs IH]; intros its tl tr.
  - cbn. now rewrite !app_nil_r.
  - cbn [map run_acts List.length repeat seq use_items]. unfold bind at 1.
    rewrite run_use_parked, IH. rewrite length_app, Nat.add_1_r.
    unfold use_items. now rewrite <- !app_assoc.
Qed.

Lemma lookup_map_Some {A B} (g : A -> B) (l : list A) (i : nat) (x : B) :
  map g l !! i = Some x -> exists y, x = g y.
Proof.
  revert i. induction l as [|a l IH]; intros i H; [discriminate H|].
  destruct i as [|i]; [injection H as <-; eauto|]. exact (IH i H).
Qed.

(** The store in which such a program rests. *)
Definition parked (o : Options) (fs : list Fn) : St :=
  parked_store o (use_items 1 (List.length fs)) (map (parked_unit o) fs)
    (EvEmit (Some 0) "start" ::
     repeat (EvEmit (Some 0) "enqueue") (List.length fs)).

(** X5: on an orchestrator built with autostart off (and the default
    override hook), a main script of use() calls only registers: whatever
    the plugins, the program rests at once with nothing scheduled, no
    plugin function called, no unit but the root started, the orchestrator
    neither started nor booted, and the units waiting, in registration
    order, on the paused queue of the root. *)
Theorem X5_no_autostart_only_registers (steps m : nat) (o : Options)
    (fs : list Fn) :
  opt_autostart o = false ->
  opt_override o = override ->
  program (S steps) (S (S m)) o (map ActUse fs) = Quiet (parked o fs) /\
  user_calls (trace (parked o fs)) = [] /\
  av_started (avvio (parked o fs)) = false /\
  av_booted (avvio (parked o fs)) = false /\
  (forall i pl, plugins (parked o fs) !! S i = Some pl -> pl_started pl = false) /\
  (exists root, plugins (parked o fs) !! 0 = Some root /\
                paused (pl_q root) = true /\ running (pl_q root) = 0%Z /\
                items (pl_q root) = use_items 1 (List.length fs)).
Proof.
  intros Ha Ho. split; [|split; [|split; [|split; [|split]]]].
  - unfold program, boot, bind.
    replace (loadPlugin (engine (S (S m))) 0 KRootLoaded (init o))
      with (Val tt (parked_store o [] [] [EvEmit (Some 0) "start"])).
    2:{ destruct o as [t a ov pr]. cbn in Ha, Ho. subst a ov. reflexivity. }
    rewrite run_uses_parked. reflexivity.
  - unfold parked, parked_store. cbn [trace user_calls List.filter].
    induction (List.length fs) as [|k IH]; [reflexivity|exact IH].
  - reflexivity.
  - reflexivity.
  - intros i pl Hpl. unfold parked, parked_store in Hpl. cbn in Hpl.
    destruct (lookup_map_Some _ _ _ _ Hpl) as (f & ->). reflexivity.
  - eexists. split; [reflexivity|]. repeat split.
Qed.

Lemma X5_no_autostart_only_registers_witness :
  program 1 2 (MkOptions 0 false override None)
    [ActUse (MkFn "first" 3 [ActDone None] RetUndefined);
     ActUse (MkFn "second" 0 [] RetResolved)] =
  Quiet (parked (MkOptions 0 false override None)
           [MkFn "first" 3 [ActDone None] RetUndefined;
            MkFn "second" 0 [] RetResolved]).
Proof.
  refine (proj1 (X5_no_autostart_only_registers 0 0
                   (MkOptions 0 false override None)
                   [MkFn "first" 3 [ActDone None] RetUndefined;
                    MkFn "second" 0 [] RetResolved] _ _)); reflexivity.
Defined.

(** ** A plugin that fails after registering children *)

Lemma run_acts_app (E : Calls) (l1 l2 : list Act) (done : option Cont) (s : St) :
  run_acts E (l1 ++ l2) done s = (run_acts E l1 done ;; run_acts E l2 done) s.
Proof.
  revert s. induction l1 as [|a l1 IH]; intros s; cbn [app run_acts].
  - reflexivity.
  - unfold bind in *. destruct (run_act E a done s) as [[] s'|e s'|];
      [apply IH|reflexivity|reflexivity].
Qed.

(** A plugin that registers [kids] and then fails with [e]. *)
Definition failing_parent (name : string) (kids : list Fn) (e : string) : Fn :=
  MkFn name 3 (map ActUse kids ++ [ActDone (Some e)]) RetUndefined.

(** The parent unit: [ran] once its function has failed. *)
Definition parent_unit (par : Fn) (started : bool) (its : list (Item * Cont))
    (ran : option Error) : Plugin :=
  MkPlugin started (FUser par) 0 (fn_name par) false (MkQueue true 0 its DNoop)
           ran (is_Some_b ran) None (if started then Some 0 else None) 0
           (is_Some_b ran) None.

(** The stores the program goes through. *)
Definition family_store (current : list PluginId) (error : option Error)
    (booted : bool) (rootref : option PluginId) (rq : Queue)
    (rootpl parent : Plugin) (tl : list Plugin) (tk mi : list Task)
    (tr : list Event) : St :=
  MkSt (MkAvvio 0 0 current (Some (KExecDone 0 (KLoadExec 0 KRootLoaded)))
          error true booted rq (createQueue DCloseQ) rootref true override None)
       (rootpl :: parent :: tl) [] [] tk mi [] 0 0 tr.

Definition parent_done : Cont :=
  KExecDone 1 (KLoadExec 1 (KWorked (QPlugin 0) KAddPlugin)).

Definition load_parent_tick : Task :=
  TLoadPlugin 1 (KWorked (QPlugin 0) KAddPlugin).

Definition check_root : Task := TCheck 0 (KLoadFinish KRootLoaded).

Lemma boot_family (par : Fn) :
  boot 6 default_options [ActUse par] =
  Val tt
    (family_store [0] None false (Some 0) (createQueue DReadyQ)
       (root_plugin false false (MkQueue true 0 [(IPlugin 1, KAddPlugin)] DNoop))
       (parent_unit par false [] None) [] [root_done_tick] []
       [EvEmit (Some 0) "start"; EvEmit (Some 0) "enqueue"]).
Proof. reflexivity. Qed.

Lemma step_family_root_done (par : Fn) (tr : list Event) :
  step 6 Ticks
    (family_store [0] None false (Some 0) (createQueue DReadyQ)
       (root_plugin false false (MkQueue true 0 [(IPlugin 1, KAddPlugin)] DNoop))
       (parent_unit par false [] None) [] [root_done_tick] [] tr) =
  Busy Ticks
    (family_store [0] None false (Some 0) (createQueue DReadyQ)
       (root_plugin true false (MkQueue false 1 [] DNoop))
       (parent_unit par false [] None) [] [load_parent_tick] [check_root]
       (tr ++ [EvDebug "finish" 0])).
Proof. reflexivity. Qed.

(** Loading the parent enters its function. *)
Lemma step_family_enter (name : string) (body : list Act) (tr : list Event) :
  let par := MkFn name 3 body RetUndefined in
  step 6 Ticks
    (family_store [0] None false (Some 0) (createQueue DReadyQ)
       (root_plugin true false (MkQueue false 1 [] DNoop))
       (parent_unit par false [] None) [] [load_parent_tick] [check_root] tr) =
  after_task Ticks
    (run_acts (engine 5) body (Some parent_done)
       (family_store [1; 0] None false (Some 0) (createQueue DReadyQ)
          (root_plugin true false (MkQueue false 1 [] DNoop))
          (parent_unit par true [] None) [] [] [check_root]
          ((tr ++ [EvEmit (Some 1) "start"]) ++
           [EvInvoke (FUser par) [ACtx 0; AOptions; ACallback]]))).
Proof.
  cbv zeta. unfold step, after_task. cbn [ticks family_store].
  unfold load_parent_tick, run_task, with_ticks. cbv zeta. cbn [avvio plugins promises cells ticks micros timers next_timer now trace].
  erewrite (loadPlugin_runs _ 1 _ _ 0);
    [|reflexivity|reflexivity|split; reflexivity].
  cbn [pl_func parent_unit]. unfold bind at 1. rewrite calls_func_engine.
  cbn [invoke fn_body fn_ret]. unfold bind, log, modify, ret.
  match goal with
  | |- context [run_acts _ _ _ ?s0] =>
      replace s0 with
        (family_store [1; 0] None false (Some 0) (createQueue DReadyQ)
           (root_plugin true false (MkQueue false 1 [] DNoop))
           (parent_unit (MkFn name 3 body RetUndefined) true [] None) [] []
           [check_root]
           ((tr ++ [EvEmit (Some 1) "start"]) ++
            [EvInvoke (FUser (MkFn name 3 body RetUndefined))
               [ACtx 0; AOptions; ACallback]])) by reflexivity
  end.
  destruct (run_acts _ _ _ _) as [[] s'|e s'|]; reflexivity.
Qed.

(** Inside the parent's function, use() only queues on the parent. *)
Lemma run_use_family (f : Fn) (par : Fn) (rq : Queue) (rootpl : Plugin)
    (its : list (Item * Cont)) (tl : list Plugin) (mi : list Task)
    (tr : list Event) :
  run_act (engine 5) (ActUse f) (Some parent_done)
    (family_store [1; 0] None false (Some 0) rq rootpl
       (parent_unit par true its None) tl [] mi tr) =
  Val tt
    (family_store [1; 0] None false (Some 0) rq rootpl
       (parent_unit par true
          (its ++ [(IPlugin (S (S (List.length tl))), KAddPlugin)]) None)
       (tl ++ [parked_unit default_options f]) [] mi
       (tr ++ [EvEmit (Some 1) "enqueue"])).
Proof. reflexivity. Qed.

Lemma run_uses_family (fs : list Fn) (par : Fn) (rq : Queue) (rootpl : Plugin)
    (its : list (Item * Cont)) (tl : list Plugin) (mi : list Task)
    (tr : list Event) :
  run_acts (engine 5) (map ActUse fs) (Some parent_done)
    (family_store [1; 0] None false (Some 0) rq rootpl
       (parent_unit par true its None) tl [] mi tr) =
  Val tt
    (family_store [1; 0] None false (Some 0) rq rootpl
       (parent_unit par true
          (its ++ use_items (S (S (List.length tl))) (List.length fs)) None)
       (tl ++ map (parked_unit default_options) fs) [] mi
       (tr ++ repeat (EvEmit (Some 1) "enqueue") (List.length fs))).
Proof.
  revert its tl tr. induction fs as [|f fs IH]; intros its tl tr.
  - cbn. now rewrite !app_nil_r.
  - cbn [map run_acts List.length repeat seq use_items]. unfold bind at 1.
    rewrite run_use_family, IH. rewrite length_app, Nat.add_1_r.
    unfold use_items. now rewrite <- !app_assoc.
Qed.

(** done(e): the parent is marked loaded without its queue being resumed,
    the stack is popped, the error becomes the ambient error, and the
    root's queue is released. *)
Lemma run_done_family (e : string) (par : Fn) (its : list (Item * Cont))
    (tl : list Plugin) (mi : list Task) (tr : list Event) :
  run_acts (engine 5) [ActDone (Some e)] (Some parent_done)
    (family_store [1; 0] None false (Some 0) (createQueue DReadyQ)
       (root_plugin true false (MkQueue false 1 [] DNoop))
       (parent_unit par true its None) tl [] mi tr) =
  Val tt
    (family_store [0] (Some (UserError e)) false (Some 0) (createQueue DReadyQ)
       (root_plugin true false (MkQueue false 0 [] DNoop))
       (parent_unit par true its (Some (UserError e))) tl [] mi
       ((tr ++ [EvDebug "finish" 1]) ++ [EvEmit (Some 1) "loaded"])).
Proof. reflexivity. Qed.

(** [check] then finds the root drained: the orchestrator boots, with the
    ambient error still set. *)
Lemma step_family_root_loaded (error : option Error) (parent : Plugin)
    (tl : list Plugin) (tr : list Event) :
  step 6 Micros
    (family_store [0] error false (Some 0) (createQueue DReadyQ)
       (root_plugin true false (MkQueue false 0 [] DNoop)) parent tl []
       [check_root] tr) =
  Busy Micros
    (family_store [] error true None (MkQueue false 0 [] DNoop)
       (root_plugin true true (MkQueue false 0 [] DNoop)) parent tl [] []
       (((tr ++ [EvEmit (Some 0) "loaded"]) ++ [EvEmit None "preReady"]) ++
        [EvEmit None "start"])).
Proof. reflexivity. Qed.

(** The store in which the program rests. *)
Definition orphaned (name : string) (kids : list Fn) (e : string) : St :=
  let par := failing_parent name kids e in
  family_store [] (Some (UserError e)) true None (MkQueue false 0 [] DNoop)
    (root_plugin true true (MkQueue false 0 [] DNoop))
    (parent_unit par true (use_items 2 (List.length kids))
       (Some (UserError e)))
    (map (parked_unit default_options) kids) [] []
    ([EvEmit (Some 0) "start"; EvEmit (Some 0) "enqueue"; EvDebug "finish" 0;
      EvEmit (Some 1) "start";
      EvInvoke (FUser par) [ACtx 0; AOptions; ACallback]] ++
     repeat (EvEmit (Some 1) "enqueue") (List.length kids) ++
     [EvDebug "finish" 1; EvEmit (Some 1) "loaded"; EvEmit (Some 0) "loaded";
      EvEmit None "preReady"; EvEmit None "start"]).

Lemma family_runs (extra : nat) (name : string) (kids : list Fn) (e : string) :
  program (6 + extra) 6 default_options [ActUse (failing_parent name kids e)] =
  Quiet (orphaned name kids e).
Proof.
  unfold program. rewrite boot_family. cbn [after_task Nat.add].
  erewrite loop_step by apply step_family_root_done.
  erewrite loop_step.
  2:{ unfold failing_parent. rewrite step_family_enter. cbv zeta.
      rewrite run_acts_app. unfold bind. rewrite run_uses_family.
      rewrite run_done_family. reflexivity. }
  erewrite loop_step by reflexivity.
  erewrite loop_step by apply step_family_root_loaded.
  erewrite loop_step by reflexivity.
  erewrite loop_quiet by reflexivity.
  unfold orphaned, failing_parent. cbn [app List.length].
  rewrite <- ?app_assoc. reflexivity.
Qed.

Lemma user_calls_repeat_emit (who : option PluginId) (event : string) (n : nat) :
  user_calls (repeat (EvEmit who event) n) = [].
Proof. induction n as [|n IH]; [reflexivity|exact IH]. Qed.

Lemma emitted_repeat_plugin (event : string) (p : PluginId) (event' : string)
    (n : nat) :
  emitted event (repeat (EvEmit (Some p) event') n) = 0.
Proof. induction n as [|n IH]; [reflexivity|exact IH]. Qed.

(** X6: when a plugin registers children and then fails, the children
    are never loaded: whatever the children and the error, the program
    rests with the parent's function as the only one called, the parent
    marked loaded with its error, its queue still paused with the children
    on it, none of them started; the error is left as the ambient error,
    and the orchestrator boots and emits 'start' all the same. *)
Theorem X6_children_of_failed_plugin (extra : nat) (name : string)
    (kids : list Fn) (e : string) :
  let par := failing_parent name kids e in
  let s := orphaned name kids e in
  program (6 + extra) 6 default_options [ActUse par] = Quiet s /\
  user_calls (trace s) = [EvInvoke (FUser par) [ACtx 0; AOptions; ACallback]] /\
  (exists pl, plugins s !! 1 = Some pl /\ pl_loaded pl = true /\
              pl_error pl = Some (UserError e) /\
              paused (pl_q pl) = true /\
              items (pl_q pl) = use_items 2 (List.length kids)) /\
  (forall i pl, plugins s !! S (S i) = Some pl ->
                pl_started pl = false /\ pl_loaded pl = false) /\
  av_error (avvio s) = Some (UserError e) /\
  av_booted (avvio s) = true /\
  emitted "start" (trace s) = 1.
Proof.
  cbv zeta. split; [apply family_runs|].
  split.
  { unfold orphaned, family_store. cbn [trace].
    rewrite !user_calls_app, user_calls_repeat_emit. reflexivity. }
  split; [eexists; split; [reflexivity|]; repeat split|].
  split.
  { intros i pl Hpl. unfold orphaned, family_store in Hpl. cbn in Hpl.
    destruct (lookup_map_Some _ _ _ _ Hpl) as (f & ->). split; reflexivity. }
  split; [reflexivity|]. split; [reflexivity|].
  unfold orphaned, family_store. cbn [trace].
  rewrite !emitted_app, emitted_repeat_plugin. reflexivity.
Qed.

(** ** Closing: onClose handlers and the close callback *)

(** What waits on the close queue: a function and whether it was
    registered by onClose. *)
Definition closing_item (w : Fn * bool) : Item * Cont :=
  (IFunc (FUser (fst w)) (snd w), if snd w then KOnClose else KNoop).

Definition closing_call (w : Fn * bool) : Event :=
  EvInvoke (FUser (fst w)) (close_args (fn_length (fst w)) (snd w) None 0).

(** The tick that completes a handler of the close queue. *)
Definition close_worked_tick (tag : bool) : Task :=
  TCall (KWorked QClose (if tag then KOnClose else KNoop)) None.

Definition closing_store (rootpl : Plugin) (current : list PluginId)
    (booted : bool) (rootref : option PluginId) (rq cq : Queue)
    (tk mi : list Task) (tr : list Event) : St :=
  MkSt (MkAvvio 0 0 current (Some (KExecDone 0 (KLoadExec 0 KRootLoaded)))
          None true booted rq cq rootref true override None)
       [rootpl] [] [] tk mi [] 0 0 tr.

Section Closing.

Variable m : nat.
Local Abbreviation n := (5 + m).

(** onClose(h) puts [h] in front of the paused close queue. *)
Lemma run_onClose (h : Fn) (rootpl : Plugin) (rq : Queue)
    (its : list (Item * Cont)) (tk mi : list Task) (tr : list Event) :
  run_act (engine n) (ActOnClose h) None
    (closing_store rootpl [0] false (Some 0) rq (MkQueue true 0 its DCloseQ)
       tk mi tr) =
  Val tt
    (closing_store rootpl [0] false (Some 0) rq
       (MkQueue true 0 (closing_item (h, true) :: its) DCloseQ) tk mi tr).
Proof. reflexivity. Qed.

Lemma run_onCloses (hs : list Fn) (rootpl : Plugin) (rq : Queue)
    (its : list (Item * Cont)) (tk mi : list Task) (tr : list Event) :
  run_acts (engine n) (map ActOnClose hs) None
    (closing_store rootpl [0] false (Some 0) rq (MkQueue true 0 its DCloseQ)
       tk mi tr) =
  Val tt
    (closing_store rootpl [0] false (Some 0) rq
       (MkQueue true 0
          (map closing_item (map (fun h => (h, true)) (rev hs)) ++ its)
          DCloseQ) tk mi tr).
Proof.
  revert its. induction hs as [|h hs IH]; intros its; [reflexivity|].
  cbn [map run_acts rev]. unfold bind at 1. rewrite run_onClose, IH.
  now rewrite !map_app, <- app_assoc.
Qed.

Lemma boot_closing (hs : list Fn) (cb : Fn) :
  boot n default_options (map ActOnClose hs ++ [ActClose cb]) =
  Val tt
    (closing_store (root_plugin false false (MkQueue true 0 [] DNoop)) [0]
       false (Some 0)
       (MkQueue true 0 [(IFunc (FCloseReady (FUser cb)) false, KNoop)] DReadyQ)
       (MkQueue true 0 (map closing_item (map (fun h => (h, true)) (rev hs)))
          DCloseQ)
       [root_done_tick] [TStart] [EvEmit (Some 0) "start"]).
Proof.
  unfold boot, bind.
  replace (loadPlugin (engine n) 0 KRootLoaded (init default_options))
    with (Val tt (closing_store
                    (root_plugin false false (MkQueue true 0 [] DNoop)) [0]
                    false (Some 0) (createQueue DReadyQ) (createQueue DCloseQ)
                    [root_done_tick] [] [EvEmit (Some 0) "start"]))
    by reflexivity.
  rewrite run_acts_app. unfold bind, createQueue. rewrite run_onCloses.
  rewrite app_nil_r. reflexivity.
Qed.


Lemma step_closing_root_done (rq cq : Queue) (tk mi : list Task)
    (tr : list Event) :
  step n Ticks
    (closing_store (root_plugin false false (MkQueue true 0 [] DNoop)) [0]
       false (Some 0) rq cq (root_done_tick :: tk) mi tr) =
  Busy Ticks
    (closing_store (root_plugin true false (MkQueue false 0 [] DNoop)) [0]
       false (Some 0) rq cq tk (mi ++ [check_root])
       (tr ++ [EvDebug "finish" 0])).
Proof. reflexivity. Qed.

(** The root is loaded, the ready-queue is resumed and runs close()'s
    arrow: the callback joins the end of the close queue, which is to be
    resumed on the next tick. *)
Lemma step_closing_root_loaded (cb : Fn) (its : list (Item * Cont))
    (tk : list Task) (tr : list Event) :
  step n Micros
    (closing_store (root_plugin true false (MkQueue false 0 [] DNoop)) [0]
       false (Some 0)
       (MkQueue true 0 [(IFunc (FCloseReady (FUser cb)) false, KNoop)] DReadyQ)
       (MkQueue true 0 its DCloseQ) tk [check_root] tr) =
  Busy Micros
    (closing_store (root_plugin true true (MkQueue false 0 [] DNoop)) []
       true None (MkQueue false 1 [] DReadyQ)
       (MkQueue true 0 (its ++ [closing_item (cb, false)]) DCloseQ)
       (tk ++ [TResume QClose; ready_worked_tick]) []
       (tr ++ [EvEmit (Some 0) "loaded"; EvEmit None "preReady"])).
Proof.
  replace (tr ++ [EvEmit (Some 0) "loaded"; EvEmit None "preReady"])
    with ((tr ++ [EvEmit (Some 0) "loaded"]) ++ [EvEmit None "preReady"])
    by (now rewrite <- app_assoc).
  replace (tk ++ [TResume QClose; ready_worked_tick])
    with ((tk ++ [TResume QClose]) ++ [ready_worked_tick])
    by (now rewrite <- app_assoc).
  reflexivity.
Qed.

(** The resumed close queue calls its first handler. *)
Lemma step_closing_resume (w : Fn * bool) (rest : list (Item * Cont))
    (rq : Queue) (tk : list Task) (tr : list Event) :
  plain (fst w) ->
  step n Ticks
    (closing_store (root_plugin true true (MkQueue false 0 [] DNoop)) []
       true None rq (MkQueue true 0 (closing_item w :: rest) DCloseQ)
       (TResume QClose :: tk) [] tr) =
  Busy Ticks
    (closing_store (root_plugin true true (MkQueue false 0 [] DNoop)) []
       true None rq (MkQueue false 1 rest DCloseQ)
       (tk ++ [close_worked_tick (snd w)]) [] (tr ++ [closing_call w])).
Proof.
  destruct w as [f tag]. cbn [fst snd]. intros Hf.
  destruct (plain_inv f Hf) as [name [-> | ->]]; destruct tag; destruct rest;
    reflexivity.
Qed.

(** The ready-queue, emptied by close()'s arrow, emits 'start'. *)
Lemma step_closing_start (cq : Queue) (tk : list Task) (tr : list Event) :
  step n Ticks
    (closing_store (root_plugin true true (MkQueue false 0 [] DNoop)) []
       true None (MkQueue false 1 [] DReadyQ) cq (ready_worked_tick :: tk) []
       tr) =
  Busy Ticks
    (closing_store (root_plugin true true (MkQueue false 0 [] DNoop)) []
       true None (MkQueue false 0 [] DNoop) cq tk []
       (tr ++ [EvEmit None "start"])).
Proof. reflexivity. Qed.

(** A completed handler releases the next one. *)
Lemma step_closing_next (tag : bool) (w : Fn * bool)
    (rest : list (Item * Cont)) (rq : Queue) (tk : list Task)
    (tr : list Event) :
  plain (fst w) ->
  step n Ticks
    (closing_store (root_plugin true true (MkQueue false 0 [] DNoop)) []
       true None rq (MkQueue false 1 (closing_item w :: rest) DCloseQ)
       (close_worked_tick tag :: tk) [] tr) =
  Busy Ticks
    (closing_store (root_plugin true true (MkQueue false 0 [] DNoop)) []
       true None rq (MkQueue false 1 rest DCloseQ)
       (tk ++ [close_worked_tick (snd w)]) [] (tr ++ [closing_call w])).
Proof.
  destruct w as [f tag']. cbn [fst snd]. intros Hf.
  destruct (plain_inv f Hf) as [name [-> | ->]]; destruct tag, tag';
    reflexivity.
Qed.

(** The last one drains the close queue: 'close' is emitted. *)
Lemma step_closing_drained (tag : bool) (rq : Queue) (tk : list Task)
    (tr : list Event) :
  step n Ticks
    (closing_store (root_plugin true true (MkQueue false 0 [] DNoop)) []
       true None rq (MkQueue false 1 [] DCloseQ)
       (close_worked_tick tag :: tk) [] tr) =
  Busy Ticks
    (closing_store (root_plugin true true (MkQueue false 0 [] DNoop)) []
       true None (set_drain DNoop rq) (MkQueue false 0 [] DCloseQ) tk []
       (tr ++ [EvEmit None "close"])).
Proof. destruct tag; reflexivity. Qed.

Lemma step_closing_to_micros (rootpl : Plugin) (current : list PluginId)
    (booted : bool) (rootref : option PluginId) (rq cq : Queue)
    (t : Task) (mi : list Task) (tr : list Event) :
  step n Ticks
    (closing_store rootpl current booted rootref rq cq [] (t :: mi) tr) =
  Busy Micros
    (closing_store rootpl current booted rootref rq cq [] (t :: mi) tr).
Proof. reflexivity. Qed.

Lemma step_closing_to_ticks (rootpl : Plugin) (current : list PluginId)
    (booted : bool) (rootref : option PluginId) (rq cq : Queue)
    (tk : list Task) (tr : list Event) :
  step n Micros (closing_store rootpl current booted rootref rq cq tk [] tr) =
  Busy Ticks (closing_store rootpl current booted rootref rq cq tk [] tr).
Proof. reflexivity. Qed.

(** close() called start() through ready(): one more tick for the root's
    [done], which does nothing by then. *)
Lemma step_closing_ready_start (rootpl : Plugin) (current : list PluginId)
    (booted : bool) (rootref : option PluginId) (rq cq : Queue)
    (tk mi : list Task) (tr : list Event) :
  step n Micros
    (closing_store rootpl current booted rootref rq cq tk (TStart :: mi) tr) =
  Busy Micros
    (closing_store rootpl current booted rootref rq cq
       (tk ++ [root_done_tick]) mi tr).
Proof. reflexivity. Qed.

Lemma step_closing_start_again (loaded : bool) (current : list PluginId)
    (booted : bool) (rootref : option PluginId) (q rq cq : Queue)
    (tk mi : list Task) (tr : list Event) :
  step n Ticks
    (closing_store (root_plugin true loaded q) current booted rootref rq cq
       (root_done_tick :: tk) mi tr) =
  Busy Ticks
    (closing_store (root_plugin true loaded q) current booted rootref rq cq
       tk mi tr).
Proof. reflexivity. Qed.

Lemma step_closing_quiet (rootpl : Plugin) (current : list PluginId)
    (booted : bool) (rootref : option PluginId) (rq cq : Queue)
    (tr : list Event) :
  step n Ticks (closing_store rootpl current booted rootref rq cq [] [] tr) =
  Quiet (closing_store rootpl current booted rootref rq cq [] [] tr).
Proof. reflexivity. Qed.

Lemma loop_closing_queue (extra : nat) (ws : list (Fn * bool)) (tag : bool)
    (rq : Queue) (tr : list Event) :
  Forall (fun w => plain (fst w)) ws ->
  loop (List.length ws + 2 + extra) n Ticks
    (closing_store (root_plugin true true (MkQueue false 0 [] DNoop)) []
       true None rq (MkQueue false 1 (map closing_item ws) DCloseQ)
       [close_worked_tick tag] [] tr) =
  Quiet
    (closing_store (root_plugin true true (MkQueue false 0 [] DNoop)) []
       true None (set_drain DNoop rq) (MkQueue false 0 [] DCloseQ) [] []
       (tr ++ map closing_call ws ++ [EvEmit None "close"])).
Proof.
  intros Hws. revert tag tr. induction Hws as [|w ws Hw Hws IH]; intros tag tr.
  - cbn [List.length Nat.add map app].
    erewrite loop_step by apply step_closing_drained.
    erewrite loop_quiet by apply step_closing_quiet. reflexivity.
  - cbn [List.length Nat.add map].
    erewrite loop_step by (apply step_closing_next; exact Hw).
    cbn [app]. rewrite IH. now rewrite <- app_assoc.
Qed.


(** What the close queue serves: the onClose handlers, last registered
    first, then the close callback. *)
Definition closing_order (hs : list Fn) (cb : Fn) : list (Fn * bool) :=
  map (fun h => (h, true)) (rev hs) ++ [(cb, false)].

(** The store in which a program that closes rests. *)
Definition closed (hs : list Fn) (cb : Fn) : St :=
  let calls := map closing_call (closing_order hs cb) in
  closing_store (root_plugin true true (MkQueue false 0 [] DNoop)) []
    true None (MkQueue false 0 [] DNoop) (MkQueue false 0 [] DCloseQ) [] []
    ([EvEmit (Some 0) "start"; EvDebug "finish" 0; EvEmit (Some 0) "loaded";
      EvEmit None "preReady"] ++
     firstn 1 calls ++ [EvEmit None "start"] ++ skipn 1 calls ++
     [EvEmit None "close"]).

Lemma closing_runs (extra : nat) (hs : list Fn) (cb : Fn) :
  Forall plain hs -> plain cb ->
  program (List.length hs + 10 + extra) n default_options
          (map ActOnClose hs ++ [ActClose cb]) =
  Quiet (closed hs cb).
Proof.
  intros Hhs Hcb. unfold program. rewrite boot_closing. cbn [after_task].
  assert (Hws : Forall (fun w => plain (fst w)) (closing_order hs cb)).
  { unfold closing_order. apply Forall_app. split.
    - apply Forall_map. cbn [fst]. now apply Forall_rev.
    - apply Forall_cons. split; [exact Hcb|apply Forall_nil; exact I]. }
  assert (Hlen : List.length (closing_order hs cb) = S (List.length hs)).
  { unfold closing_order.
    rewrite length_app, length_map, length_rev. cbn. lia. }
  unfold closed. fold (closing_order hs cb) in *.
  replace (List.length hs + 10 + extra)
    with (S (S (S (S (S (S (S (S (List.length hs + 2 + extra)))))))))
    by lia.
  erewrite loop_step by apply step_closing_root_done. cbn [app].
  erewrite loop_step by apply step_closing_to_micros.
  erewrite loop_step by apply step_closing_ready_start. cbn [app].
  erewrite loop_step by apply step_closing_root_loaded. cbn [app].
  erewrite loop_step by apply step_closing_to_ticks.
  erewrite loop_step by apply step_closing_start_again.
  change (map closing_item (map (fun h => (h, true)) (rev hs)) ++
          [closing_item (cb, false)])
    with (map closing_item (map (fun h => (h, true)) (rev hs)) ++
          map closing_item [(cb, false)]).
  rewrite <- map_app. fold (closing_order hs cb).
  destruct (closing_order hs cb) as [|w ws]; [discriminate Hlen|].
  apply Forall_cons in Hws. destruct Hws as [Hw Hws].
  cbn [List.length] in Hlen. injection Hlen as Hlen. rewrite <- Hlen.
  cbn [map].
  erewrite loop_step by (apply step_closing_resume; exact Hw). cbn [app].
  erewrite loop_step by apply step_closing_start.
  rewrite loop_closing_queue by exact Hws.
  cbn [firstn skipn app set_drain paused running items].
  now rewrite <- ?app_assoc.
Qed.

End Closing.

Lemma closing_call_plain (f : Fn) (tag : bool) :
  plain f ->
  closing_call (f, tag) =
    EvInvoke (FUser f) [if tag then ACtx 0 else AErr None].
Proof.
  intros Hf. destruct (plain_inv f Hf) as [name [-> | ->]]; destruct tag;
    reflexivity.
Qed.

Lemma user_calls_closing (ws : list (Fn * bool)) :
  user_calls (map closing_call ws) = map closing_call ws.
Proof.
  induction ws as [|w ws IH]; [reflexivity|].
  change (closing_call w :: user_calls (map closing_call ws) =
          closing_call w :: map closing_call ws).
  now rewrite IH.
Qed.

Lemma emitted_closing (event : string) (ws : list (Fn * bool)) :
  emitted event (map closing_call ws) = 0.
Proof. induction ws as [|w ws IH]; [reflexivity|exact IH]. Qed.

Lemma closing_calls_plain (hs : list Fn) (cb : Fn) :
  Forall plain hs -> plain cb ->
  map closing_call (closing_order hs cb) =
    map (fun h => EvInvoke (FUser h) [ACtx 0]) (rev hs) ++
    [EvInvoke (FUser cb) [AErr None]].
Proof.
  intros Hhs Hcb. unfold closing_order.
  rewrite map_app, map_map. cbn [map]. rewrite (closing_call_plain cb false Hcb).
  f_equal. apply map_ext_in. intros h Hh. apply closing_call_plain.
  rewrite Forall_forall in Hhs. apply Hhs. apply list_elem_of_In.
  now apply in_rev.
Qed.



(** ** Events that happen at most once *)

(** How many times unit [p] emitted 'loaded'. *)
Definition loaded_events (p : PluginId) (l : list Event) : nat :=
  List.length (List.filter (fun ev => match ev with
                                      | EvEmit (Some p') e =>
                                          (p' =? p)%nat && String.eqb e "loaded"
                                      | _ => false
                                      end) l).

(** Whether a drain hook is the one the constructor gives the
    ready-queue. *)
Definition emits_start (d : Drain) : bool :=
  match d with DReadyQ => true | _ => false end.

(** What every store keeps: 'start' was emitted at most once, and not at
    all while the ready-queue still carries its first drain hook, which no
    other queue carries; a unit emitted 'loaded' once if its loaded flag is
    set and never otherwise. *)
Record Once (s : St) : Prop := MkOnce {
  once_start : emitted "start" (trace s) +
               (if emits_start (drain (av_readyQ (avvio s))) then 1 else 0) <= 1;
  once_closeQ : emits_start (drain (av_closeQ (avvio s))) = false;
  once_queues : forall p pl, plugins s !! p = Some pl ->
                  emits_start (drain (pl_q pl)) = false;
  once_loaded : forall p,
      loaded_events p (trace s) =
      match plugins s !! p with
      | Some pl => if pl_loaded pl then 1 else 0
      | None => 0
      end
}.

(** [m] keeps [Once], whether it returns or throws. *)
Definition keeps {A} (m : M A) : Prop :=
  forall s, Once s ->
    match m s with
    | Val _ s' | Throw _ s' => Once s'
    | OutOfFuel => True
    end.

Lemma keeps_ret {A} (a : A) : keeps (ret a).
Proof. intros s H. exact H. Qed.

Lemma keeps_throw {A} (e : Error) : keeps (@throw A e).
Proof. intros s H. exact H. Qed.

Lemma keeps_bind {A B} (m : M A) (k : A -> M B) :
  keeps m -> (forall a, keeps (k a)) -> keeps (bind m k).
Proof.
  intros Hm Hk s H. unfold bind. specialize (Hm s H).
  destruct (m s) as [a s1|e s1|]; [|exact Hm|exact I].
  apply (Hk a s1 Hm).
Qed.

Lemma keeps_try_catch {A} (m : M A) (h : Error -> M A) :
  keeps m -> (forall e, keeps (h e)) -> keeps (try_catch m h).
Proof.
  intros Hm Hh s H. unfold try_catch. specialize (Hm s H).
  destruct (m s) as [a s1|e s1|]; [exact Hm| |exact I].
  apply (Hh e s1 Hm).
Qed.

Lemma keeps_modify (f : St -> St) :
  (forall s, Once s -> Once (f s)) -> keeps (modify f).
Proof. intros Hf s H. apply Hf, H. Qed.

Lemma keeps_read {A} (g : St -> A) : keeps (fun s => Val (g s) s).
Proof. intros s H. exact H. Qed.

(** A store that differs in components [Once] does not read. *)
Lemma Once_same (s s' : St) :
  trace s' = trace s -> plugins s' = plugins s ->
  av_readyQ (avvio s') = av_readyQ (avvio s) ->
  av_closeQ (avvio s') = av_closeQ (avvio s) ->
  Once s -> Once s'.
Proof.
  intros Ht Hp Hr Hc [H1 H2 H3 H4].
  constructor; rewrite ?Ht, ?Hp, ?Hr, ?Hc; assumption.
Qed.

Lemma emitted_snoc (event : string) (l : list Event) (ev : Event) :
  emitted event (l ++ [ev]) =
  emitted event l + match ev with
                    | EvEmit None e => if String.eqb e event then 1 else 0
                    | _ => 0
                    end.
Proof.
  unfold emitted. rewrite List.filter_app, length_app. f_equal. cbn.
  destruct ev as [[p|] e| | | |]; try reflexivity.
  destruct (String.eqb e event); reflexivity.
Qed.

Lemma loaded_events_snoc (p : PluginId) (l : list Event) (ev : Event) :
  loaded_events p (l ++ [ev]) =
  loaded_events p l +
  match ev with
  | EvEmit (Some p') e => if (p' =? p)%nat && String.eqb e "loaded" then 1 else 0
  | _ => 0
  end.
Proof.
  unfold loaded_events. rewrite List.filter_app, length_app. f_equal. cbn.
  destruct ev as [[p'|] e| | | |]; try reflexivity.
  destruct ((p' =? p)%nat && String.eqb e "loaded"); reflexivity.
Qed.

(** An event other than the orchestrator's 'start' and a unit's
    'loaded'. *)
Definition other_event (ev : Event) : bool :=
  match ev with
  | EvEmit None e => negb (String.eqb e "start")
  | EvEmit (Some _) e => negb (String.eqb e "loaded")
  | _ => true
  end.

Lemma Once_log (ev : Event) (s : St) :
  other_event ev = true -> Once s ->
  Once (with_trace (fun l => l ++ [ev]) s).
Proof.
  intros Hev [H1 H2 H3 H4]. constructor; cbn [trace with_trace avvio plugins].
  - rewrite emitted_snoc. destruct ev as [[p|] e| | | |]; rewrite ?Nat.add_0_r;
      try assumption.
    cbn in Hev. destruct (String.eqb e "start"); [discriminate|].
    now rewrite Nat.add_0_r.
  - assumption.
  - assumption.
  - intros p. rewrite loaded_events_snoc, H4.
    destruct ev as [[p'|] e| | | |]; rewrite ?Nat.add_0_r; try reflexivity.
    cbn in Hev. destruct (String.eqb e "loaded"); [discriminate|].
    now rewrite andb_false_r, Nat.add_0_r.
Qed.

Lemma keeps_log (ev : Event) : other_event ev = true -> keeps (log ev).
Proof. intros H. apply keeps_modify. intros s. now apply Once_log. Qed.

Lemma keeps_emit (who : option PluginId) (event : string) :
  other_event (EvEmit who event) = true -> keeps (emit who event).
Proof. intros H. apply keeps_modify. intros s. now apply Once_log. Qed.

Lemma keeps_nextTick (t : Task) : keeps (nextTick t).
Proof. apply keeps_modify. intros s. now apply Once_same. Qed.

Lemma keeps_queueMicrotask (t : Task) : keeps (queueMicrotask t).
Proof. apply keeps_modify. intros s. now apply Once_same. Qed.

Lemma keeps_queueReactions (l : list Task) : keeps (queueReactions l).
Proof. apply keeps_modify. intros s. now apply Once_same. Qed.

Lemma keeps_setTimeout (t : Task) (ms : nat) : keeps (setTimeout t ms).
Proof. intros s. now apply Once_same. Qed.

Lemma keeps_clearTimeout (id : TimerId) : keeps (clearTimeout id).
Proof. apply keeps_modify. intros s. now apply Once_same. Qed.

Lemma keeps_alloc_cell : keeps alloc_cell.
Proof. intros s. now apply Once_same. Qed.

Lemma keeps_with_cells (f : list (option nat) -> list (option nat)) :
  keeps (modify (with_cells f)).
Proof. apply keeps_modify. intros s. now apply Once_same. Qed.

Lemma keeps_with_promises (f : list PromiseState -> list PromiseState) :
  keeps (modify (with_promises f)).
Proof. apply keeps_modify. intros s. now apply Once_same. Qed.

Lemma keeps_createPromise : keeps createPromise.
Proof. intros s. now apply Once_same. Qed.

Lemma keeps_Promise_resolve : keeps Promise_resolve.
Proof. intros s. now apply Once_same. Qed.

Lemma keeps_the_avvio : keeps the_avvio.
Proof. apply keeps_read. Qed.

Lemma keeps_get : keeps get.
Proof. apply keeps_read. Qed.

Lemma keeps_get_plugin (p : PluginId) : keeps (get_plugin p).
Proof. intros s H. unfold get_plugin. destruct (plugins s !! p); exact H. Qed.

Lemma keeps_promise_state (pr : PromiseId) : keeps (promise_state pr).
Proof. intros s H. unfold promise_state. destruct (promises s !! pr); exact H. Qed.

Lemma keeps_get_q (q : QId) : keeps (get_q q).
Proof.
  destruct q; unfold get_q; apply keeps_bind;
    auto using keeps_get_plugin, keeps_the_avvio; intros; apply keeps_ret.
Qed.

(** The orchestrator's fields other than its two queues. *)
Lemma keeps_update_avvio (f : Avvio -> Avvio) :
  (forall a, av_readyQ (f a) = av_readyQ a /\ av_closeQ (f a) = av_closeQ a) ->
  keeps (update_avvio f).
Proof.
  intros Hf. apply keeps_modify. intros s.
  apply Once_same; try reflexivity; apply Hf.
Qed.

(** Updates of a unit that leave its loaded flag and the drain hook of
    its queue alone, or replace the hook by one that does not emit
    'start'. *)
Definition tame (f : Plugin -> Plugin) : Prop :=
  forall pl, pl_loaded (f pl) = pl_loaded pl /\
             (emits_start (drain (pl_q pl)) = false ->
              emits_start (drain (pl_q (f pl))) = false).

Lemma Once_update_plugin (p : PluginId) (f : Plugin -> Plugin) (s : St) :
  tame f -> Once s ->
  Once (with_plugins (fun l => match l !! p with
                               | Some pl => <[p := f pl]> l
                               | None => l
                               end) s).
Proof.
  intros Hf H. destruct (plugins s !! p) as [pl|] eqn:Hp.
  2:{ eapply Once_same; [..|exact H]; try reflexivity. cbn. now rewrite Hp. }
  assert (Hlt : p < List.length (plugins s)) by (eapply lookup_lt_Some; eauto).
  destruct H as [H1 H2 H3 H4].
  constructor; cbn [trace with_plugins avvio plugins]; rewrite ?Hp;
    try assumption.
  - intros q ql Hq. destruct (decide (q = p)) as [->|Hne].
    + rewrite list_lookup_insert_eq in Hq by assumption. injection Hq as <-.
      apply Hf. eapply H3; eassumption.
    + rewrite list_lookup_insert_ne in Hq by congruence. eapply H3; eassumption.
  - intros q. rewrite H4. destruct (decide (q = p)) as [->|Hne].
    + rewrite list_lookup_insert_eq by assumption. rewrite Hp.
      now rewrite (proj1 (Hf pl)).
    + now rewrite list_lookup_insert_ne by congruence.
Qed.

Lemma keeps_update_plugin (p : PluginId) (f : Plugin -> Plugin) :
  tame f -> keeps (update_plugin p f).
Proof. intros Hf. apply keeps_modify. intros s. now apply Once_update_plugin. Qed.

(** Updates of a queue that leave its drain hook alone, or replace it by
    one that does not emit 'start'. *)
Definition quiet_update (f : Queue -> Queue) : Prop :=
  forall Q, drain (f Q) = drain Q \/ emits_start (drain (f Q)) = false.

Lemma keeps_update_q (q : QId) (f : Queue -> Queue) :
  quiet_update f -> keeps (update_q q f).
Proof.
  intros Hf. destruct q as [p| |]; unfold update_q.
  - apply keeps_update_plugin. intros pl. split; [now destruct pl|].
    intros Hd. destruct pl as [? ? ? ? ? Q ? ? ? ? ? ? ?]; cbn in *.
    destruct (Hf Q) as [->| ->]; auto.
  - apply keeps_modify. intros s [H1 H2 H3 H4].
    constructor;
      cbn [trace with_avvio avvio plugins av_readyQ av_closeQ set_readyQ];
      try assumption.
    destruct (Hf (av_readyQ (avvio s))) as [->| ->]; [assumption|lia].
  - apply keeps_modify. intros s [H1 H2 H3 H4].
    constructor;
      cbn [trace with_avvio avvio plugins av_readyQ av_closeQ set_closeQ];
      try assumption.
    destruct (Hf (av_closeQ (avvio s))) as [->| ->]; [assumption|reflexivity].
Qed.

Lemma quiet_set_paused (b : bool) : quiet_update (set_paused b).
Proof. intros Q. now left. Qed.
Lemma quiet_set_running (n : Z) : quiet_update (set_running n).
Proof. intros Q. now left. Qed.
Lemma quiet_set_items (l : list (Item * Cont)) : quiet_update (set_items l).
Proof. intros Q. now left. Qed.
Lemma quiet_set_drain_noop : quiet_update (set_drain DNoop).
Proof. intros Q. now right. Qed.
Lemma quiet_set_drain_finish (p : PluginId) (callback : Cont) :
  quiet_update (set_drain (DFinish p callback)).
Proof. intros Q. now right. Qed.

Lemma keeps_alloc_plugin (pl : Plugin) :
  pl_loaded pl = false -> emits_start (drain (pl_q pl)) = false ->
  keeps (alloc_plugin pl).
Proof.
  intros Hl Hd s [H1 H2 H3 H4]. unfold alloc_plugin.
  constructor; cbn [trace with_plugins avvio plugins]; try assumption.
  - intros q ql Hq. apply lookup_app_Some in Hq.
    destruct Hq as [Hq|[_ Hq]]; [eapply H3; eassumption|].
    destruct (q - List.length (plugins s)); [|discriminate Hq].
    injection Hq as <-. assumption.
  - intros q. rewrite H4. destruct (plugins s !! q) as [ql|] eqn:Hq.
    + now rewrite (lookup_app_l_Some _ _ _ _ Hq).
    + apply lookup_ge_None in Hq.
      destruct (decide (q = List.length (plugins s))) as [->|Hne].
      * rewrite list_lookup_middle by reflexivity. now rewrite Hl.
      * rewrite lookup_ge_None_2; [reflexivity|].
        rewrite length_app. cbn. lia.
Qed.

(** The drain hooks. *)
Lemma keeps_call_drain (q : QId) : keeps (call_drain q).
Proof.
  intros s H. unfold call_drain, bind.
  pose proof (keeps_get_q q s H) as Hq.
  destruct (get_q q s) as [Q s1|e s1|] eqn:HQ; [|exact Hq|exact I].
  assert (Hs1 : s1 = s).
  { destruct q; unfold get_q, bind, get_plugin, the_avvio, ret in HQ;
      try (destruct (plugins s !! p)); congruence. }
  subst s1. destruct (drain Q) as [| | |p callback] eqn:Hd.
  - exact H.
  - assert (Hq' : q = QReady /\ Q = av_readyQ (avvio s)).
    { destruct q as [p| |]; unfold get_q, bind, get_plugin, the_avvio, ret in HQ.
      - destruct (plugins s !! p) as [pl|] eqn:Hp; [|discriminate].
        injection HQ as <-. pose proof (once_queues s H p pl Hp) as Hn.
        rewrite Hd in Hn. discriminate Hn.
      - injection HQ as <-. now split.
      - injection HQ as <-. pose proof (once_closeQ s H) as Hn.
        rewrite Hd in Hn. discriminate Hn. }
    destruct Hq' as [-> ->]. destruct H as [H1 H2 H3 H4].
    rewrite Hd in H1. cbn [emits_start] in H1.
    change (Once (with_avvio
                    (fun a => set_readyQ (set_drain DNoop (av_readyQ a)) a)
                    (with_trace (fun l => l ++ [EvEmit None "start"]) s))).
    constructor;
      cbn [trace with_avvio with_trace avvio plugins av_readyQ av_closeQ
           set_readyQ set_drain drain emits_start]; try assumption.
    + rewrite emitted_snoc. cbn [String.eqb Ascii.eqb Bool.eqb]. lia.
    + intros p. rewrite loaded_events_snoc. now rewrite Nat.add_0_r.
  - apply (keeps_bind (emit None "close")
             (fun _ => update_q QReady (set_drain DNoop)));
      [now apply keeps_emit| |exact H].
    intros _. apply keeps_update_q, quiet_set_drain_noop.
  - apply (keeps_bind (update_q (QPlugin p) (set_drain DNoop))
             (fun _ => queueMicrotask (TCheck p callback)));
      [apply keeps_update_q, quiet_set_drain_noop| |exact H].
    intros _. apply keeps_queueMicrotask.
Qed.

Create HintDb keeps discriminated.

#[local] Hint Resolve keeps_nextTick keeps_queueMicrotask keeps_queueReactions
  keeps_setTimeout keeps_clearTimeout keeps_alloc_cell keeps_with_cells
  keeps_with_promises keeps_createPromise keeps_Promise_resolve keeps_the_avvio
  keeps_get keeps_get_plugin keeps_promise_state keeps_get_q keeps_call_drain
  quiet_set_paused quiet_set_running quiet_set_items quiet_set_drain_noop
  quiet_set_drain_finish : keeps.
#[local] Hint Resolve keeps_log keeps_emit keeps_update_avvio
  keeps_update_plugin keeps_update_q keeps_alloc_plugin : keeps.
#[local] Hint Extern 1 (other_event _ = true) => reflexivity : keeps.
#[local] Hint Extern 1 (tame _) =>
  (let pl := fresh in intros pl; destruct pl; split; [reflexivity|auto])
  : keeps.
#[local] Hint Extern 1 (forall a : Avvio, _ /\ _) =>
  (let a := fresh in intros a; destruct a; split; reflexivity) : keeps.
#[local] Hint Extern 1 (pl_loaded _ = false) => reflexivity : keeps.
#[local] Hint Extern 1 (emits_start _ = false) => reflexivity : keeps.

Ltac keeps_prim := solve [eauto 3 with keeps nocore].

Ltac keeps_step :=
  lazymatch goal with
  | |- keeps (bind _ _) => apply keeps_bind; [|intros ?]
  | |- keeps (ret _) => apply keeps_ret
  | |- keeps (throw _) => apply keeps_throw
  | |- keeps (try_catch _ _) => apply keeps_try_catch; [|intros ?]
  | |- keeps (if ?b then _ else _) => destruct b
  | |- keeps (match ?x with _ => _ end) => destruct x
  | |- keeps (let _ := _ in _) => cbv zeta
  | |- keeps _ => keeps_prim
  end.

Ltac keeps_go := repeat keeps_step.

Lemma keeps_resolve (pr : PromiseId) : keeps (resolve pr).
Proof. unfold resolve. keeps_go. Qed.

Lemma keeps_reject (pr : PromiseId) (e : Error) : keeps (reject pr e).
Proof. unfold reject. keeps_go. Qed.

Lemma keeps_then_ (pr : PromiseId) (ok : Task) (ko : Error -> Task) :
  keeps (then_ pr ok ko).
Proof. unfold then_. keeps_go. Qed.

Lemma keeps_then_ret (r : Ret) (ok : Task) (ko : Error -> Task) :
  keeps (then_ret r ok ko).
Proof. unfold then_ret. keeps_go. Qed.

#[local] Hint Resolve keeps_resolve keeps_reject keeps_then_ keeps_then_ret
  : keeps.

(** What is assumed of the calls through closure values. *)
Definition E_keeps (E : Calls) : Prop :=
  (forall k err, keeps (calls_cont E k err)) /\
  (forall f args d, keeps (calls_func E f args d)).

Section Keeping.

Variable E : Calls.
Hypothesis HE : E_keeps E.

Lemma keeps_calls_cont (k : Cont) (err : option Error) :
  keeps (calls_cont E k err).
Proof. apply HE. Qed.

Lemma keeps_calls_func (f : Func) (args : list Arg) (d : option Cont) :
  keeps (calls_func E f args d).
Proof. apply HE. Qed.

#[local] Hint Resolve keeps_calls_cont keeps_calls_func : keeps.

Lemma keeps_executeWithThenable (func : Func) (args : list Arg) (callback : Cont) :
  keeps (executeWithThenable E func args callback).
Proof. unfold executeWithThenable. keeps_go. Qed.

Lemma keeps_setupTimeout (func : Func) (rootError : option Error) (context : nat)
    (callback : Cont) :
  keeps (setupTimeout E func rootError context callback).
Proof. unfold setupTimeout. keeps_go. Qed.

Lemma keeps_readyTimeout (cell : nat) (func : Func) (callback : Cont) :
  keeps (readyTimeout E cell func callback).
Proof. unfold readyTimeout. keeps_go. Qed.

Lemma keeps_timeoutCallback (cell : nat) (callback : Cont) (error : option Error) :
  keeps (timeoutCallback E cell callback error).
Proof. unfold timeoutCallback. keeps_go. Qed.

#[local] Hint Resolve keeps_executeWithThenable keeps_setupTimeout
  keeps_readyTimeout keeps_timeoutCallback : keeps.

Lemma keeps_callWithCallbackOrNextTick (func : Func) (callback : Cont) :
  keeps (callWithCallbackOrNextTick E func callback).
Proof. unfold callWithCallbackOrNextTick. keeps_go. Qed.

Lemma keeps_closeWithCallbackOrNextTick (func : Func) (tag : bool)
    (callback : Cont) :
  keeps (closeWithCallbackOrNextTick E func tag callback).
Proof. unfold closeWithCallbackOrNextTick. keeps_go. Qed.

Lemma keeps_loadPluginNextTick (plugin : PluginId) (callback : Cont) :
  keeps (loadPluginNextTick plugin callback).
Proof. unfold loadPluginNextTick. keeps_go. Qed.

#[local] Hint Resolve keeps_callWithCallbackOrNextTick
  keeps_closeWithCallbackOrNextTick keeps_loadPluginNextTick : keeps.

Lemma keeps_worker (q : QId) (value : Item) (callback : Cont) :
  keeps (worker E q value callback).
Proof. unfold worker. keeps_go. Qed.

Lemma keeps_fastq_length (q : QId) : keeps (fastq_length q).
Proof. unfold fastq_length. keeps_go. Qed.

Lemma keeps_fastq_running (q : QId) : keeps (fastq_running q).
Proof. unfold fastq_running. keeps_go. Qed.

Lemma keeps_fastq_pause (q : QId) : keeps (fastq_pause q).
Proof. unfold fastq_pause. keeps_go. Qed.

#[local] Hint Resolve keeps_worker keeps_fastq_length keeps_fastq_running
  keeps_fastq_pause : keeps.

Lemma keeps_fastq_release (q : QId) : keeps (fastq_release E q).
Proof. unfold fastq_release. keeps_go. Qed.

#[local] Hint Resolve keeps_fastq_release : keeps.

Lemma keeps_fastq_resume_loop (n : nat) (q : QId) :
  keeps (fastq_resume_loop E n q).
Proof.
  induction n as [|n IH]; cbn [fastq_resume_loop]; keeps_go;
    try exact IH; intros s _; exact I.
Qed.

#[local] Hint Resolve keeps_fastq_resume_loop : keeps.

Lemma keeps_fastq_resume (q : QId) : keeps (fastq_resume E q).
Proof. unfold fastq_resume. keeps_go. Qed.

Lemma keeps_fastq_push (q : QId) (value : Item) (done : Cont) :
  keeps (fastq_push E q value done).
Proof. unfold fastq_push. keeps_go. Qed.

Lemma keeps_fastq_unshift (q : QId) (value : Item) (done : Cont) :
  keeps (fastq_unshift E q value done).
Proof. unfold fastq_unshift. keeps_go. Qed.

Lemma keeps_fastq_worked (q : QId) (callback : Cont) (err : option Error) :
  keeps (fastq_worked E q callback err).
Proof. unfold fastq_worked. keeps_go. Qed.

#[local] Hint Resolve keeps_fastq_resume keeps_fastq_push keeps_fastq_unshift
  keeps_fastq_worked : keeps.

Lemma keeps_enqueue (p obj : PluginId) (callback : Cont) :
  keeps (enqueue E p obj callback).
Proof. unfold enqueue. keeps_go. Qed.

#[local] Hint Resolve keeps_enqueue : keeps.

Lemma keeps_addPlugin (func : option Func) (isAfter : bool) :
  keeps (_addPlugin E func isAfter).
Proof. unfold _addPlugin, validatePluginFunction. keeps_go. Qed.

#[local] Hint Resolve keeps_addPlugin : keeps.

Lemma keeps_setup (p : PluginId) : keeps (setup E p).
Proof. unfold setup. keeps_go. Qed.

#[local] Hint Resolve keeps_setup : keeps.

Lemma keeps_loadedSoFar_after (p : PluginId) (err : option Error)
    (callback : Cont) :
  keeps (loadedSoFar_after p err callback).
Proof. unfold loadedSoFar_after. keeps_go. Qed.

Lemma keeps_loadedSoFar (p : PluginId) : keeps (loadedSoFar E p).
Proof. unfold loadedSoFar. keeps_go. Qed.

Lemma keeps_exec_done (p : PluginId) (callback : Cont) (err : option Error) :
  keeps (exec_done E p callback err).
Proof. unfold exec_done. keeps_go. Qed.

#[local] Hint Resolve keeps_loadedSoFar_after keeps_loadedSoFar keeps_exec_done
  : keeps.

Lemma keeps_exec_timeout (p : PluginId) (callback : Cont) :
  keeps (exec_timeout E p callback).
Proof. unfold exec_timeout. keeps_go. Qed.

Lemma keeps_repeatM (n : nat) (m : M unit) : keeps m -> keeps (repeatM n m).
Proof.
  intros Hm. induction n as [|n IH]; cbn [repeatM]; keeps_go; assumption.
Qed.

Lemma keeps_exec (p : PluginId) (server : nat) (callback : Cont) :
  keeps (exec E p server callback).
Proof.
  unfold exec. keeps_go; try (apply keeps_repeatM; keeps_prim).
Qed.

(** [finish]'s [done] is the only place a unit emits 'loaded', and it
    sets the loaded flag in the same breath. *)
Lemma keeps_finish_done (p : PluginId) (err : option Error) (callback : Cont) :
  keeps (finish_done E p err callback).
Proof.
  intros s H. unfold finish_done, bind at 1, get_plugin.
  destruct (plugins s !! p) as [pl|] eqn:Hp; [|exact H].
  destruct (pl_loaded pl) eqn:Hl; [exact H|].
  assert (Hlt : p < List.length (plugins s)) by (eapply lookup_lt_Some; eauto).
  unfold bind, emit, update_plugin, modify, with_plugins, with_trace.
  cbn [plugins avvio promises cells ticks micros timers next_timer now trace].
  rewrite Hp.
  match goal with
  | |- match calls_cont E callback err ?s1 with _ => _ end =>
      assert (H1 : Once s1); [|exact (keeps_calls_cont callback err s1 H1)]
  end.
  destruct H as [H1 H2 H3 H4].
  constructor; cbn [trace avvio plugins]; try assumption.
  - rewrite emitted_snoc. now rewrite Nat.add_0_r.
  - intros q ql Hq. destruct (decide (q = p)) as [->|Hne].
    + rewrite list_lookup_insert_eq in Hq by assumption. injection Hq as <-.
      pose proof (H3 p pl Hp) as Hd. now destruct pl.
    + rewrite list_lookup_insert_ne in Hq by congruence. eapply H3; eassumption.
  - intros q. rewrite loaded_events_snoc, H4.
    destruct (decide (q = p)) as [->|Hne].
    + rewrite list_lookup_insert_eq by assumption. rewrite Hp, Hl.
      rewrite Nat.eqb_refl. destruct pl; reflexivity.
    + rewrite list_lookup_insert_ne by congruence.
      replace (p =? q)%nat with false by (symmetry; apply Nat.eqb_neq; congruence).
      now rewrite Nat.add_0_r.
Qed.

#[local] Hint Resolve keeps_exec_timeout keeps_exec keeps_finish_done : keeps.

Lemma keeps_check (p : PluginId) (callback : Cont) : keeps (check E p callback).
Proof. unfold check. keeps_go. Qed.

Lemma keeps_wrap (p : PluginId) (callback : Cont) : keeps (wrap p callback).
Proof. unfold wrap. keeps_go. Qed.

Lemma keeps_finish (p : PluginId) (err : option Error) (callback : Cont) :
  keeps (finish E p err callback).
Proof. unfold finish. keeps_go. Qed.

Lemma keeps_loadPlugin (plugin : PluginId) (callback : Cont) :
  keeps (loadPlugin E plugin callback).
Proof. unfold loadPlugin. keeps_go. Qed.

Lemma keeps_loadPlugin_finished (callback : Cont) (err : option Error) :
  keeps (loadPlugin_finished E callback err).
Proof. unfold loadPlugin_finished. keeps_go. Qed.

Lemma keeps_start : keeps start.
Proof. unfold start. keeps_go. Qed.

#[local] Hint Resolve keeps_check keeps_wrap keeps_finish keeps_loadPlugin
  keeps_loadPlugin_finished keeps_start : keeps.

Lemma keeps_use (plugin : option Func) : keeps (use E plugin).
Proof. unfold use. keeps_go. Qed.

Lemma keeps_loadRegistered : keeps (_loadRegistered E).
Proof. unfold _loadRegistered. keeps_go. Qed.

#[local] Hint Resolve keeps_use keeps_loadRegistered : keeps.

Lemma keeps_after (func : option Func) : keeps (after E func).
Proof. unfold after. keeps_go. Qed.

Lemma keeps_onClose (func : Func) : keeps (onClose E func).
Proof. unfold onClose. keeps_go. Qed.

Lemma keeps_record_error (error : option Error) : keeps (record_error error).
Proof. unfold record_error. keeps_go. Qed.

Lemma keeps_ready (func : option Func) : keeps (ready E func).
Proof. unfold ready. keeps_go. Qed.

#[local] Hint Resolve keeps_after keeps_onClose keeps_record_error keeps_ready
  : keeps.

Lemma keeps_close (func : option Func) : keeps (close E func).
Proof. unfold close. keeps_go. Qed.

Lemma keeps_root (done : option Cont) : keeps (root done).
Proof. unfold root. keeps_go. Qed.

Lemma keeps_root_loaded (error : option Error) : keeps (root_loaded E error).
Proof. unfold root_loaded. keeps_go. Qed.

#[local] Hint Resolve keeps_close keeps_root keeps_root_loaded : keeps.

Lemma keeps_run_act (a : Act) (done : option Cont) : keeps (run_act E a done).
Proof. unfold run_act. keeps_go. Qed.

#[local] Hint Resolve keeps_run_act : keeps.

Lemma keeps_run_acts (acts : list Act) (done : option Cont) :
  keeps (run_acts E acts done).
Proof. induction acts as [|a acts IH]; cbn [run_acts]; keeps_go; exact IH. Qed.

#[local] Hint Resolve keeps_run_acts : keeps.

Lemma keeps_invoke (func : Func) (args : list Arg) (done : option Cont) :
  keeps (invoke E func args done).
Proof. unfold invoke. keeps_go. Qed.

Lemma keeps_apply_cont (k : Cont) (err : option Error) :
  keeps (apply_cont E k err).
Proof. unfold apply_cont. keeps_go. Qed.

End Keeping.

Lemma engine_keeps (n : nat) : E_keeps (engine n).
Proof.
  induction n as [|n IH].
  - split; intros; intros s _; exact I.
  - split.
    + intros k err. rewrite calls_cont_engine_eta. now apply keeps_apply_cont.
    + intros f args d. rewrite calls_func_engine_eta. now apply keeps_invoke.
Qed.

Lemma keeps_run_task (n : nat) (t : Task) : keeps (run_task n t).
Proof.
  pose proof (engine_keeps n) as HE. unfold run_task. cbv zeta.
  destruct t; auto using keeps_calls_cont, keeps_loadPlugin, keeps_nextTick,
    keeps_check, keeps_wrap, keeps_fastq_resume, keeps_start, keeps_run_acts,
    keeps_exec_timeout, keeps_readyTimeout.
  apply keeps_bind; [apply keeps_the_avvio|]. intros a.
  destruct (av_root a); [now apply keeps_fastq_resume|apply keeps_throw].
Qed.

(** What [Once] says of an outcome of the event loop, crashes included. *)
Definition outcome_Once (r : Outcome) : Prop :=
  match r with
  | Busy _ s | Quiet s | Crashed _ s => Once s
  | Exhausted => True
  end.

Lemma after_task_Once (ph : Phase) (m : M unit) (s : St) :
  keeps m -> Once s -> outcome_Once (after_task ph (m s)).
Proof.
  intros Hm H. specialize (Hm s H). unfold after_task.
  destruct (m s) as [[] s'|e s'|]; cbn [outcome_Once]; [exact Hm| |exact I].
  now apply Once_log.
Qed.

Lemma step_Once (n : nat) (ph : Phase) (s : St) :
  Once s -> outcome_Once (step n ph s).
Proof.
  intros H. unfold step. destruct ph.
  - destruct (ticks s) as [|t rest].
    + destruct (micros s) as [|m rest]; [|exact H].
      destruct (next_due (timers s)) as [tm|]; [|exact H].
      apply after_task_Once; [apply keeps_run_task|].
      eapply Once_same; [..|exact H]; reflexivity.
    + apply after_task_Once; [apply keeps_run_task|].
      eapply Once_same; [..|exact H]; reflexivity.
  - destruct (micros s) as [|t rest]; [exact H|].
    apply after_task_Once; [apply keeps_run_task|].
    eapply Once_same; [..|exact H]; reflexivity.
Qed.

Lemma loop_Once (steps n : nat) (ph : Phase) (s : St) :
  Once s -> outcome_Once (loop steps n ph s).
Proof.
  revert ph s. induction steps as [|k IH]; intros ph s H; cbn [loop];
    [exact H|].
  pose proof (step_Once n ph s H) as Hs.
  destruct (step n ph s); cbn in *; auto.
Qed.

Lemma init_Once (o : Options) : Once (init o).
Proof.
  constructor; cbn.
  - lia.
  - reflexivity.
  - intros p pl Hp. destruct p as [|p]; cbn in Hp; [|discriminate].
    now injection Hp as <-.
  - intros p. destruct p as [|p]; reflexivity.
Qed.

Lemma program_Once (steps n : nat) (o : Options) (main : list Act) :
  outcome_Once (program steps n o main).
Proof.
  unfold program.
  assert (Hboot : outcome_Once (after_task Ticks (boot n o main))).
  { unfold boot. apply after_task_Once; [|apply init_Once].
    pose proof (engine_keeps n) as HE.
    apply keeps_bind; [now apply keeps_loadPlugin|].
    intros _. now apply keeps_run_acts. }
  destruct (after_task Ticks (boot n o main)); cbn in *; auto.
  now apply loop_Once.
Qed.


(** The program stopped in store [s]: at rest, with work left, or on an
    uncaught exception. *)
Definition ends_in (r : Outcome) (s : St) : Prop :=
  match r with
  | Busy _ s' | Quiet s' | Crashed _ s' => s' = s
  | Exhausted => False
  end.

(** X9: whatever the program, up to any point of its run every unit has
    emitted 'loaded' at most once: exactly once if its loaded flag is set,
    and never otherwise. *)
Theorem X9_loaded_once (steps n : nat) (o : Options) (main : list Act)
    (s : St) (p : PluginId) :
  ends_in (program steps n o main) s ->
  loaded_events p (trace s) <= 1 /\
  (loaded_events p (trace s) = 1 <->
   exists pl, plugins s !! p = Some pl /\ pl_loaded pl = true).
Proof.
  intros Hs. pose proof (program_Once steps n o main) as H.
  assert (HO : Once s).
  { destruct (program steps n o main); cbn in *; subst; auto; contradiction. }
  rewrite (once_loaded s HO p).
  destruct (plugins s !! p) as [pl|]; [destruct (pl_loaded pl) eqn:Hl|].
  - split; [lia|]. split; [eauto|reflexivity].
  - split; [lia|]. split; [discriminate|].
    intros (pl' & Heq & Hl'). congruence.
  - split; [lia|]. split; [discriminate|]. intros (pl' & Heq & _). discriminate.
Qed.

Lemma X9_loaded_once_witness :
  loaded_events 1
    (trace (final 20 10 default_options
              [ActUse (MkFn "plugin" 3 [ActDone None] RetUndefined)])) <= 1 /\
  (loaded_events 1
     (trace (final 20 10 default_options
               [ActUse (MkFn "plugin" 3 [ActDone None] RetUndefined)])) = 1 <->
   exists pl,
     plugins (final 20 10 default_options
                [ActUse (MkFn "plugin" 3 [ActDone None] RetUndefined)]) !! 1 =
       Some pl /\ pl_loaded pl = true).
Proof.
  apply (X9_loaded_once 20 10 default_options
           [ActUse (MkFn "plugin" 3 [ActDone None] RetUndefined)]).
  vm_compute. reflexivity.
Defined.

(** ** ready() without a callback on a drained ready-queue *)

Definition relativeContext_error : Error :=
  ReferenceError "Cannot access 'relativeContext' before initialization".

(** X10: when ready() is called without a callback while the ready-queue
    is running and idle (as it is once the orchestrator has booted and the
    queue has drained), with no ambient error and no timeout configured,
    the queue runs readyPromiseCB at once, before the executor has
    initialised relativeContext: the promise returned is rejected with a
    ReferenceError, start() is not reached, and the queue is left with one
    worker in flight, so that a callback passed to ready() afterwards is
    only queued. *)
Theorem X10_ready_promise_on_idle_queue (n : nat) (s : St) :
  paused (av_readyQ (avvio s)) = false ->
  running (av_readyQ (avvio s)) = 0%Z ->
  av_error (avvio s) = None ->
  av_timeout (avvio s) = 0 ->
  exists s',
    let pr := List.length (promises s) in
    ready (engine (S n)) None s = Val (Some pr) s' /\
    promises s' !! pr = Some (Rejected relativeContext_error) /\
    trace s' = trace s ++ [EvSettle pr (Some relativeContext_error)] /\
    ticks s' = ticks s /\ micros s' = micros s /\
    av_started (avvio s') = av_started (avvio s) /\
    running (av_readyQ (avvio s')) = 1%Z /\
    items (av_readyQ (avvio s')) = items (av_readyQ (avvio s)) /\
    forall m f, exists s'',
      ready (engine m) (Some f) s' = Val None s'' /\
      items (av_readyQ (avvio s'')) =
        items (av_readyQ (avvio s')) ++ [(IFunc f false, KNoop)] /\
      trace s'' = trace s' /\ ticks s'' = ticks s'.
Proof.
  intros Hp Hr He Ht. cbv zeta.
  assert (Hrun : ready (engine (S n)) None s =
    Val (Some (List.length (promises s)))
      (MkSt (set_error None
               (set_readyQ (set_running 1 (av_readyQ (avvio s))) (avvio s)))
         (plugins s) (promises s ++ [Rejected relativeContext_error])
         (cells s ++ [None]) (ticks s) (micros s) (timers s) (next_timer s)
         (now s)
         (trace s ++
          [EvSettle (List.length (promises s)) (Some relativeContext_error)]))).
  { unfold ready, createPromise, alloc_cell, try_catch, fastq_push.
    mrun. rewrite Hp, Hr. cbn [Z.leb Z.compare orb]. mrun.
    unfold worker, callWithCallbackOrNextTick. mrun. rewrite Ht.
    cbn [func_length Nat.eqb]. mrun. rewrite calls_func_engine.
    cbn [invoke arg_err]. mrun. rewrite He.
    rewrite (list_lookup_middle (cells s) [] None) by reflexivity.
    unfold reject, promise_state. mrun.
    rewrite (list_lookup_middle (promises s) [] (Pending [])) by reflexivity.
    mrun. rewrite insert_at_length. cbn [map app]. now rewrite app_nil_r. }
  eexists. split; [exact Hrun|].
  cbn [promises trace ticks micros avvio].
  split; [now apply list_lookup_middle|].
  split; [reflexivity|]. split; [reflexivity|]. split; [reflexivity|].
  split; [now destruct s as [[] ? ? ? ? ? ? ? ? ?]|].
  split; [now destruct s as [[? ? ? ? ? ? ? [] ? ? ? ? ?] ? ? ? ? ? ? ? ? ?]|].
  split; [now destruct s as [[? ? ? ? ? ? ? [] ? ? ? ? ?] ? ? ? ? ? ? ? ? ?]|].
  intros m f. unfold ready, fastq_push. mrun.
  destruct s as [[? ? ? ? ? ? ? [] ? ? ? ? ?] ? ? ? ? ? ? ? ? ?].
  cbn. eexists. split; [reflexivity|]. repeat split.
Qed.

Lemma X10_ready_promise_on_idle_queue_witness :
  exists s',
    let pr := List.length (promises booted_store) in
    ready (engine 1) None booted_store = Val (Some pr) s' /\
    promises s' !! pr = Some (Rejected relativeContext_error) /\
    trace s' = trace booted_store ++ [EvSettle pr (Some relativeContext_error)] /\
    ticks s' = ticks booted_store /\ micros s' = micros booted_store /\
    av_started (avvio s') = av_started (avvio booted_store) /\
    running (av_readyQ (avvio s')) = 1%Z /\
    items (av_readyQ (avvio s')) = items (av_readyQ (avvio booted_store)) /\
    forall m f, exists s'',
      ready (engine m) (Some f) s' = Val None s'' /\
      items (av_readyQ (avvio s'')) =
        items (av_readyQ (avvio s')) ++ [(IFunc f false, KNoop)] /\
      trace s'' = trace s' /\ ticks s'' = ticks s'.
Proof.
  apply (X10_ready_promise_on_idle_queue 0 booted_store); reflexivity.
Defined.

(** ** Exposing the API on an instance ([wrap]) *)

(** The five methods [wrap] installs. *)
Inductive Method : Type := MUse | MAfter | MReady | MOnClose | MClose.

(** A property of the instance as [wrap] leaves it: a value of the user's
    (only its truthiness matters here), a method installed by [wrap], or
    the then accessor [wrap] defines, which has a getter only. *)
Inductive Slot : Type :=
| SUser (truthy : bool)
| SMethod (m : Method)
| SThen.

(** options.expose *)
Record Expose : Type := MkExpose {
  ex_use : option string;
  ex_after : option string;
  ex_ready : option string;
  ex_onClose : option string;
  ex_close : option string
}.

Inductive WrapError : Type :=
| AVV_ERR_EXPOSE_ALREADY_DEFINED (key : string)
| CannotSetProperty (key : string).       (* TypeError: only a getter *)

(** expose.key || 'name': an undefined or empty key falls back. *)
Definition key_or (k : option string) (name : string) : string :=
  match k with
  | None | Some EmptyString => name
  | Some k => k
  end.

(** if (instance[key]), on the instance as the user hands it over: an
    ordinary object, given by the truthiness of its visible properties. *)
Definition defined (instance : gmap string bool) (key : string) : bool :=
  match instance !! key with
  | Some b => b
  | None => false
  end.

(** instance[key] = function ..., in strict mode. *)
Definition assign (i : gmap string Slot) (key : string) (m : Method)
  : option (gmap string Slot) :=
  match i !! key with
  | Some SThen => None
  | _ => Some (<[key := SMethod m]> i)
  end.

(** [wrap]: what it throws, if it does, and the instance it leaves. *)
Definition wrap_instance (instance : gmap string bool) (expose : Expose)
  : option WrapError * gmap string Slot :=
  let useKey := key_or (ex_use expose) "use" in
  let afterKey := key_or (ex_after expose) "after" in
  let readyKey := key_or (ex_ready expose) "ready" in
  let onCloseKey := key_or (ex_onClose expose) "onClose" in
  let closeKey := key_or (ex_close expose) "close" in
  let i0 : gmap string Slot := SUser <$> instance in
  if defined instance useKey then
    (Some (AVV_ERR_EXPOSE_ALREADY_DEFINED useKey), i0)
  else if defined instance afterKey then
    (Some (AVV_ERR_EXPOSE_ALREADY_DEFINED afterKey), i0)
  else if defined instance readyKey then
    (Some (AVV_ERR_EXPOSE_ALREADY_DEFINED readyKey), i0)
  else
    let i1 := <[useKey := SMethod MUse]> i0 in
    let i2 := <["then" := SThen]> i1 in        (* Object.defineProperties *)
    match assign i2 afterKey MAfter with
    | None => (Some (CannotSetProperty afterKey), i2)
    | Some i3 =>
        match assign i3 readyKey MReady with
        | None => (Some (CannotSetProperty readyKey), i3)
        | Some i4 =>
            match assign i4 onCloseKey MOnClose with
            | None => (Some (CannotSetProperty onCloseKey), i4)
            | Some i5 =>
                match assign i5 closeKey MClose with
                | None => (Some (CannotSetProperty closeKey), i5)
                | Some i6 => (None, i6)
                end
            end
        end
    end.

(** The three keys [wrap] checks, in the order it checks them. *)
Definition checked_keys (expose : Expose) : list string :=
  [key_or (ex_use expose) "use"; key_or (ex_after expose) "after";
   key_or (ex_ready expose) "ready"].

(** X11: [wrap] refuses an instance on which the use, after or ready key
    holds a truthy value: it reports the first such key, in that order, and
    leaves the instance untouched. The onClose and close keys are not
    checked: when none of the three checked keys is defined, whatever is
    under the close key is replaced by the close method if [wrap] returns,
    and no key is ever reported as already defined. *)
Theorem X11_wrap_checks_three_keys (instance : gmap string bool)
    (expose : Expose) :
  match List.find (defined instance) (checked_keys expose) with
  | Some key =>
      wrap_instance instance expose =
        (Some (AVV_ERR_EXPOSE_ALREADY_DEFINED key), SUser <$> instance)
  | None =>
      (forall key, fst (wrap_instance instance expose) <>
                   Some (AVV_ERR_EXPOSE_ALREADY_DEFINED key)) /\
      (fst (wrap_instance instance expose) = None ->
       snd (wrap_instance instance expose)
         !! key_or (ex_close expose) "close" = Some (SMethod MClose))
  end.
Proof.
  unfold checked_keys, wrap_instance. cbn [List.find]. cbv zeta.
  destruct (defined instance (key_or (ex_use expose) "use")); [reflexivity|].
  destruct (defined instance (key_or (ex_after expose) "after")); [reflexivity|].
  destruct (defined instance (key_or (ex_ready expose) "ready")); [reflexivity|].
  unfold assign.
  repeat match goal with
         | |- context [match ?m !! ?k with _ => _ end] =>
             destruct (m !! k) as [[| |]|] eqn:?
         end; cbn [fst snd]; (split; [intros key; discriminate|]);
    intros H; try discriminate H; apply lookup_insert_eq.
Qed.

(** The method [wrap] assigns last under [key], if any. *)
Definition installed (expose : Expose) (key : string) : option Method :=
  snd <$> List.find (fun km => String.eqb (fst km) key)
            [(key_or (ex_close expose) "close", MClose);
             (key_or (ex_onClose expose) "onClose", MOnClose);
             (key_or (ex_ready expose) "ready", MReady);
             (key_or (ex_after expose) "after", MAfter);
             (key_or (ex_use expose) "use", MUse)].

(** No property but then is the accessor. *)
Definition only_then (i : gmap string Slot) : Prop :=
  forall key, key <> "then" -> i !! key <> Some SThen.

Lemma assign_ok (i : gmap string Slot) (key : string) (m : Method) :
  only_then i -> key <> "then" ->
  assign i key m = Some (<[key := SMethod m]> i) /\
  only_then (<[key := SMethod m]> i).
Proof.
  intros Hi Hk. split.
  - unfold assign. specialize (Hi key Hk).
    destruct (i !! key) as [[| |]|]; congruence.
  - intros k Hk'. destruct (decide (k = key)) as [->|Hne].
    + rewrite lookup_insert_eq. discriminate.
    + rewrite lookup_insert_ne by congruence. now apply Hi.
Qed.

(** X12: when none of the three checked keys is defined and none of the
    after, ready, onClose and close keys is then, [wrap] returns and
    leaves an instance on which then is the accessor, every exposed key
    holds the method assigned to it last (in the order use, after, ready,
    onClose, close, so that of two equal keys the later method wins, and a
    use key equal to then is lost to the accessor), and every other
    property is the user's, as it was. *)
Theorem X12_wrap_installs (instance : gmap string bool) (expose : Expose) :
  List.find (defined instance) (checked_keys expose) = None ->
  ~ In "then" [key_or (ex_after expose) "after"; key_or (ex_ready expose) "ready";
               key_or (ex_onClose expose) "onClose";
               key_or (ex_close expose) "close"] ->
  exists i,
    wrap_instance instance expose = (None, i) /\
    forall key,
      i !! key =
        if decide (key = "then") then Some SThen
        else match installed expose key with
             | Some m => Some (SMethod m)
             | None => SUser <$> instance !! key
             end.
Proof.
  intros Hfind Hthen. unfold checked_keys in Hfind. cbn [List.find] in Hfind.
  unfold wrap_instance. cbv zeta.
  destruct (defined instance (key_or (ex_use expose) "use")); [discriminate|].
  destruct (defined instance (key_or (ex_after expose) "after")); [discriminate|].
  destruct (defined instance (key_or (ex_ready expose) "ready")); [discriminate|].
  clear Hfind. cbn [In] in Hthen.
  set (useKey := key_or (ex_use expose) "use") in *.
  set (afterKey := key_or (ex_after expose) "after") in *.
  set (readyKey := key_or (ex_ready expose) "ready") in *.
  set (onCloseKey := key_or (ex_onClose expose) "onClose") in *.
  set (closeKey := key_or (ex_close expose) "close") in *.
  assert (H2 : only_then (<["then" := SThen]>
                            (<[useKey := SMethod MUse]> (SUser <$> instance)))).
  { intros k Hk. rewrite lookup_insert_ne by congruence.
    destruct (decide (k = useKey)) as [->|Hne].
    - rewrite lookup_insert_eq. discriminate.
    - rewrite lookup_insert_ne by congruence. rewrite lookup_fmap.
      destruct (instance !! k); discriminate. }
  destruct (assign_ok _ afterKey MAfter H2) as [-> H3]; [tauto|].
  destruct (assign_ok _ readyKey MReady H3) as [-> H4]; [tauto|].
  destruct (assign_ok _ onCloseKey MOnClose H4) as [-> H5]; [tauto|].
  destruct (assign_ok _ closeKey MClose H5) as [-> H6]; [tauto|].
  eexists. split; [reflexivity|]. intros key.
  unfold installed. cbn [List.find fst snd].
  fold useKey afterKey readyKey onCloseKey closeKey.
  destruct (decide (key = "then")) as [->|Hk].
  - rewrite !lookup_insert_ne by (intros E'; apply Hthen; rewrite E'; tauto).
    apply lookup_insert_eq.
  - destruct (String.eqb_spec closeKey key) as [->|N1];
      [cbn; apply lookup_insert_eq|rewrite lookup_insert_ne by exact N1].
    destruct (String.eqb_spec onCloseKey key) as [->|N2];
      [cbn; apply lookup_insert_eq|rewrite lookup_insert_ne by exact N2].
    destruct (String.eqb_spec readyKey key) as [->|N3];
      [cbn; apply lookup_insert_eq|rewrite lookup_insert_ne by exact N3].
    destruct (String.eqb_spec afterKey key) as [->|N4];
      [cbn; apply lookup_insert_eq|rewrite lookup_insert_ne by exact N4].
    rewrite lookup_insert_ne by congruence.
    destruct (String.eqb_spec useKey key) as [->|N5];
      [cbn; apply lookup_insert_eq|rewrite lookup_insert_ne by exact N5].
    cbn. apply lookup_fmap.
Qed.

Lemma X12_wrap_installs_witness :
  exists i,
    wrap_instance {["decorate" := true]} (MkExpose None (Some "") None None
                                            (Some "shutdown")) = (None, i) /\
    forall key,
      i !! key =
        if decide (key = "then") then Some SThen
        else match installed (MkExpose None (Some "") None None
                                (Some "shutdown")) key with
             | Some m => Some (SMethod m)
             | None => SUser <$> ({["decorate" := true]} : gmap string bool) !! key
             end.
Proof.
  apply (X12_wrap_installs {["decorate" := true]}
           (MkExpose None (Some "") None None (Some "shutdown"))).
  - reflexivity.
  - cbn. intros [H|[H|[H|[H|[]]]]]; discriminate H.
Defined.

(** ** The wrappers around functions given to the exposed methods
    ([encapsulateTwoParam], [encapsulateThreeParam]) *)

(** result.then(function () { process.nextTick(callback, error) }, callback):
    a rejection calls [callback] with its reason from the reaction itself. *)
Definition wrapped_completion (r : Ret) (error : option Error) (callback : Cont)
  : M unit :=
  if is_thenable r then
    then_ret r (TNextTick (TCall callback error))
               (fun e => TCall callback (Some e))
  else nextTick (TCall callback error).

(** _encapsulateTwoParam, bound to [that]: the wrapper of an onClose
    handler. The [context] it is called with is not used. *)
Definition encapsulateTwoParam (E : Calls) (func : Func) (that : nat)
    (context : nat) (callback : Cont) : M unit :=
  if (func_length func =? 0)%nat then
    result <- calls_func E func [] None ;;
    wrapped_completion result None callback
  else if (func_length func =? 1)%nat then
    result <- calls_func E func [ACtx that] None ;;
    wrapped_completion result None callback
  else
    calls_func E func [ACtx that; ACallback] (Some callback) ;; ret tt.

(** _encapsulateThreeParam, bound to [that]: the wrapper of an after,
    ready or close callback; [func] may be missing. *)
Definition encapsulateThreeParam (E : Calls) (func : option Func) (that : nat)
    (error : option Error) (callback : Cont) : M unit :=
  match func with
  | None => nextTick (TCall callback None)
  | Some func =>
      if (func_length func =? 0)%nat then
        result <- calls_func E func [] None ;;
        wrapped_completion result error callback
      else if (func_length func =? 1)%nat then
        result <- calls_func E func [AErr error] None ;;
        wrapped_completion result None callback
      else if (func_length func =? 2)%nat then
        calls_func E func [AErr error; ACallback] (Some callback) ;; ret tt
      else
        calls_func E func [AErr error; ACtx that; ACallback] (Some callback) ;;
        ret tt
  end.

(** What the three-parameter wrapper passes to a function of [len]
    declared parameters. *)
Definition wrapped_args (len : nat) (error : option Error) (that : nat)
  : list Arg :=
  match len with
  | 0 => []
  | 1 => [AErr error]
  | 2 => [AErr error; ACallback]
  | _ => [AErr error; ACtx that; ACallback]
  end.

(** The store once a function of at most one parameter has returned [r]:
    the callback is due on the next tick, or after the promise settles. *)
Definition wrapped_done (r : Ret) (error : option Error) (callback : Cont)
    (s : St) : St :=
  match r with
  | RetUndefined => with_ticks (fun l => l ++ [TCall callback error]) s
  | RetResolved =>
      with_micros (fun l => l ++ [TNextTick (TCall callback error)]) s
  | RetRejected e =>
      with_micros (fun l => l ++ [TCall callback (Some (UserError e))]) s
  | RetPending => s
  end.

(** X13: the wrapper put around an after, ready or close callback [f]
    calls it with (), (error), (error, callback) or
    (error, instance, callback) by declared parameter count. A function
    without parameters does not see the error, which is forwarded to the
    callback when the function returns or its promise is fulfilled; a
    function of one parameter consumes it; a rejected promise hands its
    reason to the callback from the reaction, without a further tick; a
    function of two or more parameters completes only through the
    callback. Without a function the callback is called on the next tick,
    without the error. *)
Theorem X13_wrapped_calling_conventions (n : nat) (f : Fn) (that : nat)
    (error : option Error) (callback : Cont) (s : St) :
  encapsulateThreeParam (engine (S n)) (Some (FUser f)) that error callback s =
    match run_acts (engine n) (fn_body f)
            (if (fn_length f <=? 1)%nat then None else Some callback)
            (with_trace (fun l => l ++ [EvInvoke (FUser f)
                                          (wrapped_args (fn_length f) error that)])
               s) with
    | Val _ s' =>
        Val tt (if (fn_length f <=? 1)%nat
                then wrapped_done (fn_ret f)
                       (if (fn_length f =? 0)%nat then error else None)
                       callback s'
                else s')
    | Throw e s' => Throw e s'
    | OutOfFuel => OutOfFuel
    end /\
  encapsulateThreeParam (engine (S n)) None that error callback s =
    Val tt (with_ticks (fun l => l ++ [TCall callback None]) s).
Proof.
  split; [|reflexivity].
  unfold encapsulateThreeParam, wrapped_args, wrapped_completion. cbn [func_length].
  destruct (fn_length f) as [|[|[|len]]] eqn:Hlen; cbn [Nat.eqb Nat.leb];
    unfold bind; rewrite calls_func_engine; cbn [invoke];
    unfold bind, log, modify, ret;
    destruct (run_acts _ _ _ _) as [[] s'|e s'|]; try reflexivity;
    destruct (fn_ret f); reflexivity.
Qed.

(** X14: the wrapper put around an onClose handler [f] ignores the
    context it is called with: [f] is called with (), (instance) or
    (instance, callback), the instance being the one the method was
    called on; handlers of at most one parameter complete on the next
    tick, when their promise is fulfilled, or, with the reason, from the
    reaction of a rejected promise. *)
Theorem X14_wrapped_onClose_conventions (n : nat) (f : Fn) (that context : nat)
    (callback : Cont) (s : St) :
  encapsulateTwoParam (engine (S n)) (FUser f) that context callback s =
    match run_acts (engine n) (fn_body f)
            (if (fn_length f <=? 1)%nat then None else Some callback)
            (with_trace
               (fun l => l ++ [EvInvoke (FUser f)
                                 (match fn_length f with
                                  | 0 => []
                                  | 1 => [ACtx that]
                                  | _ => [ACtx that; ACallback]
                                  end)]) s) with
    | Val _ s' =>
        Val tt (if (fn_length f <=? 1)%nat
                then wrapped_done (fn_ret f) None callback s' else s')
    | Throw e s' => Throw e s'
    | OutOfFuel => OutOfFuel
    end.
Proof.
  unfold encapsulateTwoParam, wrapped_completion. cbn [func_length].
  destruct (fn_length f) as [|[|len]] eqn:Hlen; cbn [Nat.eqb Nat.leb];
    unfold bind; rewrite calls_func_engine; cbn [invoke];
    unfold bind, log, modify, ret;
    destruct (run_acts _ _ _ _) as [[] s'|e s'|]; try reflexivity;
    destruct (fn_ret f); reflexivity.
Qed.

(** ** Load order of siblings *)

(** How a plugin signals that it is done. *)
Inductive Completion : Type :=
| ByCallback            (* function (s, opts, done) { done() } *)
| ByTickCallback        (* function (s, opts, done) { process.nextTick(done) } *)
| ByPromise.            (* async function (s) {} *)

(** A plugin of the given name that does nothing but complete. *)
Definition sibling (u : string * Completion) : Fn :=
  match snd u with
  | ByCallback => MkFn (fst u) 3 [ActDone None] RetUndefined
  | ByTickCallback => MkFn (fst u) 3 [ActTickDone None] RetUndefined
  | ByPromise => MkFn (fst u) 1 [] RetResolved
  end.

(** The stores of a main script of use() calls under the default options:
    the root and the units [tl] on the heap. *)
Definition sibling_store (current : list PluginId) (booted : bool)
    (rootref : option PluginId) (rq : Queue) (rootpl : Plugin)
    (tl : list Plugin) (tk mi : list Task) (tr : list Event) : St :=
  MkSt (MkAvvio 0 0 current (Some (KExecDone 0 (KLoadExec 0 KRootLoaded)))
          None true booted rq (createQueue DCloseQ) rootref true override None)
       (rootpl :: tl) [] [] tk mi [] 0 0 tr.

Definition load_tick (p : PluginId) : Task :=
  TLoadPlugin p (KWorked (QPlugin 0) KAddPlugin).
Definition done_tick (p : PluginId) : Task :=
  TCall (KExecDone p (KLoadExec p (KWorked (QPlugin 0) KAddPlugin))) None.
Definition check_tick (p : PluginId) : Task :=
  TCheck p (KLoadFinish (KWorked (QPlugin 0) KAddPlugin)).

(** A unit whose function has been entered. *)
Definition entered_unit (f : Fn) : Plugin :=
  MkPlugin true (FUser f) 0 (fn_name f) false (MkQueue true 0 [] DNoop)
           None false None (Some 0) 0 false None.

(** A unit whose function has completed; [loaded] once [check] has found
    its queue drained. *)
Definition ran_unit (f : Fn) (loaded : bool) : Plugin :=
  MkPlugin true (FUser f) 0 (fn_name f) false (MkQueue false 0 [] DNoop)
           None loaded None (Some 0) 0 true None.

(** The root while its queue is being worked. *)
Definition working_root (d : Drain) (its : list (Item * Cont)) : Plugin :=
  root_plugin true false (MkQueue false 1 its d).

Definition root_check : Drain := DFinish 0 (KLoadFinish KRootLoaded).

Lemma lookup_cons_S {A} (x : A) (l : list A) (k : nat) :
  (x :: l) !! S k = l !! k.
Proof. reflexivity. Qed.

Lemma lookup_cons_O {A} (x : A) (l : list A) : (x :: l) !! 0 = Some x.
Proof. reflexivity. Qed.

Lemma insert_cons_S {A} (x y : A) (l : list A) (k : nat) :
  <[S k := y]> (x :: l) = x :: <[k := y]> l.
Proof. reflexivity. Qed.

Lemma insert_cons_O {A} (x y : A) (l : list A) : <[0 := y]> (x :: l) = y :: l.
Proof. reflexivity. Qed.

Lemma insert_middle {A} (l1 l2 : list A) (x y : A) :
  <[List.length l1 := y]> (l1 ++ x :: l2) = l1 ++ y :: l2.
Proof.
  rewrite <- (Nat.add_0_r (List.length l1)). now rewrite insert_app_r.
Qed.

Ltac srun :=
  repeat (progress
    (rewrite ?calls_cont_engine, ?calls_func_engine, ?lookup_cons_S,
       ?lookup_cons_O, ?insert_cons_S, ?insert_cons_O;
     cbn [apply_cont invoke run_acts run_act user_err fn_body fn_name fn_ret
          head tail then_ret is_thenable List.length Nat.eqb];
     unfold exec_done, finish, finish_done, check, loadPlugin_finished,
       fastq_worked, fastq_release, fastq_resume, fastq_length, fastq_running,
       call_drain, record_error, worker, loadPluginNextTick;
     mrun;
     change (0 + 1)%Z with 1%Z; change (1 - 1)%Z with 0%Z;
     cbn [Z.eqb Z.leb Z.ltb Z.compare Pos.compare Pos.compare_cont])).

(** Entering the load of the unit at [S k]. *)
Ltac enter_load Hk :=
  unfold step, sibling_store, load_tick; cbn [ticks];
  unfold run_task, with_ticks; cbv zeta;
  cbn [avvio plugins promises cells ticks micros timers next_timer now trace];
  erewrite (loadPlugin_runs _ (S _) _ _ 0);
    [|exact Hk|reflexivity|split; reflexivity];
  unfold load_entry, exec_entry, parked_unit, sibling; cbv zeta;
  cbn [fst snd pl_func pl_timeout opt_timeout default_options Nat.ltb Nat.leb].

Lemma step_sibling_load_callback (k : nat) (name : string) (rq : Queue)
    (rootq : Queue) (tl : list Plugin) (mi : list Task) (tr : list Event) :
  let f := sibling (name, ByCallback) in
  tl !! k = Some (parked_unit default_options f) ->
  step 6 Ticks
    (sibling_store [0] false (Some 0) rq (root_plugin true false rootq) tl [load_tick (S k)] mi tr) =
  Busy Ticks
    (sibling_store [S k; 0] false (Some 0) rq
       (root_plugin true false rootq)
       (<[k := ran_unit f false]> tl) [] (mi ++ [check_tick (S k)])
       (tr ++ [EvEmit (Some (S k)) "start";
               EvInvoke (FUser f) [ACtx 0; AOptions; ACallback];
               EvDebug "finish" (S k)])).
Proof.
  cbv zeta. intros Hk.
  assert (Hlt : k < List.length tl) by (eapply lookup_lt_Some; eauto).
  enter_load Hk. srun. cbn [after_task]. rewrite <- !app_assoc. reflexivity.
Qed.

Lemma step_sibling_load_tick (k : nat) (name : string) (rq : Queue)
    (rootq : Queue) (tl : list Plugin) (mi : list Task) (tr : list Event) :
  let f := sibling (name, ByTickCallback) in
  tl !! k = Some (parked_unit default_options f) ->
  step 6 Ticks
    (sibling_store [0] false (Some 0) rq (root_plugin true false rootq) tl [load_tick (S k)] mi tr) =
  Busy Ticks
    (sibling_store [S k; 0] false (Some 0) rq
       (root_plugin true false rootq)
       (<[k := entered_unit f]> tl) [done_tick (S k)] mi
       (tr ++ [EvEmit (Some (S k)) "start";
               EvInvoke (FUser f) [ACtx 0; AOptions; ACallback]])).
Proof.
  cbv zeta. intros Hk.
  assert (Hlt : k < List.length tl) by (eapply lookup_lt_Some; eauto).
  enter_load Hk. srun. cbn [after_task]. rewrite <- !app_assoc. reflexivity.
Qed.

Lemma step_sibling_load_promise (k : nat) (name : string) (rq : Queue)
    (rootq : Queue) (tl : list Plugin) (mi : list Task) (tr : list Event) :
  let f := sibling (name, ByPromise) in
  tl !! k = Some (parked_unit default_options f) ->
  step 6 Ticks
    (sibling_store [0] false (Some 0) rq (root_plugin true false rootq) tl [load_tick (S k)] mi tr) =
  Busy Ticks
    (sibling_store [S k; 0] false (Some 0) rq
       (root_plugin true false rootq)
       (<[k := entered_unit f]> tl) [] (mi ++ [TNextTick (done_tick (S k))])
       (tr ++ [EvEmit (Some (S k)) "start";
               EvInvoke (FUser f) [ACtx 0; AOptions; ACallback]])).
Proof.
  cbv zeta. intros Hk.
  assert (Hlt : k < List.length tl) by (eapply lookup_lt_Some; eauto).
  enter_load Hk. srun. cbn [after_task]. rewrite <- !app_assoc. reflexivity.
Qed.

(** The deferred [done] of a unit. *)
Lemma step_sibling_done (k : nat) (f : Fn) (rq : Queue) (rootpl : Plugin)
    (tl : list Plugin) (mi : list Task) (tr : list Event) :
  tl !! k = Some (entered_unit f) ->
  step 6 Ticks
    (sibling_store [S k; 0] false (Some 0) rq rootpl tl [done_tick (S k)] mi tr) =
  Busy Ticks
    (sibling_store [S k; 0] false (Some 0) rq rootpl
       (<[k := ran_unit f false]> tl) [] (mi ++ [check_tick (S k)])
       (tr ++ [EvDebug "finish" (S k)])).
Proof.
  intros Hk.
  assert (Hlt : k < List.length tl) by (eapply lookup_lt_Some; eauto).
  unfold step, sibling_store, done_tick. cbn [ticks].
  unfold run_task, with_ticks, entered_unit in *. cbv zeta.
  srun. reflexivity.
Qed.

(** [check] finds the unit drained: it is loaded, and the root's queue
    goes on to the next unit. *)
Lemma step_sibling_check_next (k : nat) (f : Fn) (rq : Queue) (d : Drain)
    (next : PluginId) (its : list (Item * Cont)) (tl : list Plugin)
    (tr : list Event) :
  tl !! k = Some (ran_unit f false) ->
  step 6 Micros
    (sibling_store [S k; 0] false (Some 0) rq
       (working_root d ((IPlugin next, KAddPlugin) :: its)) tl []
       [check_tick (S k)] tr) =
  Busy Micros
    (sibling_store [0] false (Some 0) rq (working_root d its)
       (<[k := ran_unit f true]> tl) [load_tick next] []
       (tr ++ [EvEmit (Some (S k)) "loaded"])).
Proof.
  intros Hk.
  assert (Hlt : k < List.length tl) by (eapply lookup_lt_Some; eauto).
  unfold step, sibling_store, check_tick, working_root, root_plugin.
  cbn [micros].
  unfold run_task, with_micros, ran_unit in *. cbv zeta.
  srun. reflexivity.
Qed.

(** After the last unit the root's queue is drained, and its drain hook
    schedules the root's own [check]. *)
Lemma step_sibling_check_last (k : nat) (f : Fn) (rq : Queue)
    (tl : list Plugin) (tr : list Event) :
  tl !! k = Some (ran_unit f false) ->
  step 6 Micros
    (sibling_store [S k; 0] false (Some 0) rq (working_root root_check []) tl []
       [check_tick (S k)] tr) =
  Busy Micros
    (sibling_store [0] false (Some 0) rq
       (root_plugin true false (MkQueue false 0 [] DNoop))
       (<[k := ran_unit f true]> tl) [] [check_root]
       (tr ++ [EvEmit (Some (S k)) "loaded"])).
Proof.
  intros Hk.
  assert (Hlt : k < List.length tl) by (eapply lookup_lt_Some; eauto).
  unfold step, sibling_store, check_tick, working_root, root_plugin, root_check.
  cbn [micros].
  unfold run_task, with_micros, ran_unit in *. cbv zeta.
  srun. reflexivity.
Qed.

(** Steps that do not touch the units. *)
Lemma step_sibling_to_micros (current : list PluginId) (booted : bool)
    (rootref : option PluginId) (rq : Queue) (rootpl : Plugin)
    (tl : list Plugin) (m : Task) (mi : list Task) (tr : list Event) :
  step 6 Ticks
    (sibling_store current booted rootref rq rootpl tl [] (m :: mi) tr) =
  Busy Micros
    (sibling_store current booted rootref rq rootpl tl [] (m :: mi) tr).
Proof. reflexivity. Qed.

Lemma step_sibling_to_ticks (current : list PluginId) (booted : bool)
    (rootref : option PluginId) (rq : Queue) (rootpl : Plugin)
    (tl : list Plugin) (tk : list Task) (tr : list Event) :
  step 6 Micros (sibling_store current booted rootref rq rootpl tl tk [] tr) =
  Busy Ticks (sibling_store current booted rootref rq rootpl tl tk [] tr).
Proof. reflexivity. Qed.

Lemma step_sibling_quiet (current : list PluginId) (booted : bool)
    (rootref : option PluginId) (rq : Queue) (rootpl : Plugin)
    (tl : list Plugin) (tr : list Event) :
  step 6 Ticks (sibling_store current booted rootref rq rootpl tl [] [] tr) =
  Quiet (sibling_store current booted rootref rq rootpl tl [] [] tr).
Proof. reflexivity. Qed.

Lemma step_sibling_next_tick (current : list PluginId) (rq : Queue)
    (rootpl : Plugin) (tl : list Plugin) (t : Task) (tk mi : list Task)
    (tr : list Event) :
  step 6 Micros
    (sibling_store current false (Some 0) rq rootpl tl tk (TNextTick t :: mi) tr) =
  Busy Micros
    (sibling_store current false (Some 0) rq rootpl tl (tk ++ [t]) mi tr).
Proof. reflexivity. Qed.

(** The root's function is done: its queue is released and takes up the
    first unit. *)
Lemma step_sibling_root_done (p : PluginId) (its : list (Item * Cont))
    (tl : list Plugin) (tr : list Event) :
  step 6 Ticks
    (sibling_store [0] false (Some 0) (createQueue DReadyQ)
       (root_plugin false false
          (MkQueue true 0 ((IPlugin p, KAddPlugin) :: its) DNoop))
       tl [root_done_tick] [] tr) =
  Busy Ticks
    (sibling_store [0] false (Some 0) (createQueue DReadyQ)
       (working_root DNoop its) tl [load_tick p] [check_root]
       (tr ++ [EvDebug "finish" 0])).
Proof. destruct its; reflexivity. Qed.

(** The root's first [check] finds its queue at work and leaves itself
    as the drain hook. *)
Lemma step_sibling_root_waits (current : list PluginId) (rq : Queue)
    (its : list (Item * Cont)) (tl : list Plugin) (tk mi : list Task)
    (tr : list Event) :
  step 6 Micros
    (sibling_store current false (Some 0) rq (working_root DNoop its) tl tk
       (check_root :: mi) tr) =
  Busy Micros
    (sibling_store current false (Some 0) rq (working_root root_check its) tl
       tk mi tr).
Proof. destruct its; reflexivity. Qed.

(** [check] finds the root drained: the orchestrator boots. *)
Lemma step_sibling_root_loaded (tl : list Plugin) (tr : list Event) :
  step 6 Micros
    (sibling_store [0] false (Some 0) (createQueue DReadyQ)
       (root_plugin true false (MkQueue false 0 [] DNoop)) tl [] [check_root] tr) =
  Busy Micros
    (sibling_store [] true None (MkQueue false 0 [] DNoop)
       (root_plugin true true (MkQueue false 0 [] DNoop)) tl [] []
       (tr ++ [EvEmit (Some 0) "loaded"; EvEmit None "preReady";
               EvEmit None "start"])).
Proof.
  transitivity
    (Busy Micros
       (sibling_store [] true None (MkQueue false 0 [] DNoop)
          (root_plugin true true (MkQueue false 0 [] DNoop)) tl [] []
          (((tr ++ [EvEmit (Some 0) "loaded"]) ++ [EvEmit None "preReady"]) ++
           [EvEmit None "start"]))); [reflexivity|].
  now rewrite <- !app_assoc.
Qed.

(** What one unit leaves in the trace. *)
Definition unit_events (p : PluginId) (u : string * Completion) : list Event :=
  [EvEmit (Some p) "start";
   EvInvoke (FUser (sibling u)) [ACtx 0; AOptions; ACallback];
   EvDebug "finish" p;
   EvEmit (Some p) "loaded"].

Fixpoint units_events (p : PluginId) (us : list (string * Completion))
  : list Event :=
  match us with
  | [] => []
  | u :: us => unit_events p u ++ units_events (S p) us
  end.

(** Turns of the event loop a unit takes from its load to its [check]. *)
Definition completion_steps (c : Completion) : nat :=
  match c with
  | ByCallback => 2
  | ByTickCallback => 3
  | ByPromise => 6
  end.

Fixpoint sibling_steps (us : list (string * Completion)) : nat :=
  match us with
  | [] => 2
  | u :: us => completion_steps (snd u) + 2 + sibling_steps us
  end.

(** From the load of a unit to its [check]; [first] while the root's own
    first [check] is still due. *)
Lemma loop_sibling_load (n : nat) (u : string * Completion) (first : bool)
    (its : list (Item * Cont)) (pre post : list Plugin) (tr : list Event) :
  let k := List.length pre in
  loop (completion_steps (snd u) + (if first then 1 else 0) + n) 6 Ticks
    (sibling_store [0] false (Some 0) (createQueue DReadyQ)
       (working_root (if first then DNoop else root_check) its)
       (pre ++ parked_unit default_options (sibling u) :: post)
       [load_tick (S k)] (if first then [check_root] else []) tr) =
  loop n 6 Micros
    (sibling_store [S k; 0] false (Some 0) (createQueue DReadyQ)
       (working_root root_check its)
       (pre ++ ran_unit (sibling u) false :: post) [] [check_tick (S k)]
       (tr ++ [EvEmit (Some (S k)) "start";
               EvInvoke (FUser (sibling u)) [ACtx 0; AOptions; ACallback];
               EvDebug "finish" (S k)])).
Proof.
  cbv zeta. destruct u as [name c].
  pose proof (fun x => list_lookup_middle pre post x _ eq_refl) as Hmid.
  destruct c, first; cbn [completion_steps snd Nat.add].
  - erewrite loop_step by (apply step_sibling_load_callback, Hmid).
    rewrite insert_middle. cbn [app].
    erewrite loop_step by apply step_sibling_to_micros.
    erewrite loop_step by apply step_sibling_root_waits.
    reflexivity.
  - erewrite loop_step by (apply step_sibling_load_callback, Hmid).
    rewrite insert_middle. cbn [app].
    erewrite loop_step by apply step_sibling_to_micros.
    reflexivity.
  - erewrite loop_step by (apply step_sibling_load_tick, Hmid).
    rewrite insert_middle.
    erewrite loop_step by (apply step_sibling_done, Hmid).
    rewrite insert_middle. cbn [app].
    erewrite loop_step by apply step_sibling_to_micros.
    erewrite loop_step by apply step_sibling_root_waits.
    rewrite <- app_assoc. reflexivity.
  - erewrite loop_step by (apply step_sibling_load_tick, Hmid).
    rewrite insert_middle.
    erewrite loop_step by (apply step_sibling_done, Hmid).
    rewrite insert_middle. cbn [app].
    erewrite loop_step by apply step_sibling_to_micros.
    rewrite <- app_assoc. reflexivity.
  - erewrite loop_step by (apply step_sibling_load_promise, Hmid).
    rewrite insert_middle. cbn [app].
    erewrite loop_step by apply step_sibling_to_micros.
    erewrite loop_step by apply step_sibling_root_waits.
    erewrite loop_step by apply step_sibling_next_tick.
    erewrite loop_step by apply step_sibling_to_ticks.
    cbn [app].
    erewrite loop_step by (apply step_sibling_done, Hmid).
    rewrite insert_middle. cbn [app].
    erewrite loop_step by apply step_sibling_to_micros.
    rewrite <- app_assoc. reflexivity.
  - erewrite loop_step by (apply step_sibling_load_promise, Hmid).
    rewrite insert_middle. cbn [app].
    erewrite loop_step by apply step_sibling_to_micros.
    erewrite loop_step by apply step_sibling_next_tick.
    erewrite loop_step by apply step_sibling_to_ticks.
    cbn [app].
    erewrite loop_step by (apply step_sibling_done, Hmid).
    rewrite insert_middle. cbn [app].
    erewrite loop_step by apply step_sibling_to_micros.
    rewrite <- app_assoc. reflexivity.
Qed.

Definition parked_sibling (u : string * Completion) : Plugin :=
  parked_unit default_options (sibling u).
Definition loaded_sibling (u : string * Completion) : Plugin :=
  ran_unit (sibling u) true.

(** The store in which the program rests: booted, every unit loaded. *)
Definition all_loaded (tl : list Plugin) (tr : list Event) : St :=
  sibling_store [] true None (MkQueue false 0 [] DNoop)
    (root_plugin true true (MkQueue false 0 [] DNoop)) tl [] [] tr.

Definition boot_events : list Event :=
  [EvEmit (Some 0) "loaded"; EvEmit None "preReady"; EvEmit None "start"].

Lemma loop_siblings (extra : nat) (us : list (string * Completion)) :
  forall (u : string * Completion) (first : bool) (pre : list Plugin)
         (tr : list Event),
  loop (sibling_steps (u :: us) + (if first then 1 else 0) + extra) 6 Ticks
    (sibling_store [0] false (Some 0) (createQueue DReadyQ)
       (working_root (if first then DNoop else root_check)
          (use_items (S (S (List.length pre))) (List.length us)))
       (pre ++ map parked_sibling (u :: us))
       [load_tick (S (List.length pre))]
       (if first then [check_root] else []) tr) =
  Quiet
    (all_loaded (pre ++ map loaded_sibling (u :: us))
       (tr ++ units_events (S (List.length pre)) (u :: us) ++ boot_events)).
Proof.
  induction us as [|u' us IH]; intros u first pre tr.
  - cbn [sibling_steps map List.length use_items seq units_events].
    replace (completion_steps (snd u) + 2 + 2 + (if first then 1 else 0) + extra)
      with (completion_steps (snd u) + (if first then 1 else 0) +
            S (S (S (S extra)))) by lia.
    unfold parked_sibling. rewrite loop_sibling_load.
    erewrite loop_step
      by (apply step_sibling_check_last, list_lookup_middle; reflexivity).
    rewrite insert_middle.
    erewrite loop_step by apply step_sibling_root_loaded.
    erewrite loop_step by apply step_sibling_to_ticks.
    erewrite loop_quiet by apply step_sibling_quiet.
    unfold all_loaded, loaded_sibling, unit_events, boot_events.
    rewrite <- !app_assoc. reflexivity.
  - cbn [sibling_steps map List.length use_items seq units_events].
    replace (completion_steps (snd u) + 2 +
             (completion_steps (snd u') + 2 + sibling_steps us) +
             (if first then 1 else 0) + extra)
      with (completion_steps (snd u) + (if first then 1 else 0) +
            S (S (sibling_steps (u' :: us) + (if false then 1 else 0) + extra)))
      by (cbn [sibling_steps]; lia).
    unfold parked_sibling at 1. rewrite loop_sibling_load.
    erewrite loop_step
      by (apply step_sibling_check_next, list_lookup_middle; reflexivity).
    rewrite insert_middle.
    erewrite loop_step by apply step_sibling_to_ticks.
    specialize (IH u' false (pre ++ [loaded_sibling u])
                  ((tr ++ [EvEmit (Some (S (List.length pre))) "start";
                           EvInvoke (FUser (sibling u))
                             [ACtx 0; AOptions; ACallback];
                           EvDebug "finish" (S (List.length pre))]) ++
                   [EvEmit (Some (S (List.length pre))) "loaded"])).
    rewrite length_app, Nat.add_1_r in IH. cbn [List.length] in IH.
    rewrite <- app_assoc in IH. cbn [app map] in IH.
    unfold use_items, loaded_sibling in *. cbn [map].
    rewrite IH. unfold unit_events.
    rewrite <- !app_assoc. reflexivity.
Qed.

(** use() from the main script only queues the unit on the root. *)
Lemma run_use_sibling (f : Fn) (its : list (Item * Cont)) (tl : list Plugin)
    (tr : list Event) :
  run_act (engine 6) (ActUse f) None
    (sibling_store [0] false (Some 0) (createQueue DReadyQ)
       (root_plugin false false (MkQueue true 0 its DNoop)) tl
       [root_done_tick] [] tr) =
  Val tt
    (sibling_store [0] false (Some 0) (createQueue DReadyQ)
       (root_plugin false false
          (MkQueue true 0 (its ++ [(IPlugin (S (List.length tl)), KAddPlugin)])
             DNoop))
       (tl ++ [parked_unit default_options f]) [root_done_tick] []
       (tr ++ [EvEmit (Some 0) "enqueue"])).
Proof. reflexivity. Qed.

Lemma run_uses_sibling (fs : list Fn) (its : list (Item * Cont))
    (tl : list Plugin) (tr : list Event) :
  run_acts (engine 6) (map ActUse fs) None
    (sibling_store [0] false (Some 0) (createQueue DReadyQ)
       (root_plugin false false (MkQueue true 0 its DNoop)) tl
       [root_done_tick] [] tr) =
  Val tt
    (sibling_store [0] false (Some 0) (createQueue DReadyQ)
       (root_plugin false false
          (MkQueue true 0 (its ++ use_items (S (List.length tl)) (List.length fs))
             DNoop))
       (tl ++ map (parked_unit default_options) fs) [root_done_tick] []
       (tr ++ repeat (EvEmit (Some 0) "enqueue") (List.length fs))).
Proof.
  revert its tl tr. induction fs as [|f fs IH]; intros its tl tr.
  - cbn. now rewrite !app_nil_r.
  - cbn [map run_acts List.length repeat seq use_items]. unfold bind at 1.
    rewrite run_use_sibling, IH. rewrite length_app, Nat.add_1_r.
    unfold use_items. now rewrite <- !app_assoc.
Qed.

Lemma boot_siblings (fs : list Fn) :
  boot 6 default_options (map ActUse fs) =
  Val tt
    (sibling_store [0] false (Some 0) (createQueue DReadyQ)
       (root_plugin false false
          (MkQueue true 0 (use_items 1 (List.length fs)) DNoop))
       (map (parked_unit default_options) fs) [root_done_tick] []
       (EvEmit (Some 0) "start" ::
        repeat (EvEmit (Some 0) "enqueue") (List.length fs))).
Proof.
  unfold boot, bind.
  change (loadPlugin (engine 6) 0 KRootLoaded (init default_options))
    with (Val tt
            (sibling_store [0] false (Some 0) (createQueue DReadyQ)
               (root_plugin false false (MkQueue true 0 [] DNoop)) []
               [root_done_tick] [] [EvEmit (Some 0) "start"])).
  cbv beta iota. rewrite run_uses_sibling. reflexivity.
Qed.

(** The whole run. *)
Definition siblings_trace (us : list (string * Completion)) : list Event :=
  EvEmit (Some 0) "start" ::
  repeat (EvEmit (Some 0) "enqueue") (List.length us) ++
  [EvDebug "finish" 0] ++ units_events 1 us ++ boot_events.

Lemma siblings_run (extra : nat) (us : list (string * Completion)) :
  program (sibling_steps us + 3 + extra) 6 default_options
    (map ActUse (map sibling us)) =
  Quiet (all_loaded (map loaded_sibling us) (siblings_trace us)).
Proof.
  unfold program. rewrite boot_siblings. cbn [after_task].
  rewrite !length_map, map_map.
  destruct us as [|u us].
  - cbn [sibling_steps Nat.add map List.length use_items seq].
    reflexivity.
  - cbn [List.length seq map].
    replace (sibling_steps (u :: us) + 3 + extra)
      with (S (sibling_steps (u :: us) + (if true then 1 else 0) + S extra))
      by lia.
    erewrite loop_step by apply step_sibling_root_done.
    pose proof (loop_siblings (S extra) us u true []) as H.
    cbn [app List.length] in H. unfold parked_sibling in H.
    cbn [map] in H. unfold use_items in *. cbn [map].
    rewrite H. unfold siblings_trace. cbn [List.length repeat app].
    rewrite <- !app_assoc. reflexivity.
Qed.

(** The loading of the units as the events show it: which unit started or
    was loaded, in order (the root apart). *)
Definition loading (l : list Event) : list (PluginId * string) :=
  omap (fun ev => match ev with
                  | EvEmit (Some (S p)) e =>
                      if String.eqb e "start" || String.eqb e "loaded"
                      then Some (S p, e) else None
                  | _ => None
                  end) l.

Lemma loading_app (l1 l2 : list Event) :
  loading (l1 ++ l2) = loading l1 ++ loading l2.
Proof. apply omap_app. Qed.

Lemma loading_repeat_root (event : string) (n : nat) :
  loading (repeat (EvEmit (Some 0) event) n) = [].
Proof. induction n as [|n IH]; [reflexivity|exact IH]. Qed.

Lemma user_calls_units (us : list (string * Completion)) (p : PluginId) :
  user_calls (units_events p us) =
  map (fun f => EvInvoke (FUser f) [ACtx 0; AOptions; ACallback])
      (map sibling us).
Proof.
  revert p. induction us as [|u us IH]; intros p; [reflexivity|].
  cbn [units_events map]. rewrite user_calls_app, IH. reflexivity.
Qed.

Lemma loading_units (us : list (string * Completion)) (p : PluginId) :
  loading (units_events (S p) us) =
  flat_map (fun i => [(i, "start"); (i, "loaded")])
           (seq (S p) (List.length us)).
Proof.
  revert p. induction us as [|u us IH]; intros p; [reflexivity|].
  cbn [units_events List.length seq flat_map]. rewrite loading_app, IH.
  reflexivity.
Qed.

Lemma emitted_units (event : string) (us : list (string * Completion))
    (p : PluginId) :
  emitted event (units_events p us) = 0.
Proof.
  revert p. induction us as [|u us IH]; intros p; [reflexivity|].
  cbn [units_events]. rewrite emitted_app, IH. reflexivity.
Qed.

Lemma lookup_map_In {A B} (g : A -> B) (l : list A) (i : nat) (x : B) :
  map g l !! i = Some x -> exists y, In y l /\ x = g y.
Proof.
  revert i. induction l as [|a l IH]; intros i H; [discriminate H|].
  destruct i as [|i]; [injection H as <-; exists a; split; [now left|reflexivity]|].
  destruct (IH i H) as (y & Hy & ->). exists y. split; [now right|reflexivity].
Qed.

(** X15: plugins registered by the main script are loaded one at a time
    and in the order of their registration, however each of them signals
    that it is done (by calling [done] at once, by deferring it to the
    next tick, or by a promise): every function is called once, in
    registration order, each unit starts only after the one before it was
    reported loaded, and when the loop comes to rest every unit is loaded
    on the root's context and the orchestrator has booted and emitted
    'start' once. *)
Theorem X15_siblings_load_in_order (extra : nat)
    (us : list (string * Completion)) :
  let fs := map sibling us in
  let s := all_loaded (map loaded_sibling us) (siblings_trace us) in
  program (sibling_steps us + 3 + extra) 6 default_options (map ActUse fs) =
    Quiet s /\
  user_calls (trace s) =
    map (fun f => EvInvoke (FUser f) [ACtx 0; AOptions; ACallback]) fs /\
  loading (trace s) =
    flat_map (fun i => [(i, "start"); (i, "loaded")])
             (seq 1 (List.length us)) /\
  (forall i pl, plugins s !! S i = Some pl ->
                pl_loaded pl = true /\ pl_server pl = Some 0 /\
                exists u, In u us /\ pl_func pl = FUser (sibling u)) /\
  av_booted (avvio s) = true /\
  emitted "start" (trace s) = 1.
Proof.
  cbv zeta. split; [apply siblings_run|].
  unfold all_loaded, sibling_store, siblings_trace, boot_events.
  cbn [trace plugins avvio av_booted].
  repeat split.
  - change (EvEmit (Some 0) "start" :: ?l) with ([EvEmit (Some 0) "start"] ++ l).
    rewrite !user_calls_app, user_calls_repeat_emit, user_calls_units.
    cbn. now rewrite app_nil_r.
  - change (EvEmit (Some 0) "start" :: ?l) with ([EvEmit (Some 0) "start"] ++ l).
    rewrite !loading_app, loading_repeat_root, loading_units.
    cbn. now rewrite app_nil_r.
  - apply lookup_map_Some in H as [u ->]. reflexivity.
  - apply lookup_map_Some in H as [u ->]. reflexivity.
  - apply lookup_map_In in H as (u & Hu & ->). exists u. now split.
  - change (EvEmit (Some 0) "start" :: ?l) with ([EvEmit (Some 0) "start"] ++ l).
    rewrite !emitted_app, emitted_repeat_plugin, emitted_units. reflexivity.
Qed.

(** ** ready(f) on an idle ready-queue *)

(** X16: ready(f), called while the ready-queue is resumed and idle (as it
    is once the orchestrator has booted and the queue has drained), calls
    [f] before it returns, not on a later tick: for a function of at most
    one parameter that returns at once, ready(f) returns with [f] already
    called (with the ambient error, which a function of one parameter
    consumes and one without parameters leaves in place), the queue's task
    in flight until its callback runs on the next tick, and start()
    scheduled as a microtask. *)
Theorem X16_late_ready_is_synchronous (n : nat) (f : Fn) (s : St) :
  paused (av_readyQ (avvio s)) = false ->
  running (av_readyQ (avvio s)) = 0%Z ->
  plain f ->
  exists s',
    ready (engine (S (S n))) (Some (FUser f)) s = Val None s' /\
    trace s' =
      trace s ++ [EvInvoke (FUser f)
                    (if (fn_length f =? 0)%nat then []
                     else [AErr (av_error (avvio s))])] /\
    ticks s' = ticks s ++ [TCall (KWorked QReady KNoop) None] /\
    micros s' = micros s ++ [TStart] /\
    running (av_readyQ (avvio s')) = 1%Z /\
    items (av_readyQ (avvio s')) = items (av_readyQ (avvio s)) /\
    av_error (avvio s') =
      (if (fn_length f =? 0)%nat then av_error (avvio s) else None).
Proof.
  intros Hp Hr (Hl & Hb & Hret).
  destruct f as [name len body r]. cbn [fn_length fn_body fn_ret] in *. subst.
  destruct s as [[? ? ? ? ? ? ? [] ? ? ? ? ?] ? ? ? ? ? ? ? ? ?].
  cbn [avvio av_readyQ paused running] in Hp, Hr. subst.
  destruct len as [|[|len]]; [| |lia];
    (eexists; split; [reflexivity|]); cbn; repeat split.
Qed.

Lemma X16_late_ready_is_synchronous_witness :
  exists s',
    let f := MkFn "listening" 1 [] RetUndefined in
    ready (engine 2) (Some (FUser f)) booted_store = Val None s' /\
    trace s' =
      trace booted_store ++
      [EvInvoke (FUser f)
         (if (fn_length f =? 0)%nat then []
          else [AErr (av_error (avvio booted_store))])] /\
    ticks s' = ticks booted_store ++ [TCall (KWorked QReady KNoop) None] /\
    micros s' = micros booted_store ++ [TStart] /\
    running (av_readyQ (avvio s')) = 1%Z /\
    items (av_readyQ (avvio s')) = items (av_readyQ (avvio booted_store)) /\
    av_error (avvio s') =
      (if (fn_length f =? 0)%nat then av_error (avvio booted_store) else None).
Proof.
  apply (X16_late_ready_is_synchronous 0 (MkFn "listening" 1 [] RetUndefined)
           booted_store); [reflexivity|reflexivity|].
  split; [cbn; lia|split; reflexivity].
Defined.
